(** * MimicWX-Linux adapter: the message bridge

    A shallow embedding of [adapter/MimicWX.js]: the inbound normaliser
    ([parseMsgContent]), the outbound composer ([sendMsgSmart], [sendText],
    [sendImage]), the inbound frame handler ([onMessage]) and the connection
    manager ([connectWs], [initBot]).

    - Values.  JavaScript values are modelled by the type [value] below
      (JSON values, [undefined] and Node buffers).  Numbers are the integral
      ones (identifiers, millisecond counts, time stamps) and are carried as
      [Z].  Strings are carried as their UTF-8 bytes.
    - Effects.  A method is a function from the world to an outcome: a
      result or an exception, each with the world it leaves.  The world
      records, in order, what was done to the outside (log lines, requests,
      reads, host events); what the outside answers is a parameter, free to
      depend on everything done before.
    - Composer.  A call of [sendMsgSmart] runs from its start to its end;
      the recursion on forwarded nodes is bounded by the nesting depth of
      the message, which is shown to be enough.
    - Connection.  The handlers run one at a time, as the event loop runs
      them; [initBot] is cut at its two requests and resumes when their
      response arrives.  Time is the clock of the event loop: a timer runs
      when it falls due.
    - Handles.  [pickFriend] and [pickGroup] return what their closures
      keep: the identifier and the record found when the handle was made;
      [sendMsg] and [sendFile] are functions of that handle. *)

From Stdlib Require Import ZArith List String Ascii Bool Lia Arith.
From Stdlib Require Import DecimalString.
Import ListNotations.

Local Open Scope string_scope.
Local Open Scope Z_scope.

Set Warnings "-register-all".

(** ** JavaScript values *)

Module JS.

Inductive value : Type :=
| VUndef
| VNull
| VBool (b : bool)
| VNum (n : Z)
| VStr (s : string)
| VBuf (bytes : list Byte.byte)
| VArr (elems : list value)
| VObj (fields : list (string * value)).

(** [typeof v === "string"] *)
Definition is_string (v : value) : bool :=
  match v with VStr _ => true | _ => false end.

(** [v === undefined || v === null] *)
Definition nullish (v : value) : bool :=
  match v with VUndef | VNull => true | _ => false end.

(** ToBoolean *)
Definition truthy (v : value) : bool :=
  match v with
  | VUndef | VNull => false
  | VBool b => b
  | VNum n => negb (n =? 0)
  | VStr s => negb (s =? "")%string
  | VBuf _ | VArr _ | VObj _ => true
  end.

(** [a || b] *)
Definition or_ (a b : value) : value := if truthy a then a else b.

Fixpoint assoc (k : string) (fs : list (string * value)) : value :=
  match fs with
  | [] => VUndef
  | (k', v) :: fs' => if (k =? k')%string then v else assoc k fs'
  end.

(** [v.k] on a value that is neither [undefined] nor [null]: own properties
    of plain objects; the keys the adapter reads ([type], [data], [text],
    [file], ...) are not defined on strings, numbers, booleans, arrays or
    buffers. *)
Definition get (v : value) (k : string) : value :=
  match v with
  | VObj fs => assoc k fs
  | _ => VUndef
  end.

(** [v?.k] *)
Definition oget (v : value) (k : string) : value :=
  if nullish v then VUndef else get v k.

(** [v === "lit"] *)
Definition is_str (v : value) (lit : string) : bool :=
  match v with VStr s => (s =? lit)%string | _ => false end.

(** Decimal rendering of an integral number. *)
Definition dec (n : Z) : string := NilZero.string_of_int (Z.to_int n).

Fixpoint join (sep : string) (l : list string) : string :=
  match l with
  | [] => ""
  | [x] => x
  | x :: l' => x ++ sep ++ join sep l'
  end.

Definition string_of_bytes (b : list Byte.byte) : string :=
  string_of_list_byte b.

(** ToString, as used by template literals and [String(v)].  An array is
    its elements joined by commas, [undefined] and [null] elements being
    rendered empty; a plain object is ["[object Object]"]; a buffer is its
    content. *)
Fixpoint to_string (v : value) : string :=
  match v with
  | VUndef => "undefined"
  | VNull => "null"
  | VBool true => "true"
  | VBool false => "false"
  | VNum n => dec n
  | VStr s => s
  | VBuf b => string_of_bytes b
  | VArr l =>
      join "," (map (fun x => if nullish x then "" else to_string x) l)
  | VObj _ => "[object Object]"
  end.

(** [parts.join("")] *)
Definition join_values (parts : list value) : string :=
  join "" (map (fun x => if nullish x then "" else to_string x) parts).

(** ToNumber; [None] stands for NaN.  The conversion of a string is the
    runtime's (StringToNumber) and is taken as a parameter. *)
Definition to_number (StringToNumber : string -> option Z) (v : value)
  : option Z :=
  match v with
  | VUndef => None
  | VNull => Some 0
  | VBool b => Some (if b then 1 else 0)
  | VNum n => Some n
  | VStr s => StringToNumber s
  | VBuf _ | VArr _ => StringToNumber (to_string v)
  | VObj _ => None
  end.

(** [s.includes(sub)] on strings *)
Fixpoint includes (s sub : string) : bool :=
  if prefix sub s then true
  else match s with
       | EmptyString => false
       | String _ s' => includes s' sub
       end.

(** [v.includes(sub)]: substring test on a string and on the content of a
    buffer, membership (by [===]) on an array; other values have no such
    method. *)
Definition includes_method (v : value) (sub : string) : option bool :=
  match v with
  | VStr s => Some (includes s sub)
  | VBuf b => Some (includes (string_of_bytes b) sub)
  | VArr l => Some (existsb (fun x => is_str x sub) l)
  | _ => None
  end.

(** White space and line terminators of the language, as UTF-8 sequences of
    one, two and three bytes: U+0009..U+000D, U+0020; U+00A0; U+1680,
    U+2000..U+200A, U+2028, U+2029, U+202F, U+205F, U+3000, U+FEFF. *)
Definition ws1 (a : ascii) : bool :=
  let n := nat_of_ascii a in
  ((9 <=? n) && (n <=? 13) || (n =? 32))%nat.

Definition ws2 (a b : ascii) : bool :=
  ((nat_of_ascii a =? 194) && (nat_of_ascii b =? 160))%nat.

Definition ws3 (a b c : ascii) : bool :=
  let x := nat_of_ascii a in
  let y := nat_of_ascii b in
  let z := nat_of_ascii c in
  ((x =? 225) && (y =? 154) && (z =? 128)
   || (x =? 226) && (y =? 128) &&
      ((128 <=? z) && (z <=? 138) || (z =? 168) || (z =? 169) || (z =? 175))
   || (x =? 226) && (y =? 129) && (z =? 159)
   || (x =? 227) && (y =? 128) && (z =? 128)
   || (x =? 239) && (y =? 187) && (z =? 191))%nat.

(** Drops leading white space; [rev] tells that the bytes come last first. *)
Fixpoint strip (rev : bool) (l : list ascii) : list ascii :=
  match l with
  | a :: l1 =>
      if ws1 a then strip rev l1
      else match l1 with
           | b :: l2 =>
               if (if rev then ws2 b a else ws2 a b) then strip rev l2
               else match l2 with
                    | c :: l3 =>
                        if (if rev then ws3 c b a else ws3 a b c)
                        then strip rev l3 else l
                    | [] => l
                    end
           | [] => l
           end
  | [] => l
  end.

(** [s.trim()] *)
Definition trim (s : string) : string :=
  string_of_list_ascii
    (List.rev (strip true (List.rev (strip false (list_ascii_of_string s))))).

(** Nesting depth, the measure of the recursion on forwarded nodes. *)
Fixpoint depth (v : value) : nat :=
  match v with
  | VArr l => S (list_max (map depth l))
  | VObj fs => S (list_max (map (fun kv => depth (snd kv)) fs))
  | _ => O
  end.

(** Structural equality.  On strings, numbers and booleans it is the key
    equality of a [Map] (SameValueZero); the identifiers the adapter keys
    its maps with are strings. *)
Fixpoint value_eqb (a b : value) : bool :=
  match a, b with
  | VUndef, VUndef => true
  | VNull, VNull => true
  | VBool x, VBool y => Bool.eqb x y
  | VNum x, VNum y => x =? y
  | VStr x, VStr y => (x =? y)%string
  | VBuf x, VBuf y =>
      (string_of_list_byte x =? string_of_list_byte y)%string
  | VArr x, VArr y =>
      (fix go (l1 l2 : list value) : bool :=
         match l1, l2 with
         | [], [] => true
         | u :: l1', w :: l2' => value_eqb u w && go l1' l2'
         | _, _ => false
         end) x y
  | VObj x, VObj y =>
      (fix go (l1 l2 : list (string * value)) : bool :=
         match l1, l2 with
         | [], [] => true
         | (k, u) :: l1', (k', w) :: l2' =>
             (k =? k')%string && value_eqb u w && go l1' l2'
         | _, _ => false
         end) x y
  | _, _ => false
  end.

(** [s.slice(n)] *)
Fixpoint slice_from (n : nat) (s : string) : string :=
  match n, s with
  | O, _ => s
  | S n', String _ s' => slice_from n' s'
  | S _, EmptyString => EmptyString
  end.

End JS.
Import JS.

(** ** Inbound normaliser: [parseMsgContent] *)

Module Normalizer.

Record content : Type := mkContent {
  segments : list value;
  display : value
}.

(** [{ type: "text", text: t }] *)
Definition text_seg (t : value) : value :=
  VObj [("type", VStr "text"); ("text", t)].

(** [{ segments: [{ type: "text", text: d }], display: d }] *)
Definition single (d : value) : content := mkContent [text_seg d] d.

Section WithRuntime.

Variable StringToNumber : string -> option Z.

(** [ms >= n] and [ms > n] against a number literal *)
Definition ge_num (ms : value) (n : Z) : bool :=
  match to_number StringToNumber ms with
  | Some m => n <=? m
  | None => false
  end.

Definition gt_num (ms : value) (n : Z) : bool :=
  match to_number StringToNumber ms with
  | Some m => n <? m
  | None => false
  end.

(** [`${Math.floor(ms / n)}`] *)
Definition floor_div_string (ms : value) (n : Z) : string :=
  match to_number StringToNumber ms with
  | Some m => dec (m / n)
  | None => "NaN"
  end.

Definition voice_label (ms : value) : string :=
  if ge_num ms 1000 then "[语音 " ++ floor_div_string ms 1000 ++ "s]"
  else if gt_num ms 0 then "[语音 " ++ to_string ms ++ "ms]"
  else "[语音]".

Definition parseMsgContent (parsed rawContent : value) : content :=
  if negb (truthy parsed) || negb (truthy (get parsed "type")) then
    single (or_ rawContent (VStr ""))
  else
    let type := get parsed "type" in
    let data := get parsed "data" in
    if is_str type "Text" then
      single (or_ (oget data "text") rawContent)
    else if is_str type "Image" then
      single (VStr "[图片]")
    else if is_str type "Voice" then
      let ms := oget data "duration_ms" in
      single (VStr (voice_label ms))
    else if is_str type "Video" then
      single (VStr "[视频]")
    else if is_str type "Emoji" then
      single (VStr "[表情]")
    else if is_str type "App" then
      let t := or_ (or_ (oget data "title") (oget data "desc")) (VStr "链接") in
      single (VStr ("[链接] " ++ to_string t))
    else if is_str type "System" then
      single (or_ (oget data "text") rawContent)
    else
      single (or_ rawContent (VStr "")).

(** The seven variants the [switch] names. *)
Definition recognized (type : value) : bool :=
  is_str type "Text" || is_str type "Image" || is_str type "Voice" ||
  is_str type "Video" || is_str type "Emoji" || is_str type "App" ||
  is_str type "System".

End WithRuntime.

End Normalizer.

(** ** The host registry: [Bot[self_id]] *)

Module Host.

(** A [Map]: entries in insertion order, at most one per key. *)
Definition jsmap : Type := list (value * value).

Fixpoint map_get (k : value) (m : jsmap) : value :=
  match m with
  | [] => VUndef
  | (k', v) :: m' => if value_eqb k k' then v else map_get k m'
  end.

Fixpoint map_set (k v : value) (m : jsmap) : jsmap :=
  match m with
  | [] => [(k, v)]
  | (k', v') :: m' =>
      if value_eqb k k' then (k', v) :: m' else (k', v') :: map_set k v m'
  end.

Definition map_keys (m : jsmap) : list value := map fst m.

(** The fields of the registered session object that carry state. *)
Record bot : Type := mkBot {
  fl : jsmap;
  gl : jsmap;
  (** [Date.now()] at registration; [stat.start_time] is it in seconds *)
  start_time_ms : Z;
  (** [version.version] *)
  version : value
}.

Definition self_id : string := "MimicWX".
Definition adapter_name : string := "MimicWX-Linux".

End Host.
Import Host.

(** ** Effects: a world threaded through, exceptions, [try]/[catch] *)

Module Eff.

Inductive error : Type :=
| TypeError (message : string)
| IOError (message : string).

(** [err.message] *)
Definition err_message (e : error) : string :=
  match e with TypeError m | IOError m => m end.

Inductive outcome (W A : Type) : Type :=
| Ok (a : A) (w : W)
| Throw (e : error) (w : W)
| OutOfFuel.
Arguments Ok {W A} a w.
Arguments Throw {W A} e w.
Arguments OutOfFuel {W A}.

Definition M (W A : Type) : Type := W -> outcome W A.

Definition ret {W A} (a : A) : M W A := fun w => Ok a w.

Definition bind {W A B} (m : M W A) (k : A -> M W B) : M W B :=
  fun w =>
    match m w with
    | Ok a w' => k a w'
    | Throw e w' => Throw e w'
    | OutOfFuel => OutOfFuel
    end.

Definition throw {W A} (e : error) : M W A := fun w => Throw e w.

(** [try { m } catch (err) { h err }] *)
Definition try_catch {W A} (m : M W A) (h : error -> M W A) : M W A :=
  fun w =>
    match m w with
    | Throw e w' => h e w'
    | r => r
    end.

(** [for (const x of l) await f(x)] *)
Fixpoint for_each {W A B} (f : A -> M W B) (l : list A) : M W unit :=
  match l with
  | [] => ret tt
  | x :: l' => bind (f x) (fun _ => for_each f l')
  end.

End Eff.
Import Eff.

Declare Scope eff_scope.
Delimit Scope eff_scope with eff.
Notation "x <- m ;; k" := (bind m (fun x => k))
  (at level 61, m at next level, right associativity) : eff_scope.
Notation "m ;; k" := (bind m (fun _ => k))
  (at level 61, right associativity) : eff_scope.

(** ** Outbound composer: [sendMsgSmart], [sendText], [sendImage] *)

Module Composer.

(** What the composer does to the outside, in order. *)
Inductive event : Type :=
| Log (level message id : string)
| HttpPost (url : string) (body : value)
| HttpGet (url : string)
| ReadFile (path : string).

(** The runtime and the backend: library functions the adapter calls, and
    the outcome of each request given everything done before it. *)
Record environment : Type := mkEnv {
  (** [process.env.MIMICWX_URL || "http://localhost:8899"] *)
  MIMICWX_URL : string;
  (** [Bot.String(v)], of the host *)
  Bot_String : value -> string;
  (** [buf.toString("base64")] *)
  base64 : list Byte.byte -> string;
  (** [path.basename(p)] and [path.extname(p)] *)
  basename : string -> string;
  extname : string -> string;
  (** [new URL(s).pathname], which throws on what is not a URL *)
  url_pathname : string -> error + string;
  (** the parsed response to a POST, or the error of the request or of the
      parsing *)
  http_post : list event -> string -> value -> error + value;
  (** the body of the response to a GET *)
  http_get : list event -> string -> error + list Byte.byte;
  (** the content of a file *)
  read_file : list event -> string -> error + list Byte.byte
}.

Record world : Type := mkWorld {
  registry : option bot;
  trace : list event
}.

Definition M (A : Type) : Type := Eff.M world A.

Local Open Scope eff_scope.

Definition emit (e : event) : M unit :=
  fun w => Ok tt (mkWorld (registry w) (trace w ++ [e])%list).

(** [Bot.makeLog(level, message, id)] *)
Definition makeLog (level message id : string) : M unit :=
  emit (Log level message id).

(** [typeof v] *)
Definition typeof (v : value) : string :=
  match v with
  | VUndef => "undefined"
  | VBool _ => "boolean"
  | VNum _ => "number"
  | VStr _ => "string"
  | VNull | VBuf _ | VArr _ | VObj _ => "object"
  end.

(** [v?.constructor?.name] *)
Definition constructor_name (v : value) : value :=
  match v with
  | VUndef | VNull => VUndef
  | VBool _ => VStr "Boolean"
  | VNum _ => VStr "Number"
  | VStr _ => VStr "String"
  | VBuf _ => VStr "Buffer"
  | VArr _ => VStr "Array"
  | VObj fs =>
      if existsb (fun kv => (fst kv =? "constructor")%string) fs
      then oget (assoc "constructor" fs) "name"
      else VStr "Object"
  end.

Section WithEnvironment.

Variable env : environment.

(** [await (await fetch(url, { method: "POST", ..., body })).json()] *)
Definition post_json (url : string) (body : value) : M value :=
  fun w =>
    let w' := mkWorld (registry w) (trace w ++ [HttpPost url body])%list in
    match http_post env (trace w) url body with
    | inl e => Throw e w'
    | inr v => Ok v w'
    end.

(** [Buffer.from(await (await fetch(url)).arrayBuffer())] *)
Definition download (url : string) : M (list Byte.byte) :=
  fun w =>
    let w' := mkWorld (registry w) (trace w ++ [HttpGet url])%list in
    match http_get env (trace w) url with
    | inl e => Throw e w'
    | inr b => Ok b w'
    end.

(** [await fs.readFile(path)] *)
Definition readFile (path : string) : M (list Byte.byte) :=
  fun w =>
    let w' := mkWorld (registry w) (trace w ++ [ReadFile path])%list in
    match read_file env (trace w) path with
    | inl e => Throw e w'
    | inr b => Ok b w'
    end.

(** [`${this.self_id} => ${to}`] *)
Definition arrow_id (to : value) : string :=
  self_id ++ " => " ++ to_string to.

(** Reading [result.sent] fails on [undefined] and [null]. *)
Definition read_sent (result : value) : M value :=
  if nullish result
  then throw (TypeError "Cannot read properties of undefined (reading 'sent')")
  else ret (get result "sent").

Definition sendText (to text : value) : M value :=
  try_catch
    (result <- post_json (MIMICWX_URL env ++ "/send")
                         (VObj [("to", to); ("text", text)]) ;;
     sent <- read_sent result ;;
     (if negb (truthy sent) then
        makeLog "warn"
          ("文本发送失败: " ++
           to_string (or_ (get result "message") (get result "error")))
          (arrow_id to)
      else ret tt) ;;
     ret result)
    (fun err =>
       makeLog "error" ("文本发送错误: " ++ err_message err) (arrow_id to) ;;
       ret VUndef).

(** [!base64Data] *)
Definition no_data (base64Data : option string) : bool :=
  match base64Data with
  | None => true
  | Some d => (d =? "")%string
  end.

(** The branches on a string source.  The result is the pair of
    [base64Data] and [fileName], or [None] when the function returns from
    inside the innermost [catch]. *)
Definition resolve_string (file : string)
  : M (option (option string * string)) :=
  if prefix "base64://" file then
    ret (Some (Some (slice_from 9 file), "image.png"))
  else if prefix "http://" file || prefix "https://" file then
    makeLog "info" ("下载图片: " ++ substring 0 80 file ++ "...") self_id ;;
    buf <- download file ;;
    match url_pathname env file with
    | inl e => throw e
    | inr urlPath =>
        let ext := extname env urlPath in
        ret (Some (Some (base64 env buf),
                   if (ext =? "")%string then "image.png" else "image" ++ ext))
    end
  else if prefix "file://" file then
    let filePath := slice_from 7 file in
    buf <- readFile filePath ;;
    ret (Some (Some (base64 env buf), basename env filePath))
  else
    try_catch
      (buf <- readFile file ;;
       ret (Some (Some (base64 env buf), basename env file)))
      (fun _ =>
         makeLog "warn" ("无法读取图片: " ++ file) self_id ;;
         ret None).

(** The first part of [sendImage]: buffers, and the conversion of other
    values to a string.  The result is [base64Data] and the new [file]. *)
Definition image_data (file : value) : M (option string * value) :=
  match file with
  | VBuf b => ret (Some (base64 env b), file)
  | VStr _ => ret (None, file)
  | _ =>
      makeLog "debug"
        ("图片类型: " ++ typeof file ++ " " ++
         to_string (constructor_name file)) self_id ;;
      match oget file "buffer" with
      | VBuf b => ret (Some (base64 env b), file)
      | _ => ret (None, VStr (to_string file))
      end
  end.

(** [Math.round(len * 3 / 4 / 1024)] *)
Definition kilobytes (len : nat) : Z := (3 * Z.of_nat len + 2048) / 4096.

(** The last part of [sendImage]: the log line, the request and the check
    of its response. *)
Definition post_image (to : value) (base64Data fileName : string) : M value :=
  makeLog "info"
    ("发送图片: " ++ fileName ++ " (" ++
     dec (kilobytes (String.length base64Data)) ++ "KB)") (arrow_id to) ;;
  result <- post_json (MIMICWX_URL env ++ "/send_image")
              (VObj [("to", to); ("file", VStr base64Data);
                     ("name", VStr fileName)]) ;;
  sent <- read_sent result ;;
  (if negb (truthy sent) then
     makeLog "warn"
       ("图片发送失败: " ++
        to_string (or_ (get result "message") (get result "error")))
       (arrow_id to)
   else ret tt) ;;
  ret result.

(** The middle part of [sendImage]: [base64Data] and [fileName] once the
    source is resolved, or [None] when the function has returned. *)
Definition resolve_image (file : value)
  : M (option (option string * string)) :=
  st <- image_data file ;;
  let '(base64Data, file) := st in
  match file with
  | VStr f =>
      if no_data base64Data then resolve_string f
      else ret (Some (base64Data, "image.png"))
  | _ => ret (Some (base64Data, "image.png"))
  end.

Definition sendImage (to file : value) : M value :=
  try_catch
    (resolved <- resolve_image file ;;
     match resolved with
     | None => ret VUndef
     | Some (None, _) =>
         throw (TypeError
           "Cannot read properties of undefined (reading 'length')")
     | Some (Some base64Data, fileName) => post_image to base64Data fileName
     end)
    (fun err =>
       makeLog "error" ("图片发送错误: " ++ err_message err) (arrow_id to) ;;
       ret VUndef).

(** The separator that follows a mention, U+2005. *)
Definition four_per_em_space : string :=
  String (ascii_of_nat 226) (String (ascii_of_nat 128)
    (String (ascii_of_nat 133) EmptyString)).

(** [Bot[this.self_id]?.fl?.get(uid)] *)
Definition lookup_friend (uid : value) : M value :=
  fun w =>
    Ok (match registry w with
        | Some b => map_get uid (fl b)
        | None => VUndef
        end) w.

(** [parts.push(x)] *)
Definition push (parts : list value) (x : value) : list value :=
  (parts ++ [x])%list.

(** [node.message || node.content || node] *)
Definition inner_message (node : value) : value :=
  or_ (or_ (get node "message") (get node "content")) node.

(** One turn of the loop over the segments.  [self] is the method itself,
    for the forwarded nodes; the state is [textParts] and [imageTasks]. *)
Definition segment_step (self : value -> value -> M value)
    (to seg : value) (textParts imageTasks : list value)
  : M (list value * list value) :=
  if is_string seg then
    ret (push textParts seg, imageTasks)
  else if nullish seg then
    throw (TypeError "Cannot read properties of undefined (reading 'type')")
  else
    let type := get seg "type" in
    let data := get seg "data" in
    if is_str type "text" then
      ret (push textParts
             (or_ (or_ (get seg "text") (oget data "text")) (VStr "")),
           imageTasks)
    else if is_str type "at" then
      let uid := or_ (or_ (get seg "qq") (oget data "qq")) (VStr "") in
      info <- lookup_friend uid ;;
      let name := or_ (or_ (oget info "nickname") (oget info "user_name")) uid in
      ret (push textParts (VStr ("@" ++ to_string name ++ four_per_em_space)),
           imageTasks)
    else if is_str type "image" then
      let file := or_ (or_ (or_ (get seg "file") (get seg "url"))
                           (oget data "file")) (oget data "url") in
      ret (textParts, if truthy file then push imageTasks file else imageTasks)
    else if is_str type "record" || is_str type "video" then
      ret (push textParts (VStr "[不支持的媒体]"), imageTasks)
    else if is_str type "face" then
      ret (push textParts (VStr "[表情]"), imageTasks)
    else if is_str type "reply" || is_str type "button" then
      ret (textParts, imageTasks)
    else if is_str type "node" then
      match data with
      | VArr nodes =>
          for_each
            (fun node =>
               if nullish node then
                 throw (TypeError
                   "Cannot read properties of undefined (reading 'message')")
               else self to (inner_message node))
            nodes ;;
          ret (textParts, imageTasks)
      | _ => ret (textParts, imageTasks)
      end
    else
      ret (push textParts (VStr (Bot_String env seg)), imageTasks).

(** [for (const seg of msg) { ... }] *)
Fixpoint segments_loop (self : value -> value -> M value)
    (to : value) (msg : list value) (textParts imageTasks : list value)
  : M (list value * list value) :=
  match msg with
  | [] => ret (textParts, imageTasks)
  | seg :: msg' =>
      st <- segment_step self to seg textParts imageTasks ;;
      segments_loop self to msg' (fst st) (snd st)
  end.

(** What follows the loop: the text first, then the images one by one. *)
Definition finish (to : value) (textParts imageTasks : list value)
  : M value :=
  let text := trim (join_values textParts) in
  (if negb (text =? "")%string then sendText to (VStr text)
   else ret VUndef) ;;
  for_each (fun file => sendImage to file) imageTasks ;;
  ret VUndef.

(** The body of [sendMsgSmart], the recursive calls going to [self]. *)
Definition sendMsgSmart_body (self : value -> value -> M value)
    (to msg : value) : M value :=
  match msg with
  | VStr _ => sendText to msg
  | _ =>
      let msg := match msg with VArr l => l | _ => [msg] end in
      st <- segments_loop self to msg [] [] ;;
      finish to (fst st) (snd st)
  end.

Fixpoint sendMsgSmart_fuel (fuel : nat) (to msg : value) : M value :=
  match fuel with
  | O => fun _ => OutOfFuel
  | S fuel' => sendMsgSmart_body (sendMsgSmart_fuel fuel') to msg
  end.

(** A call needs no more nested calls than the message is deep. *)
Definition sendMsgSmart (to msg : value) : M value :=
  sendMsgSmart_fuel (S (depth msg)) to msg.

End WithEnvironment.

End Composer.

(** ** Connection manager and inbound path: [connectWs], [initBot],
       [onMessage] *)

Module Connection.

Import Normalizer.

Definition RECONNECT_INTERVAL : Z := 5000.

(** What a [setTimeout] will call. *)
Inductive callback : Type :=
| ConnectWs
| InitBot.

(** Where [initBot] is suspended on a request. *)
Inductive awaiting : Type :=
| StatusResponse
| ContactsResponse (status : value).

(** The event object handed to the host.  [e_bot] tells whether
    [Bot[self_id]] was registered; [e_reply_to] is the recipient the
    [reply] callback passes to [sendMsgSmart]. *)
Record envelope : Type := mkEnvelope {
  e_self_id : string;
  e_bot : bool;
  e_post_type : string;
  e_message_type : string;
  e_user_id : value;
  e_group_id : value;
  e_group_name : value;
  e_sender : value;
  e_message : list value;
  e_raw_message : value;
  e_time : value;
  e_message_id : string;
  e_reply_to : value
}.

Inductive payload : Type :=
| Connect (self_id : string)
| Message (e : envelope).

Inductive event : Type :=
| Log (level : string) (message : value) (id : string)
| NewWebSocket (url : string)
| Fetch (url : string)
| Emit (name : string) (data : payload).

Record environment : Type := mkEnv {
  (** [process.env.MIMICWX_URL || "http://localhost:8899"] *)
  MIMICWX_URL : string;
  (** [process.env.MIMICWX_TOKEN || ""] *)
  MIMICWX_TOKEN : string;
  encodeURIComponent : string -> string;
  (** the conversion of a string to a number, [None] for NaN *)
  StringToNumber : string -> option Z;
  (** [JSON.parse(raw.toString())] *)
  JSON_parse : string -> error + value;
  (** whether [new WebSocket(url)] throws, given what happened before *)
  ws_construct : list (Z * event) -> option error
}.

Record state : Type := mkState {
  connected : bool;
  ws : option nat;
  (** sockets that carry the handlers and have not closed *)
  listening : list nat;
  (** number of sockets constructed *)
  sockets : nat;
  registry : option bot;
  uin : list string;
  timers : list (Z * callback);
  pending : list awaiting;
  (** [Date.now()] *)
  now : Z;
  trace : list (Z * event)
}.

Definition initial : state :=
  mkState false None [] 0 None [] [] [] 0 [].

Definition M (A : Type) : Type := Eff.M state A.

Local Open Scope eff_scope.

Definition get_state : M state := fun w => Ok w w.

Definition emit (e : event) : M unit :=
  fun w =>
    Ok tt (mkState (connected w) (ws w) (listening w) (sockets w)
             (registry w) (uin w) (timers w) (pending w) (now w)
             (trace w ++ [(now w, e)])%list).

Definition makeLog (level : string) (message : value) (id : string)
  : M unit :=
  emit (Log level message id).

(** [setTimeout(() => cb(), delay)] *)
Definition setTimeout (cb : callback) (delay : Z) : M unit :=
  fun w =>
    Ok tt (mkState (connected w) (ws w) (listening w) (sockets w)
             (registry w) (uin w) (timers w ++ [(now w + delay, cb)])%list
             (pending w) (now w) (trace w)).

Definition set_connected (b : bool) : M unit :=
  fun w =>
    Ok tt (mkState b (ws w) (listening w) (sockets w) (registry w) (uin w)
             (timers w) (pending w) (now w) (trace w)).

Definition set_registry (r : option bot) : M unit :=
  fun w =>
    Ok tt (mkState (connected w) (ws w) (listening w) (sockets w) r (uin w)
             (timers w) (pending w) (now w) (trace w)).

Definition set_uin (u : list string) : M unit :=
  fun w =>
    Ok tt (mkState (connected w) (ws w) (listening w) (sockets w)
             (registry w) u (timers w) (pending w) (now w) (trace w)).

(** The request is sent and the function waits for its response. *)
Definition fetch (url : string) (k : awaiting) : M unit :=
  emit (Fetch url) ;;
  fun w =>
    Ok tt (mkState (connected w) (ws w) (listening w) (sockets w)
             (registry w) (uin w) (timers w) (pending w ++ [k])%list (now w)
             (trace w)).

Section WithEnvironment.

Variable env : environment.

(** [MIMICWX_URL.replace(/^http/, "ws") + "/ws" + (token ? ... : "")] *)
Definition MIMICWX_WS : string :=
  let url := MIMICWX_URL env in
  (if prefix "http" url then "ws" ++ slice_from 4 url else url)
  ++ "/ws"
  ++ (if (MIMICWX_TOKEN env =? "")%string then ""
      else "?token=" ++ encodeURIComponent env (MIMICWX_TOKEN env)).

(** [new WebSocket(MIMICWX_WS)] and the registration of the four handlers
    on the new socket. *)
Definition connectWs : M unit :=
  w <- get_state ;;
  emit (NewWebSocket MIMICWX_WS) ;;
  match ws_construct env (trace w) with
  | Some err =>
      makeLog "warn" (VStr ("WebSocket 创建失败: " ++ err_message err))
        "MimicWX" ;;
      setTimeout ConnectWs RECONNECT_INTERVAL
  | None =>
      fun w =>
        Ok tt (mkState (connected w) (Some (sockets w))
                 (listening w ++ [sockets w])%list (S (sockets w))
                 (registry w) (uin w) (timers w) (pending w) (now w)
                 (trace w))
  end.

Definition load : M unit :=
  makeLog "info"
    (VStr ("MimicWX 适配器加载中... API: " ++ MIMICWX_URL env)) "MimicWX" ;;
  connectWs.

(** [initBot], up to the request for the status. *)
Definition initBot : M unit :=
  fetch (MIMICWX_URL env ++ "/status") StatusResponse.

(** [initBot], from the response for the status to the request for the
    contacts. *)
Definition initBot_status (r : error + value) : M unit :=
  match r with
  | inl _ =>
      makeLog "warn" (VStr "获取状态失败，10秒后重试...") "MimicWX" ;;
      setTimeout InitBot 10000
  | inr status =>
      if nullish status then
        throw (TypeError
          "Cannot read properties of null (reading 'status')")
      else if negb (is_str (get status "status") "已登录") then
        makeLog "info"
          (VStr ("微信状态: " ++ to_string (get status "status") ++
                 "，10秒后重试...")) "MimicWX" ;;
        setTimeout InitBot 10000
      else
        set_connected true ;;
        fetch (MIMICWX_URL env ++ "/contacts") (ContactsResponse status)
  end.

(** [c.username || c.wxid || c.display_name] *)
Definition contact_id (c : value) : value :=
  or_ (or_ (get c "username") (get c "wxid")) (get c "display_name").

(** One turn of the loop over the contacts. *)
Definition add_contact (c : value) (lists : jsmap * jsmap)
  : error + (jsmap * jsmap) :=
  let '(fl, gl) := lists in
  if nullish c then
    inl (TypeError "Cannot read properties of null (reading 'username')")
  else
    let id := contact_id c in
    let info :=
      VObj [("user_id", id);
            ("nickname", or_ (get c "display_name") (get c "username"));
            ("user_name", get c "username");
            ("remark", or_ (get c "remark_name") (VStr ""));
            ("bot_id", VStr self_id)] in
    if truthy id then
      match includes_method id "@chatroom" with
      | None => inl (TypeError "id.includes is not a function")
      | Some true =>
          inr (fl,
               map_set id
                 (VObj [("group_id", id);
                        ("group_name", get info "nickname");
                        ("bot_id", VStr self_id)]) gl)
      | Some false => inr (map_set id info fl, gl)
      end
    else inr (fl, gl).

Fixpoint add_contacts (contacts : list value) (lists : jsmap * jsmap)
  : error + (jsmap * jsmap) :=
  match contacts with
  | [] => inr lists
  | c :: contacts' =>
      match add_contact c lists with
      | inl e => inl e
      | inr lists' => add_contacts contacts' lists'
      end
  end.

(** What [for (const c of contacts)] goes through. *)
Definition iterate (contacts : value) : error + list value :=
  match contacts with
  | VArr l => inr l
  | VStr s => inr (map (fun a => VStr (String a "")) (list_ascii_of_string s))
  | VBuf b => inr (map (fun x => VNum (Z.of_nat (Byte.to_nat x))) b)
  | _ => inl (TypeError "contacts is not iterable")
  end.

(** [const fl = new Map(), gl = new Map()] and the loop that fills them. *)
Definition build_lists (contacts : value) : error + (jsmap * jsmap) :=
  match iterate contacts with
  | inl e => inl e
  | inr l => add_contacts l ([], [])
  end.

(** [initBot], from the response for the contacts on. *)
Definition initBot_contacts (status : value) (r : error + value) : M unit :=
  contacts <-
    match r with
    | inl err =>
        makeLog "warn" (VStr ("获取联系人失败: " ++ err_message err))
          "MimicWX" ;;
        ret (VArr [])
    | inr data =>
        if nullish data then
          makeLog "warn"
            (VStr ("获取联系人失败: " ++
                   "Cannot read properties of null (reading 'contacts')"))
            "MimicWX" ;;
          ret (VArr [])
        else ret (or_ (get data "contacts") (VArr []))
    end ;;
  match build_lists contacts with
  | inl e => throw e
  | inr (fl, gl) =>
      w <- get_state ;;
      set_registry
        (Some (mkBot fl gl (now w)
                 (or_ (get status "version") (VStr "0.4.0")))) ;;
      (if existsb (String.eqb self_id) (uin w) then ret tt
       else set_uin (uin w ++ [self_id])%list) ;;
      makeLog "mark"
        (VStr (adapter_name ++ " v" ++ to_string (get status "version") ++
               " 已连接 (" ++ dec (Z.of_nat (List.length fl)) ++ "好友, " ++
               dec (Z.of_nat (List.length gl)) ++ "群)")) self_id ;;
      emit (Emit ("connect." ++ self_id) (Connect self_id))
  end.

(** [bot.gl.set(k, v)] and [bot.fl.set(k, v)] on the registered object *)
Definition gl_set (k v : value) : M unit :=
  w <- get_state ;;
  match registry w with
  | Some b =>
      set_registry
        (Some (mkBot (fl b) (map_set k v (gl b)) (start_time_ms b)
                 (version b)))
  | None => ret tt
  end.

Definition fl_set (k v : value) : M unit :=
  w <- get_state ;;
  match registry w with
  | Some b =>
      set_registry
        (Some (mkBot (map_set k v (fl b)) (gl b) (start_time_ms b)
                 (version b)))
  | None => ret tt
  end.

(** [v.includes("@chatroom")] *)
Definition has_marker (v : value) (what : string) : M bool :=
  match includes_method v "@chatroom" with
  | Some b => ret b
  | None => throw (TypeError (what ++ ".includes is not a function"))
  end.

(** The update of the directory from a frame: [if (bot) { ... }]. *)
Definition update_directory (data isGroup user_id group_id : value)
  : M unit :=
  w <- get_state ;;
  match registry w with
  | Some _ =>
      (if truthy isGroup && truthy group_id &&
          truthy (get data "chat_display")
       then
         gl_set group_id
           (VObj [("group_id", group_id);
                  ("group_name", get data "chat_display");
                  ("bot_id", VStr self_id)])
       else ret tt) ;;
      (if truthy user_id then
         b <- has_marker user_id "user_id" ;;
         if negb b then
           fl_set user_id
             (VObj [("user_id", user_id);
                    ("nickname", or_ (get data "talker_display") user_id);
                    ("user_name", user_id);
                    ("bot_id", VStr self_id)])
         else ret tt
       else ret tt)
  | None => ret tt
  end.

(** [data.chat && data.chat.includes("@chatroom")] *)
Definition is_group (chat : value) : M value :=
  if truthy chat then b <- has_marker chat "data.chat" ;; ret (VBool b)
  else ret chat.

(** The branch of [onMessage] for a [db_message] frame that is not
    self-authored. *)
Definition db_message (data : value) : M unit :=
  let chat := get data "chat" in
  isGroup <- is_group chat ;;
  let user_id := or_ (get data "talker") chat in
  let group_id := if truthy isGroup then chat else VUndef in
  w <- get_state ;;
  let bot := registry w in
  update_directory data isGroup user_id group_id ;;
  let c := parseMsgContent (StringToNumber env)
             (get data "parsed") (get data "content") in
  w <- get_state ;;
  let e :=
    mkEnvelope self_id
      (match bot with Some _ => true | None => false end)
      "message"
      (if truthy isGroup then "group" else "private")
      user_id
      group_id
      (if truthy isGroup then get data "chat_display" else VUndef)
      (VObj [("user_id", user_id);
             ("nickname", or_ (get data "talker_display") (get data "talker"));
             ("card", get data "talker_display")])
      (segments c)
      (display c)
      (or_ (get data "create_time") (VNum (now w / 1000)))
      ("mimicwx_" ++ to_string (or_ (get data "local_id") (VNum (now w))))
      (if truthy isGroup then get data "chat_display"
       else or_ (get data "talker_display") (get data "talker")) in
  (if truthy isGroup then
     makeLog "info"
       (VStr ("群消息 [" ++ to_string (get data "chat_display") ++ "] " ++
              to_string (get data "talker_display") ++ ": " ++
              to_string (display c)))
       (self_id ++ " <= " ++ to_string group_id)
   else
     makeLog "info"
       (VStr ("私聊消息 " ++ to_string (get data "talker_display") ++ ": " ++
              to_string (display c)))
       (self_id ++ " <= " ++ to_string user_id)) ;;
  emit (Emit ("message." ++ e_message_type e) (Message e)).

(** The branch of [onMessage] for a [listen_message] frame. *)
Definition listen_message (data : value) : M unit :=
  w <- get_state ;;
  let sender := or_ (get data "sender") (get data "from") in
  let e :=
    mkEnvelope self_id
      (match registry w with Some _ => true | None => false end)
      "message"
      "private"
      sender
      VUndef
      VUndef
      (VObj [("user_id", sender); ("nickname", sender)])
      [text_seg (get data "content")]
      (get data "content")
      (VNum (now w / 1000))
      ("mimicwx_listen_" ++ dec (now w))
      (get data "from") in
  makeLog "info"
    (VStr ("监听消息 [" ++ to_string (get data "from") ++ "] " ++
           to_string (get data "sender") ++ ": " ++
           to_string (get data "content"))) self_id ;;
  emit (Emit "message.private" (Message e)).

(** [onMessage]; the three tests on [data.type] exclude one another. *)
Definition onMessage (data : value) : M unit :=
  w <- get_state ;;
  if negb (connected w) then ret tt
  else if nullish data then
    throw (TypeError "Cannot read properties of null (reading 'type')")
  else
    let type := get data "type" in
    if is_str type "db_message" then
      if truthy (get data "is_self") then ret tt
      else db_message data
    else if is_str type "listen_message" then
      listen_message data
    else if is_str type "sent" then
      makeLog "debug"
        (VStr ("消息发送确认: " ++ to_string (get data "to") ++
               " verified=" ++ to_string (get data "verified"))) self_id
    else ret tt.

(** The handlers [connectWs] registers on a socket. *)
Definition on_open : M unit :=
  makeLog "mark" (VStr ("WebSocket 已连接: " ++ MIMICWX_WS)) "MimicWX" ;;
  initBot.

Definition on_message (raw : string) : M unit :=
  try_catch
    (match JSON_parse env raw with
     | inl e => throw e
     | inr data => onMessage data
     end)
    (fun err =>
       makeLog "error"
         (VArr [VStr "消息解析失败"; VStr raw; VStr (err_message err)])
         "MimicWX").

Definition on_close : M unit :=
  makeLog "warn" (VStr "WebSocket 断开，5秒后重连...") "MimicWX" ;;
  set_connected false ;;
  setTimeout ConnectWs RECONNECT_INTERVAL.

Definition on_error (err : error) : M unit :=
  makeLog "error" (VStr ("WebSocket 错误: " ++ err_message err)) "MimicWX".

(** *** The event loop *)

(** What the outside does next.  A socket fires its events while it is
    open and [Close] once; a timer runs when it falls due. *)
Inductive input : Type :=
| Elapse (dt : Z)
| Timeout
| Open (socket : nat)
| Incoming (socket : nat) (raw : string)
| Close (socket : nat)
| Error (socket : nat) (err : error)
| Response (request : nat) (r : error + value).

(** A handler runs to its end; an exception that leaves it is dropped. *)
Definition run_handler (m : M unit) (w : state) : state :=
  match m w with
  | Ok _ w' => w'
  | Throw _ w' => w'
  | OutOfFuel => w
  end.

Definition run_callback (cb : callback) : M unit :=
  match cb with
  | ConnectWs => connectWs
  | InitBot => initBot
  end.

Fixpoint min_due (ts : list (Z * callback)) : option Z :=
  match ts with
  | [] => None
  | (d, _) :: ts' =>
      match min_due ts' with
      | Some d' => Some (Z.min d d')
      | None => Some d
      end
  end.

(** The first timer due at [d], and the others. *)
Fixpoint take_due (d : Z) (ts : list (Z * callback))
  : option (callback * list (Z * callback)) :=
  match ts with
  | [] => None
  | (d', cb) :: ts' =>
      if d' =? d then Some (cb, ts')
      else match take_due d ts' with
           | Some (cb', rest) => Some (cb', (d', cb) :: rest)
           | None => None
           end
  end.

Fixpoint remove_nth {A} (n : nat) (l : list A) : list A :=
  match n, l with
  | _, [] => []
  | O, _ :: l' => l'
  | S n', x :: l' => x :: remove_nth n' l'
  end.

Definition is_listening (s : nat) (w : state) : bool :=
  existsb (Nat.eqb s) (listening w).

Definition step (i : input) (w : state) : state :=
  match i with
  | Elapse dt =>
      if (0 <=? dt) &&
         match min_due (timers w) with
         | Some d => now w + dt <=? d
         | None => true
         end
      then mkState (connected w) (ws w) (listening w) (sockets w)
             (registry w) (uin w) (timers w) (pending w) (now w + dt)
             (trace w)
      else w
  | Timeout =>
      match min_due (timers w) with
      | Some d =>
          match take_due d (timers w) with
          | Some (cb, rest) =>
              run_handler (run_callback cb)
                (mkState (connected w) (ws w) (listening w) (sockets w)
                   (registry w) (uin w) rest (pending w) (Z.max (now w) d)
                   (trace w))
          | None => w
          end
      | None => w
      end
  | Open s =>
      if is_listening s w then run_handler on_open w else w
  | Incoming s raw =>
      if is_listening s w then run_handler (on_message raw) w else w
  | Close s =>
      if is_listening s w then
        run_handler on_close
          (mkState (connected w) (ws w)
             (filter (fun s' => negb (Nat.eqb s s')) (listening w))
             (sockets w) (registry w) (uin w) (timers w) (pending w) (now w)
             (trace w))
      else w
  | Error s err =>
      if is_listening s w then run_handler (on_error err) w else w
  | Response n r =>
      match nth_error (pending w) n with
      | Some k =>
          run_handler
            (match k with
             | StatusResponse => initBot_status r
             | ContactsResponse status => initBot_contacts status r
             end)
            (mkState (connected w) (ws w) (listening w) (sockets w)
               (registry w) (uin w) (timers w) (remove_nth n (pending w))
               (now w) (trace w))
      | None => w
      end
  end.

Fixpoint run (inputs : list input) (w : state) : state :=
  match inputs with
  | [] => w
  | i :: inputs' => run inputs' (step i w)
  end.

(** The adapter once [load()] has been called. *)
Definition loaded : state := run_handler load initial.

End WithEnvironment.

End Connection.

(** ** What the claims say, in their own words *)

Module Spec.

Import Composer.

Section WithEnvironment.

Variable env : environment.

Local Open Scope eff_scope.

(** A message as a sequence of segments: a sequence is itself, anything
    else is the one segment of a sequence. *)
Definition as_segments (msg : value) : list value :=
  match msg with VArr l => l | _ => [msg] end.

(** The child nodes of a forward-node segment. *)
Definition forwarded (seg : value) : list value :=
  if is_str (get seg "type") "node" then
    match get seg "data" with VArr nodes => nodes | _ => [] end
  else [].

(** The rendering of a mention: the display name of the directory entry
    when there is one, else the identifier itself. *)
Definition mention (reg : option bot) (seg : value) : value :=
  let uid := or_ (or_ (get seg "qq") (oget (get seg "data") "qq")) (VStr "") in
  let info := match reg with
              | Some b => map_get uid (fl b)
              | None => VUndef
              end in
  let name := or_ (or_ (oget info "nickname") (oget info "user_name")) uid in
  VStr ("@" ++ to_string name ++ four_per_em_space).

(** What a segment adds to the text: a text or a string its text, a
    mention its rendering, unsupported media and faces a placeholder,
    images, replies, buttons and forward nodes nothing, anything else what
    the host makes of it. *)
Definition text_parts (reg : option bot) (seg : value) : list value :=
  if is_string seg then [seg]
  else
    let type := get seg "type" in
    if is_str type "text" then
      [or_ (or_ (get seg "text") (oget (get seg "data") "text")) (VStr "")]
    else if is_str type "at" then [mention reg seg]
    else if is_str type "image" then []
    else if is_str type "record" || is_str type "video" then
      [VStr "[不支持的媒体]"]
    else if is_str type "face" then [VStr "[表情]"]
    else if is_str type "reply" || is_str type "button" then []
    else if is_str type "node" then []
    else [VStr (Bot_String env seg)].

(** The source of an image segment, when it has one. *)
Definition image_sources (seg : value) : list value :=
  if is_str (get seg "type") "image" then
    let data := get seg "data" in
    let file := or_ (or_ (or_ (get seg "file") (get seg "url"))
                         (oget data "file")) (oget data "url") in
    if truthy file then [file] else []
  else [].

(** The one text payload of a sequence of segments. *)
Definition text_payload (reg : option bot) (segs : list value) : string :=
  trim (join_values (flat_map (text_parts reg) segs)).

(** One text send with the trimmed payload if it is not empty, then the
    images one at a time. *)
Definition text_then_images (to : value) (segs : list value) : M value :=
  fun w =>
    (let text := text_payload (registry w) segs in
     (if negb (text =? "")%string then sendText env to (VStr text)
      else ret VUndef) ;;
     for_each (sendImage env to) (flat_map image_sources segs) ;;
     ret VUndef) w.

(** The log line a response calls for: none when [sent] is truthy, a
    warning when it is not, an error when the request or the reading of
    the response failed. *)
Definition response_log (what : string) (to : value) (r : error + value)
  : list event :=
  match r with
  | inl err =>
      [Log "error" (what ++ "发送错误: " ++ err_message err) (arrow_id to)]
  | inr result =>
      if nullish result then
        [Log "error"
           (what ++ "发送错误: " ++
            "Cannot read properties of undefined (reading 'sent')")
           (arrow_id to)]
      else if truthy (get result "sent") then []
      else
        [Log "warn"
           (what ++ "发送失败: " ++
            to_string (or_ (get result "message") (get result "error")))
           (arrow_id to)]
  end.

Definition is_post (e : event) : bool :=
  match e with HttpPost _ _ => true | _ => false end.

(** The requests to the backend among the events. *)
Definition posts (evs : list event) : list event := filter is_post evs.

(** The events of a run, whatever its end. *)
Definition events {A} (m : M A) (w : world) : option (list event) :=
  match m w with
  | Ok _ w' | Throw _ w' => Some (trace w')
  | OutOfFuel => None
  end.

(** The world once the events [pre] have been added. *)
Definition after (w : world) (pre : list event) : world :=
  mkWorld (registry w) (trace w ++ pre)%list.

(** [quiet m]: [m] ends, leaves the registry alone and sends nothing to the
    backend. *)
Definition quiet {A} (m : M A) : Prop :=
  forall w, exists pre,
    Forall (fun e => is_post e = false) pre /\
    ((exists a, m w = Ok a (after w pre)) \/
     (exists e, m w = Throw e (after w pre))).

(** The two endpoints. *)
Definition send_url : string := MIMICWX_URL env ++ "/send".
Definition send_image_url : string := MIMICWX_URL env ++ "/send_image".

(** What a send returns: the response, or [undefined] after an error. *)
Definition returned (r : error + value) : value :=
  match r with
  | inl _ => VUndef
  | inr result => if nullish result then VUndef else result
  end.

(** The log line that goes before the request of an image. *)
Definition image_log (base64Data fileName : string) (to : value) : event :=
  Log "info"
    ("发送图片: " ++ fileName ++ " (" ++
     dec (kilobytes (String.length base64Data)) ++ "KB)") (arrow_id to).

(** The three ways [sendImage] ends. *)
Inductive image_end (to : value) (w : world) : outcome world value -> Prop :=
| image_posted (pre : list event) (data name : string) :
    Forall (fun e => is_post e = false) pre ->
    let body := VObj [("to", to); ("file", VStr data); ("name", VStr name)] in
    let r := http_post env (trace w ++ pre ++ [image_log data name to])
               send_image_url body in
    image_end to w
      (Ok (returned r)
          (after w (pre ++ image_log data name to ::
                    HttpPost send_image_url body ::
                    response_log "图片" to r)))
| image_given_up (pre : list event) :
    Forall (fun e => is_post e = false) pre ->
    image_end to w (Ok VUndef (after w pre))
| image_failed (pre : list event) (err : error) :
    Forall (fun e => is_post e = false) pre ->
    image_end to w
      (Ok VUndef
          (after w (pre ++ [Log "error" ("图片发送错误: " ++ err_message err)
                              (arrow_id to)]))).

(** [steady m]: whatever [m] does, it only adds events. *)
Definition steady {A} (m : M A) : Prop :=
  forall w,
    match m w with
    | Ok _ w' | Throw _ w' => exists evs, w' = after w evs
    | OutOfFuel => True
    end.

(** A segment the loop can go through: it is there, and so are the child
    nodes of a forward node. *)
Definition well_formed (seg : value) : Prop :=
  nullish seg = false /\
  Forall (fun node => nullish node = false) (forwarded seg).

(** [halts m]: [m] comes to an end, by a result or by an exception. *)
Definition halts {A} (m : M A) : Prop :=
  forall w, m w <> OutOfFuel.

(** Segments as the host writes them. *)
Definition text_segment (text : string) : value :=
  VObj [("type", VStr "text"); ("text", VStr text)].

Definition image_segment (file : value) : value :=
  VObj [("type", VStr "image"); ("file", file)].

Definition node_segment (nodes : list value) : value :=
  VObj [("type", VStr "node"); ("data", VArr nodes)].

(** A child node wrapping the message [m]. *)
Definition child (m : value) : value := VObj [("message", m)].

(** A string that none of the prefixes of [sendImage] resolves, and that
    cannot be read as a path either. *)
Definition unreadable_path (f : string) (w : world) : Prop :=
  f <> "" /\
  prefix "base64://" f = false /\ prefix "http://" f = false /\
  prefix "https://" f = false /\ prefix "file://" f = false /\
  exists err, read_file env (trace w) f = inl err.

(** The events of an image given up: the read that failed and the
    warning. *)
Definition given_up (f : string) : list event :=
  [ReadFile f; Log "warn" ("无法读取图片: " ++ f) self_id].

End WithEnvironment.

(** *** The connection manager and the inbound path *)

Section Inbound.

Import Connection.

(** The host events among the events: the name and the payload of each
    [Bot.em]. *)
Fixpoint emitted (tr : list (Z * Connection.event)) : list (string * payload) :=
  match tr with
  | [] => []
  | (_, Emit name data) :: tr' => (name, data) :: emitted tr'
  | _ :: tr' => emitted tr'
  end.

(** The times at which a socket was constructed. *)
Fixpoint attempts (tr : list (Z * Connection.event)) : list Z :=
  match tr with
  | [] => []
  | (t, NewWebSocket _) :: tr' => t :: attempts tr'
  | _ :: tr' => attempts tr'
  end.

(** The reconnections waiting on their timer. *)
Definition reconnections (ts : list (Z * callback)) : nat :=
  List.length
    (filter (fun t => match snd t with ConnectWs => true | InitBot => false end)
       ts).

(** The state with another registry. *)
Definition with_registry (r : option bot) (w : state) : state :=
  mkState (connected w) (ws w) (listening w) (sockets w) r (uin w)
    (timers w) (pending w) (now w) (trace w).

(** An identifier as the backend sends it: a string, or none. *)
Definition identifier (v : value) : Prop :=
  truthy v = false \/ exists s, v = VStr s.

(** The group-chat marker. *)
Definition marker : string := "@chatroom".

(** Whether an identifier contains the marker; no identifier, no marker. *)
Definition contains_marker (id : value) : bool :=
  match id with
  | VStr s => includes s marker
  | _ => false
  end.

(** An entry of the contact list the loop can go through: it is there, and
    its identifier, when it has one, is a string. *)
Definition entry (c : value) : Prop :=
  nullish c = false /\
  (truthy (contact_id c) = false \/ exists id, contact_id c = VStr id).

(** [N] closes of the socket in place, the [k]-th after [dt_k] more
    milliseconds, each followed by the timer it has set; [first] is the
    socket in place at the start. *)
Fixpoint closes (first : nat) (dts : list Z) : list input :=
  match dts with
  | [] => []
  | dt :: dts' =>
      Elapse dt :: Close first :: Timeout :: closes (S first) dts'
  end.

(** The times of the attempts the closes call for, the first being at
    [t]. *)
Fixpoint spaced (t : Z) (dts : list Z) : list Z :=
  match dts with
  | [] => [t]
  | dt :: dts' => t :: spaced (t + dt + RECONNECT_INTERVAL) dts'
  end.

(** A response that does not report the authenticated state. *)
Definition not_authenticated (r : error + value) : Prop :=
  match r with
  | inl _ => True
  | inr status => is_str (get status "status") "已登录" = false
  end.

Definition never_authenticated (inputs : list input) : Prop :=
  Forall (fun i => match i with
                   | Response _ r => not_authenticated r
                   | _ => True
                   end) inputs.




(** One socket with its handlers on, or else one reconnection waiting. *)
Definition one_connection (w : state) : Prop :=
  (List.length (listening w) + reconnections (timers w) = 1)%nat.

(** A handler that neither opens nor closes a socket nor sets a
    reconnection. *)
Definition same_connection (w w1 : state) : Prop :=
  listening w1 = listening w /\
  reconnections (timers w1) = reconnections (timers w).

Definition calm {A} (m : Connection.M A) : Prop :=
  forall w,
    match m w with
    | Ok _ w1 | Throw _ w1 => same_connection w w1
    | OutOfFuel => True
    end.

End Inbound.

End Spec.

(** ** Concrete instances *)

Module Instances.

Import Composer Connection Spec.

(** A runtime that converts no string to a number. *)
Definition no_number (s : string) : option Z := None.


(** A backend that accepts every send, and a disk with no file on it. *)
Definition env0 : Composer.environment :=
  Composer.mkEnv "http://localhost:8899"
    (fun _ => "[object]")
    (fun _ => "QUJD")
    (fun path => path)
    (fun _ => "")
    (fun url => inr url)
    (fun _ _ _ => inr (VObj [("sent", VBool true)]))
    (fun _ _ => inr [])
    (fun _ _ => inl (IOError "ENOENT")).

(** Nothing registered, nothing done yet. *)
Definition w0 : Composer.world := Composer.mkWorld None [].

Definition bob : value := VStr "bob".

(** A backend whose socket can always be constructed. *)
Definition cenv0 : Connection.environment :=
  Connection.mkEnv "http://localhost:8899" ""
    (fun s => s) no_number
    (fun raw => inl (TypeError "Unexpected token"))
    (fun _ => None).

(** The same backend, every frame of which is the self-authored frame
    below. *)
Definition cenv1 : Connection.environment :=
  Connection.mkEnv "http://localhost:8899" ""
    (fun s => s) no_number
    (fun raw =>
       inr (VObj [("type", VStr "db_message"); ("is_self", VBool true);
                  ("chat", VStr "alice"); ("talker", VStr "alice");
                  ("content", VStr "hello")]))
    (fun _ => None).

(** Logged in, one socket open, an empty directory. *)
Definition ready : state :=
  mkState true (Some O) [O] 1 (Some (mkBot [] [] 0 (VStr "0.4.0")))
    [self_id] [] [] 0 [].

(** A self-authored frame. *)
Definition own_frame : value :=
  VObj [("type", VStr "db_message"); ("is_self", VBool true);
        ("chat", VStr "alice"); ("talker", VStr "alice");
        ("content", VStr "hello")].

(** A frame of a group chat and a frame of a one-to-one chat. *)
Definition group_frame : value :=
  VObj [("type", VStr "db_message"); ("chat", VStr "123@chatroom");
        ("talker", VStr "alice"); ("content", VStr "hello")].

Definition friend_frame : value :=
  VObj [("type", VStr "db_message"); ("chat", VStr "alice");
        ("talker", VStr "alice"); ("content", VStr "hello")].

(** A contact list: a friend, a group, and an entry with no identifier. *)
Definition contacts0 : list value :=
  [VObj [("username", VStr "alice"); ("display_name", VStr "Alice")];
   VObj [("username", VStr "123@chatroom")];
   VObj [("remark_name", VStr "nobody")]].

(** The socket open and the first status poll in flight. *)
Definition polling : state :=
  mkState false (Some O) [O] 1 None [] [] [StatusResponse] 0 [].


(** The socket closed, the reconnection waiting. *)
Definition closed : state :=
  mkState false (Some O) [] 1 None [] [(5000, ConnectWs)] [] 0 [].



End Instances.

(** ** The handles of the host: [pickFriend], [pickGroup], and the lists
       of the registered session *)

Module Handles.

Import Composer.

Local Open Scope eff_scope.

(** [getFriendArray], [getFriendList], [getGroupArray], [getGroupList] of
    the registered session: the values and the keys of its two maps. *)
Definition getFriendArray (b : bot) : list value := map snd (fl b).
Definition getFriendList (b : bot) : list value := map fst (fl b).
Definition getGroupArray (b : bot) : list value := map snd (gl b).
Definition getGroupList (b : bot) : list value := map fst (gl b).

(** [Bot[this.self_id]?.fl?.get(user_id) || { user_id, nickname: user_id }] *)
Definition friend_info (reg : option bot) (user_id : value) : value :=
  or_ (match reg with
       | Some b => map_get user_id (fl b)
       | None => VUndef
       end)
      (VObj [("user_id", user_id); ("nickname", user_id)]).

(** [Bot[this.self_id]?.gl?.get(group_id)
     || { group_id, group_name: group_id }] *)
Definition group_info (reg : option bot) (group_id : value) : value :=
  or_ (match reg with
       | Some b => map_get group_id (gl b)
       | None => VUndef
       end)
      (VObj [("group_id", group_id); ("group_name", group_id)]).

(** What a handle keeps of the call that made it: the identifier and the
    [info] found then. *)
Record handle : Type := mkHandle {
  handle_id : value;
  getInfo : value
}.

Definition pickFriend (user_id : value) : M handle :=
  fun w => Ok (mkHandle user_id (friend_info (registry w) user_id)) w.

Definition pickGroup (group_id : value) : M handle :=
  fun w => Ok (mkHandle group_id (group_info (registry w) group_id)) w.

(** [info.nickname || user_id] and [info.group_name || group_id] *)
Definition friend_to (h : handle) : value :=
  or_ (get (getInfo h) "nickname") (handle_id h).

Definition group_to (h : handle) : value :=
  or_ (get (getInfo h) "group_name") (handle_id h).

Section WithEnvironment.

Variable env : environment.

(** [sendMsg] and [sendFile] of the handle of a friend *)
Definition friend_sendMsg (h : handle) (msg : value) : M value :=
  let to := friend_to h in
  makeLog "info" "发送好友消息" (arrow_id to) ;;
  sendMsgSmart env to msg.

Definition friend_sendFile (h : handle) (file : value) : M value :=
  sendImage env (friend_to h) file.

(** [sendMsg] and [sendFile] of the handle of a group *)
Definition group_sendMsg (h : handle) (msg : value) : M value :=
  let to := group_to h in
  makeLog "info" "发送群消息" (arrow_id to) ;;
  sendMsgSmart env to msg.

Definition group_sendFile (h : handle) (file : value) : M value :=
  sendImage env (group_to h) file.

End WithEnvironment.

End Handles.

(** ** Further notions for the properties of the code the claims leave
       aside *)

Module Laws.

Import Composer Spec.

(** The source of an image segment: [seg.file || seg.url || ...]. *)
Definition image_file (seg : value) : value :=
  let data := get seg "data" in
  or_ (or_ (or_ (get seg "file") (get seg "url")) (oget data "file"))
      (oget data "url").

(** A segment that adds nothing to a message: a reply, a button, an image
    with no source, a forward node with no child. *)
Definition silent (seg : value) : bool :=
  let type := get seg "type" in
  is_str type "reply" || is_str type "button"
  || (is_str type "image" && negb (truthy (image_file seg)))
  || (is_str type "node" &&
      match get seg "data" with VArr (_ :: _) => false | _ => true end).

(** The error of reading [type] on [undefined] or [null]. *)
Definition no_type : error :=
  TypeError "Cannot read properties of undefined (reading 'type')".

(** The events of a request for an image and of its response. *)
Definition image_request (env : environment) (w : world)
    (pre : list event) (data name : string) (to : value) : list event :=
  let body := VObj [("to", to); ("file", VStr data); ("name", VStr name)] in
  let r := http_post env (trace w ++ pre ++ [image_log data name to])
             (send_image_url env) body in
  (pre ++ image_log data name to :: HttpPost (send_image_url env) body ::
   response_log "图片" to r)%list.

(** What the request for an image returns. *)
Definition image_result (env : environment) (w : world)
    (pre : list event) (data name : string) (to : value) : value :=
  let body := VObj [("to", to); ("file", VStr data); ("name", VStr name)] in
  returned (http_post env (trace w ++ pre ++ [image_log data name to])
              (send_image_url env) body).

(** The error line of [sendImage]. *)
Definition image_error (to : value) (err : error) : event :=
  Log "error" ("图片发送错误: " ++ err_message err) (arrow_id to).

(** The debug line of [sendImage] for a source that is neither a string nor
    a buffer. *)
Definition image_kind (file : value) : event :=
  Log "debug"
    ("图片类型: " ++ typeof file ++ " " ++ to_string (constructor_name file))
    self_id.

(** The line [sendImage] logs before it downloads. *)
Definition download_log (url : string) : event :=
  Log "info" ("下载图片: " ++ substring 0 80 url ++ "...") self_id.

(** The name of a downloaded image: [image] with the extension of the path
    of its URL, [image.png] when there is none. *)
Definition download_name (env : environment) (urlPath : string) : string :=
  if (extname env urlPath =? "")%string then "image.png"
  else "image" ++ extname env urlPath.

(** A source that is neither a string nor a buffer. *)
Definition other_source (file : value) : Prop :=
  match file with
  | VStr _ | VBuf _ => False
  | _ => True
  end.

End Laws.

(** ** Further notions for the session and its directory *)

Module Session.

Import Connection Spec Handles.

(** Every entry of a map carries its own key under [field]. *)
Definition keyed (field : string) (m : jsmap) : Prop :=
  Forall (fun kv => get (snd kv) field = fst kv) m.

(** Two maps in order: each friend is under its [user_id], each group
    under its [group_id], and no string is an identifier twice. *)
Definition in_order (fl gl : jsmap) : Prop :=
  keyed "user_id" fl /\ keyed "group_id" gl
  /\ NoDup (filter is_string (map_keys fl))
  /\ NoDup (filter is_string (map_keys gl)).

Definition directory (b : bot) : Prop := in_order (fl b) (gl b).

(** The session and [Bot.uin] go together: nothing registered and no
    identifier listed, or a directory in order and the identifier of the
    adapter listed once. *)
Definition session (w : state) : Prop :=
  match registry w with
  | None => uin w = []
  | Some b => directory b /\ uin w = [self_id]
  end.

(** A handler of frames changes the directory and adds events, and
    nothing else. *)
Definition only_directory (w w1 : state) : Prop :=
  connected w1 = connected w /\ ws w1 = ws w
  /\ listening w1 = listening w /\ sockets w1 = sockets w
  /\ uin w1 = uin w /\ timers w1 = timers w /\ pending w1 = pending w
  /\ now w1 = now w /\ exists evs, trace w1 = (trace w ++ evs)%list.

Definition inbound {A} (m : Connection.M A) : Prop :=
  forall w,
    match m w with
    | Ok _ w1 | Throw _ w1 => only_directory w w1
    | OutOfFuel => False
    end.

(** [keeps I m]: [m] leaves a state where [I] holds in a state where [I]
    holds. *)
Definition keeps {A} (I : state -> Prop) (m : Connection.M A) : Prop :=
  forall w, I w ->
    match m w with
    | Ok _ w1 | Throw _ w1 => I w1
    | OutOfFuel => True
    end.

(** The error line of the handler of frames. *)
Definition frame_error (raw : string) (err : error) : Connection.event :=
  Log "error" (VArr [VStr "消息解析失败"; VStr raw; VStr (err_message err)])
    "MimicWX".

(** The state with one more event, at the time it is. *)
Definition logged (e : Connection.event) (w : state) : state :=
  mkState (connected w) (ws w) (listening w) (sockets w) (registry w)
    (uin w) (timers w) (pending w) (now w) (trace w ++ [(now w, e)])%list.

(** The record [initBot] keeps of a contact. *)
Definition contact_info (c : value) : value :=
  VObj [("user_id", contact_id c);
        ("nickname", or_ (get c "display_name") (get c "username"));
        ("user_name", get c "username");
        ("remark", or_ (get c "remark_name") (VStr ""));
        ("bot_id", VStr self_id)].

(** The record [initBot] keeps of a group. *)
Definition contact_group (c : value) : value :=
  VObj [("group_id", contact_id c);
        ("group_name", or_ (get c "display_name") (get c "username"));
        ("bot_id", VStr self_id)].

(** The record [onMessage] keeps of the group of a frame, and of its
    talker. *)
Definition frame_group (data : value) : value :=
  VObj [("group_id", get data "chat");
        ("group_name", get data "chat_display");
        ("bot_id", VStr self_id)].

Definition frame_user (data : value) : value :=
  or_ (get data "talker") (get data "chat").

Definition frame_friend (data : value) : value :=
  VObj [("user_id", frame_user data);
        ("nickname", or_ (get data "talker_display") (frame_user data));
        ("user_name", frame_user data);
        ("bot_id", VStr self_id)].

(** A [db_message] frame that is not self-authored. *)
Definition foreign_frame (data : value) : Prop :=
  is_str (get data "type") "db_message" = true /\
  truthy (get data "is_self") = false.

(** The name a contact goes by: its display name, else its username, else
    its [wxid]. *)
Definition contact_name (c : value) : value :=
  or_ (or_ (get c "display_name") (get c "username")) (get c "wxid").

(** A mention of [id], as the host writes it. *)
Definition at_segment (id : string) : value :=
  VObj [("type", VStr "at"); ("qq", VStr id)].

(** The world of the composer that goes with a state of the connection:
    the registry is the same. *)
Definition host_view (w : state) (tr : list Composer.event) : Composer.world :=
  Composer.mkWorld (registry w) tr.

(** The directory once the frame [data] has gone through it. *)
Definition recorded (data : value) (b : bot) : bot :=
  mkBot
    (if truthy (frame_user data) && negb (contains_marker (frame_user data))
     then map_set (frame_user data) (frame_friend data) (fl b) else fl b)
    (if contains_marker (get data "chat") &&
        truthy (get data "chat_display")
     then map_set (get data "chat") (frame_group data) (gl b) else gl b)
    (start_time_ms b) (version b).

(** Since [w0] the adapter has been off line: not connected, every request
    in flight a status poll, and neither a host event nor a change to the
    session. *)
Definition offline (w0 w : state) : Prop :=
  connected w = false /\
  Forall (fun k => k = StatusResponse) (pending w) /\
  emitted (trace w) = emitted (trace w0) /\
  registry w = registry w0.

End Session.

(** ** Further concrete instances *)

Module Samples.

Import Connection Spec Instances.

(** The first contact of [contacts0], and the group after it. *)
Definition alice : value :=
  VObj [("username", VStr "alice"); ("display_name", VStr "Alice")].

Definition room : value := VObj [("username", VStr "123@chatroom")].

(** The directory [initBot] builds from [contacts0]. *)
Definition directory0 : bot :=
  mkBot [(VStr "alice", Session.contact_info alice)]
        [(VStr "123@chatroom", Session.contact_group room)]
        0 (VStr "0.4.0").

(** The world of the composer once that directory is registered. *)
Definition w1 : Composer.world := Composer.mkWorld (Some directory0) [].

(** The session [ready] has registered. *)
Definition empty_directory : bot := mkBot [] [] 0 (VStr "0.4.0").

(** A frame of a group chat with its display names, and a frame of a
    one-to-one chat with the display name of the talker. *)
Definition named_group_frame : value :=
  VObj [("type", VStr "db_message"); ("chat", VStr "123@chatroom");
        ("chat_display", VStr "Family"); ("talker", VStr "alice");
        ("talker_display", VStr "Alice"); ("content", VStr "hello")].

Definition named_friend_frame : value :=
  VObj [("type", VStr "db_message"); ("chat", VStr "alice");
        ("talker", VStr "alice"); ("talker_display", VStr "Alice");
        ("content", VStr "hello")].

(** A frame of a listened window, and a send confirmation. *)
Definition listen_frame : value :=
  VObj [("type", VStr "listen_message"); ("from", VStr "Family");
        ("sender", VStr "alice"); ("content", VStr "hello")].

Definition sent_frame : value :=
  VObj [("type", VStr "sent"); ("to", VStr "alice");
        ("verified", VBool true)].

(** The backend of [cenv0], every frame of which is [friend_frame]. *)
Definition cenv2 : Connection.environment :=
  Connection.mkEnv "http://localhost:8899" ""
    (fun s => s) no_number
    (fun raw => inr friend_frame)
    (fun _ => None).

(** The status that reports the authenticated state. *)
Definition logged_in : value := VObj [("status", VStr "已登录")].

(** What comes after a close: the reconnection, the new socket open, a
    frame on it, and a status that is not the authenticated one. *)
Definition after_close : list input :=
  [Timeout; Open 1; Incoming 1 "{}";
   Response O (inr (VObj [("status", VStr "waiting")]))].

End Samples.

(** * Properties *)

(** ** The normaliser *)

Section NormalizerFacts.

Import Normalizer.

Variable StringToNumber : string -> option Z.

Local Abbreviation parse := (parseMsgContent StringToNumber).

Lemma is_str_true (v : value) (lit : string) :
  is_str v lit = true -> v = VStr lit.
Proof.
  destruct v; simpl; try discriminate.
  intros H. apply String.eqb_eq in H. now subst.
Qed.

Lemma typed_is_truthy (parsed : value) (t : string) :
  t <> "" -> get parsed "type" = VStr t ->
  truthy parsed = true /\ truthy (get parsed "type") = true.
Proof.
  intros Ht H. split.
  - destruct parsed; simpl in *; try discriminate; reflexivity.
  - rewrite H. simpl. apply String.eqb_neq in Ht. now rewrite Ht.
Qed.



Lemma parse_untyped (parsed raw : value) :
  truthy parsed = false \/ truthy (get parsed "type") = false \/
  recognized (get parsed "type") = false ->
  parse parsed raw = single (or_ raw (VStr "")).
Proof.
  unfold parseMsgContent, recognized.
  intros [H | [H | H]].
  - now rewrite H.
  - rewrite H. now rewrite orb_true_r.
  - repeat (apply orb_false_elim in H; destruct H as [H ?]).
    destruct (negb (truthy parsed) || negb (truthy (get parsed "type")));
      [reflexivity |].
    repeat match goal with E : is_str _ _ = false |- _ => rewrite E; clear E end.
    reflexivity.
Qed.

Lemma or_string_verbatim (s : string) : or_ (VStr s) (VStr "") = VStr s.
Proof.
  unfold or_. simpl. destruct (String.eqb_spec s ""); simpl; congruence.
Qed.

(** C8: normalisation yields exactly one segment, a text segment whose
    text is the display; a payload that is absent, untyped or of a type the
    normaliser does not know yields the raw content as it is, or the empty
    string when there is no raw content. *)
Theorem parse_single_text_segment (parsed raw : value) :
  (exists d,
     segments (parse parsed raw) = [VObj [("type", VStr "text"); ("text", d)]]
     /\ display (parse parsed raw) = d)
  /\ (truthy parsed = false \/ truthy (get parsed "type") = false \/
      recognized (get parsed "type") = false ->
      (forall s, raw = VStr s -> parse parsed raw = single (VStr s))
      /\ (nullish raw = true -> parse parsed raw = single (VStr ""))).
Proof.
  split.
  - unfold parseMsgContent.
    repeat match goal with
           | |- context [if ?b then _ else _] => destruct b
           end; eexists; split; reflexivity.
  - intros H. rewrite (parse_untyped parsed raw H). split.
    + intros s ->. now rewrite or_string_verbatim.
    + intros Hn. destruct raw; simpl in Hn; try discriminate; reflexivity.
Qed.

Lemma parse_text_or_system (parsed raw : value) :
  get parsed "type" = VStr "Text" \/ get parsed "type" = VStr "System" ->
  parse parsed raw = single (or_ (oget (get parsed "data") "text") raw).
Proof.
  intros [H | H]; unfold parseMsgContent.
  - destruct (typed_is_truthy parsed "Text") as [H1 H2];
      [discriminate | assumption |].
    rewrite H1, H2, H. reflexivity.
  - destruct (typed_is_truthy parsed "System") as [H1 H2];
      [discriminate | assumption |].
    rewrite H1, H2, H. reflexivity.
Qed.

(** C10: a Text or System payload whose text is there but falsy (the empty
    string, say) is normalised from the raw content alone, exactly as the
    same payload with no data at all. *)
Theorem falsy_text_falls_back (parsed raw : value) :
  get parsed "type" = VStr "Text" \/ get parsed "type" = VStr "System" ->
  truthy (oget (get parsed "data") "text") = false ->
  parse parsed raw = single raw
  /\ parse parsed raw = parse (VObj [("type", get parsed "type")]) raw.
Proof.
  intros Ht Hf.
  assert (E : parse parsed raw = single raw).
  { rewrite (parse_text_or_system parsed raw Ht). unfold or_.
    now rewrite Hf. }
  split; [exact E |]. rewrite E. symmetry.
  rewrite parse_text_or_system.
  - reflexivity.
  - simpl. destruct Ht as [-> | ->]; [left | right]; reflexivity.
Qed.

End NormalizerFacts.

(** ** The composer *)

Section DepthFacts.

Lemma depth_assoc (k : string) (fs : list (string * value)) :
  (depth (assoc k fs) <= list_max (map (fun kv => depth (snd kv)) fs))%nat.
Proof.
  induction fs as [| [k' v] fs IH]; simpl; [lia |].
  destruct (k =? k')%string; lia.
Qed.

Lemma depth_get (v : value) (k : string) :
  (depth (get v k) <= depth v)%nat.
Proof.
  destruct v; simpl; try lia.
  pose proof (depth_assoc k fields). lia.
Qed.

Lemma depth_get_array (v : value) (k : string) (l : list value) :
  get v k = VArr l -> (depth (VArr l) < depth v)%nat.
Proof.
  destruct v; simpl; try discriminate.
  intros H. pose proof (depth_assoc k fields) as L.
  rewrite H in L. simpl in L. lia.
Qed.

Lemma depth_elem (x : value) (l : list value) :
  In x l -> (depth x < depth (VArr l))%nat.
Proof.
  simpl. induction l as [| y l IH]; simpl; [contradiction |].
  intros [-> | H]; [lia |]. specialize (IH H). lia.
Qed.

Lemma depth_or (a b : value) (n : nat) :
  (depth a <= n)%nat -> (depth b <= n)%nat -> (depth (or_ a b) <= n)%nat.
Proof. unfold or_. now destruct (truthy a). Qed.

Lemma depth_inner_message (node : value) :
  (depth (Composer.inner_message node) <= depth node)%nat.
Proof.
  unfold Composer.inner_message.
  repeat apply depth_or; auto using depth_get.
Qed.

End DepthFacts.

Section MonadFacts.

Context {W : Type}.

Lemma bind_ext {A B} (m m' : M W A) (k k' : A -> M W B) (w : W) :
  m w = m' w -> (forall a w', k a w' = k' a w') ->
  bind m k w = bind m' k' w.
Proof.
  intros Hm Hk. unfold bind. rewrite Hm.
  destruct (m' w); auto.
Qed.

Lemma bind_assoc {A B C} (m : M W A) (k : A -> M W B) (h : B -> M W C)
    (w : W) :
  bind (bind m k) h w = bind m (fun a => bind (k a) h) w.
Proof. unfold bind. destruct (m w); reflexivity. Qed.

Lemma for_each_ext {A B} (f g : A -> M W B) (l : list A) :
  (forall x w, In x l -> f x w = g x w) ->
  forall w, for_each f l w = for_each g l w.
Proof.
  induction l as [| x l IH]; intros H w; simpl; [reflexivity |].
  apply bind_ext.
  - apply H. now left.
  - intros _ w'. apply IH. intros y w'' Hy. apply H. now right.
Qed.

Lemma for_each_app {A B} (f : A -> M W B) (l1 l2 : list A) (w : W) :
  for_each f (l1 ++ l2) w
  = bind (for_each f l1) (fun _ => for_each f l2) w.
Proof.
  revert w. induction l1 as [| x l1 IH]; intros w; simpl.
  - reflexivity.
  - rewrite bind_assoc. apply bind_ext; [reflexivity |].
    intros _ w'. apply IH.
Qed.

Lemma bind_congr_l {A B} (m m' : M W A) (k : A -> M W B) (w : W) :
  m w = m' w -> bind m k w = bind m' k w.
Proof. intros E. unfold bind. now rewrite E. Qed.

Lemma bind_ext_on {A B} (m : M W A) (k k' : A -> M W B) (w : W) :
  (forall a w', m w = Ok a w' -> k a w' = k' a w') ->
  bind m k w = bind m k' w.
Proof.
  intros H. unfold bind. destruct (m w) eqn:E; auto.
Qed.

Lemma for_each_map {A B C} (f : B -> M W C) (g : A -> B) (l : list A)
    (w : W) :
  for_each f (map g l) w = for_each (fun x => f (g x)) l w.
Proof.
  revert w. induction l as [| x l IH]; intros w; simpl; [reflexivity |].
  apply bind_ext; [reflexivity |]. intros _ w'. apply IH.
Qed.

Lemma try_bind_ok {A B} (m : M W A) (k : A -> M W B) (h : error -> M W B)
    (w w1 : W) (a : A) :
  m w = Ok a w1 -> try_catch (bind m k) h w = try_catch (k a) h w1.
Proof. intros E. unfold try_catch, bind. now rewrite E. Qed.

Lemma try_bind_throw {A B} (m : M W A) (k : A -> M W B) (h : error -> M W B)
    (w w1 : W) (e : error) :
  m w = Throw e w1 -> try_catch (bind m k) h w = h e w1.
Proof. intros E. unfold try_catch, bind. now rewrite E. Qed.

End MonadFacts.

Section ComposerFacts.

Import Composer Spec.

Variable env : environment.

Local Open Scope eff_scope.

Local Abbreviation send_url := (Spec.send_url env).
Local Abbreviation send_image_url := (Spec.send_image_url env).
Local Abbreviation image_end := (Spec.image_end env).

Local Abbreviation self_fuel := (sendMsgSmart_fuel env).

(** The recursive calls of one turn go to messages less deep than the
    segment. *)
Lemma segment_step_ext (self1 self2 : value -> value -> M value)
    (to seg : value) (tp it : list value) :
  (forall c w, (depth c < depth seg)%nat -> self1 to c w = self2 to c w) ->
  forall w, segment_step env self1 to seg tp it w
            = segment_step env self2 to seg tp it w.
Proof.
  intros H w. unfold segment_step.
  repeat match goal with
         | |- (if ?b then _ else _) _ = (if ?b then _ else _) _ =>
             destruct b; [reflexivity |]
         end.
  destruct (is_str (get seg "type") "node"); [| reflexivity].
  destruct (get seg "data") as [| | | | | | nodes |] eqn:E; try reflexivity.
  apply bind_ext; [| reflexivity].
  apply for_each_ext. intros node w' Hin.
  destruct (nullish node); [reflexivity |].
  apply H.
  pose proof (depth_inner_message node).
  pose proof (depth_elem node nodes Hin).
  pose proof (depth_get_array seg "data" nodes E). lia.
Qed.

Lemma segments_loop_ext (self1 self2 : value -> value -> M value)
    (to : value) (msg : list value) (n : nat) :
  Forall (fun seg => (depth seg <= n)%nat) msg ->
  (forall c w, (depth c < n)%nat -> self1 to c w = self2 to c w) ->
  forall tp it w, segments_loop env self1 to msg tp it w
                  = segments_loop env self2 to msg tp it w.
Proof.
  intros Hall H. induction Hall as [| seg msg Hseg _ IH]; intros tp it w.
  - reflexivity.
  - simpl. apply bind_ext.
    + apply segment_step_ext. intros c w' Hc. apply H. lia.
    + intros st w'. apply IH.
Qed.

Lemma depth_segments (msg : value) :
  Forall (fun seg => (depth seg <= depth msg)%nat)
    (match msg with VArr l => l | _ => [msg] end).
Proof.
  destruct msg; try (constructor; [lia | constructor]).
  apply Forall_forall. intros x Hx.
  pose proof (depth_elem x elems Hx). lia.
Qed.

Lemma sendMsgSmart_body_ext (self1 self2 : value -> value -> M value)
    (to msg : value) :
  (forall c w, (depth c < depth msg)%nat -> self1 to c w = self2 to c w) ->
  forall w, sendMsgSmart_body env self1 to msg w
            = sendMsgSmart_body env self2 to msg w.
Proof.
  intros H w. unfold sendMsgSmart_body.
  pose proof (depth_segments msg) as D.
  destruct msg; try reflexivity;
    (apply bind_ext; [| reflexivity]);
    apply (segments_loop_ext _ _ _ _ _ D H).
Qed.

(** Fuel beyond the depth of the message changes nothing. *)
Lemma sendMsgSmart_fuel_enough (f1 f2 : nat) (to msg : value) (w : world) :
  (depth msg < f1)%nat -> (depth msg < f2)%nat ->
  self_fuel f1 to msg w = self_fuel f2 to msg w.
Proof.
  revert f2 msg w. induction f1 as [| f1 IH]; intros f2 msg w H1 H2; [lia |].
  destruct f2 as [| f2]; [lia |]. simpl.
  apply sendMsgSmart_body_ext. intros c w' Hc. apply IH; lia.
Qed.

(** [sendMsgSmart] satisfies the recursive equation of the method. *)
Lemma sendMsgSmart_unfold (to msg : value) (w : world) :
  sendMsgSmart env to msg w
  = sendMsgSmart_body env (sendMsgSmart env) to msg w.
Proof.
  unfold sendMsgSmart at 1. simpl.
  apply sendMsgSmart_body_ext. intros c w' Hc.
  unfold sendMsgSmart. apply sendMsgSmart_fuel_enough; lia.
Qed.

(** *** What a computation leaves behind *)

Lemma after_nil (w : world) : after w [] = w.
Proof. destruct w. unfold after. simpl. now rewrite app_nil_r. Qed.

Lemma after_after (w : world) (l1 l2 : list event) :
  after (after w l1) l2 = after w (l1 ++ l2).
Proof. unfold after. simpl. now rewrite app_assoc. Qed.

Lemma quiet_ret {A} (a : A) : quiet (ret a).
Proof.
  intros w. exists []. split; [constructor |]. left. exists a.
  now rewrite after_nil.
Qed.

Lemma quiet_throw {A} (e : error) : quiet (@throw world A e).
Proof.
  intros w. exists []. split; [constructor |]. right. exists e.
  now rewrite after_nil.
Qed.

Lemma quiet_bind {A B} (m : M A) (k : A -> M B) :
  quiet m -> (forall a, quiet (k a)) -> quiet (bind m k).
Proof.
  intros Hm Hk w. destruct (Hm w) as (pre & Hpre & [[a E] | [e E]]).
  - destruct (Hk a (after w pre)) as (pre' & Hpre' & H).
    exists (pre ++ pre')%list. split; [now apply Forall_app |].
    unfold bind. rewrite E, <- after_after. exact H.
  - exists pre. split; [assumption |]. right. exists e.
    unfold bind. now rewrite E.
Qed.

Lemma quiet_try_catch {A} (m : M A) (h : error -> M A) :
  quiet m -> (forall e, quiet (h e)) -> quiet (try_catch m h).
Proof.
  intros Hm Hh w. destruct (Hm w) as (pre & Hpre & [[a E] | [e E]]).
  - exists pre. split; [assumption |]. left. exists a.
    unfold try_catch. now rewrite E.
  - destruct (Hh e (after w pre)) as (pre' & Hpre' & H).
    exists (pre ++ pre')%list. split; [now apply Forall_app |].
    unfold try_catch. rewrite E, <- after_after. exact H.
Qed.

Lemma quiet_makeLog (level message id : string) :
  quiet (makeLog level message id).
Proof.
  intros w. exists [Log level message id].
  split; [repeat constructor |]. left. now exists tt.
Qed.

Lemma quiet_download (url : string) : quiet (download env url).
Proof.
  intros w. exists [HttpGet url]. split; [repeat constructor |].
  unfold download. destruct (http_get env (trace w) url) as [e | b].
  - right. now exists e.
  - left. now exists b.
Qed.

Lemma quiet_readFile (path : string) : quiet (readFile env path).
Proof.
  intros w. exists [ReadFile path]. split; [repeat constructor |].
  unfold readFile. destruct (read_file env (trace w) path) as [e | b].
  - right. now exists e.
  - left. now exists b.
Qed.

Ltac quiet_step :=
  first [ apply quiet_ret | apply quiet_throw | apply quiet_makeLog
        | apply quiet_download | apply quiet_readFile
        | apply quiet_bind; [| intros ?] | apply quiet_try_catch; [| intros ?] ].

Lemma quiet_resolve_string (file : string) : quiet (resolve_string env file).
Proof.
  unfold resolve_string.
  destruct (prefix "base64://" file); [quiet_step |].
  destruct (prefix "http://" file || prefix "https://" file).
  { repeat quiet_step. destruct (url_pathname env file); quiet_step. }
  destruct (prefix "file://" file); repeat quiet_step.
Qed.

Lemma quiet_image_data (file : value) : quiet (image_data env file).
Proof.
  unfold image_data.
  destruct file; repeat quiet_step;
    match goal with
    | |- quiet (match ?x with _ => _ end) => destruct x; quiet_step
    end.
Qed.

Lemma quiet_resolve_image (file : value) : quiet (resolve_image env file).
Proof.
  unfold resolve_image. apply quiet_bind; [apply quiet_image_data |].
  intros [base64Data file'].
  destruct file'; try quiet_step.
  destruct (no_data base64Data); [apply quiet_resolve_string | quiet_step].
Qed.

(** *** The send primitives *)

Lemma sendText_outcome (to text : value) (w : world) :
  let body := VObj [("to", to); ("text", text)] in
  let r := http_post env (trace w) send_url body in
  sendText env to text w
  = Ok (returned r)
       (after w (HttpPost send_url body :: response_log "文本" to r)).
Proof.
  intros body r. unfold sendText, try_catch, bind, post_json.
  fold send_url. fold body. fold r.
  destruct r as [err | result]; simpl.
  - unfold after. simpl. now rewrite <- app_assoc.
  - unfold read_sent. destruct (nullish result); simpl.
    + unfold after. simpl. now rewrite <- app_assoc.
    + destruct (truthy (get result "sent")); simpl; unfold after; simpl;
        [reflexivity | now rewrite <- app_assoc].
Qed.

Lemma post_image_outcome (to : value) (data name : string) (w : world) :
  let body := VObj [("to", to); ("file", VStr data); ("name", VStr name)] in
  let r := http_post env (trace w ++ [image_log data name to])
             send_image_url body in
  try_catch (post_image env to data name)
    (fun err =>
       makeLog "error" ("图片发送错误: " ++ err_message err) (arrow_id to) ;;
       ret VUndef) w
  = Ok (returned r)
       (after w (image_log data name to :: HttpPost send_image_url body ::
                 response_log "图片" to r)).
Proof.
  intros body r. subst r.
  unfold post_image, try_catch, bind, post_json, makeLog, emit, image_log,
    read_sent, after.
  cbn [registry trace]. fold send_image_url. fold body.
  destruct (http_post env _ send_image_url body) as [err | result];
    cbn [returned response_log registry trace].
  - now rewrite <- !app_assoc.
  - destruct (nullish result); unfold throw, ret; cbn [registry trace].
    + now rewrite <- !app_assoc.
    + destruct (truthy (get result "sent")); cbn [negb registry trace];
        now rewrite <- !app_assoc.
Qed.

Lemma log_then_ret {A} (level message id : string) (a : A) (w : world) :
  (makeLog level message id ;; ret a) w
  = Ok a (after w [Log level message id]).
Proof. reflexivity. Qed.

Lemma sendImage_outcome (to file : value) (w : world) :
  image_end to w (sendImage env to file w).
Proof.
  destruct (quiet_resolve_image file w) as (pre & Hpre & [[res E] | [e E]]);
    unfold sendImage.
  - rewrite (try_bind_ok _ _ _ _ _ _ E).
    destruct res as [[[data |] name] |].
    + rewrite post_image_outcome, after_after. cbn [after trace].
      rewrite <- app_assoc.
      apply (image_posted env to w pre data name Hpre).
    + unfold try_catch, throw. rewrite log_then_ret, after_after.
      now apply image_failed.
    + now apply image_given_up.
  - rewrite (try_bind_throw _ _ _ _ _ _ E).
    rewrite log_then_ret, after_after.
    now apply image_failed.
Qed.

(** *** The registry and the fuel through a composition *)

Lemma steady_ret {A} (a : A) : steady (ret a).
Proof. intros w. exists []. simpl. now rewrite after_nil. Qed.

Lemma steady_throw {A} (e : error) : steady (@throw world A e).
Proof. intros w. exists []. simpl. now rewrite after_nil. Qed.

Lemma steady_bind {A B} (m : M A) (k : A -> M B) :
  steady m -> (forall a, steady (k a)) -> steady (bind m k).
Proof.
  intros Hm Hk w. specialize (Hm w). unfold bind.
  destruct (m w) as [a w1 | e w1 |]; [| exact Hm | exact I].
  destruct Hm as [evs ->]. specialize (Hk a (after w evs)).
  destruct (k a (after w evs)) as [b w2 | e w2 |]; [| | exact I];
    destruct Hk as [evs' ->]; exists (evs ++ evs')%list;
    apply after_after.
Qed.

Lemma steady_for_each {A B} (f : A -> M B) (l : list A) :
  (forall x, steady (f x)) -> steady (for_each f l).
Proof.
  intros H. induction l as [| x l IH]; simpl.
  - apply steady_ret.
  - apply steady_bind; [apply H | intros _; exact IH].
Qed.

Lemma steady_sendText (to text : value) : steady (sendText env to text).
Proof. intros w. rewrite sendText_outcome. eexists. reflexivity. Qed.

Lemma sendImage_returns (to file : value) (w : world) :
  exists v evs, sendImage env to file w = Ok v (after w evs).
Proof.
  destruct (sendImage_outcome to file w); eexists; eexists; reflexivity.
Qed.

Lemma steady_sendImage (to file : value) : steady (sendImage env to file).
Proof.
  intros w. destruct (sendImage_returns to file w) as (v & evs & ->).
  now exists evs.
Qed.

Lemma steady_lookup_friend (uid : value) : steady (lookup_friend uid).
Proof. intros w. exists []. simpl. now rewrite after_nil. Qed.

Lemma steady_segment_step (self : value -> value -> M value)
    (to seg : value) (tp it : list value) :
  (forall c, steady (self to c)) ->
  steady (segment_step env self to seg tp it).
Proof.
  intros H. unfold segment_step.
  repeat match goal with
         | |- steady (if ?b then _ else _) => destruct b
         | |- steady (match ?x with _ => _ end) => destruct x
         | |- steady (ret _) => apply steady_ret
         | |- steady (throw _) => apply steady_throw
         | |- steady (lookup_friend _) => apply steady_lookup_friend
         | |- steady (for_each _ _) => apply steady_for_each; intros ?
         | |- steady (bind _ _) => apply steady_bind; [| intros ?]
         | |- steady (self _ _) => apply H
         end.
Qed.

Lemma steady_segments_loop (self : value -> value -> M value)
    (to : value) (msg : list value) :
  (forall c, steady (self to c)) ->
  forall tp it, steady (segments_loop env self to msg tp it).
Proof.
  intros H. induction msg as [| seg msg IH]; intros tp it; simpl.
  - apply steady_ret.
  - apply steady_bind; [now apply steady_segment_step |].
    intros st. apply IH.
Qed.

Lemma steady_body (self : value -> value -> M value) (to msg : value) :
  (forall c, steady (self to c)) ->
  steady (sendMsgSmart_body env self to msg).
Proof.
  intros H. unfold sendMsgSmart_body.
  assert (R : forall l, steady
    (st <- segments_loop env self to l [] [] ;;
     finish env to (fst st) (snd st))).
  { intros l. apply steady_bind; [now apply steady_segments_loop |].
    intros [tp it]. unfold finish. apply steady_bind.
    - destruct (negb _); [apply steady_sendText | apply steady_ret].
    - intros _. apply steady_bind; [| intros _; apply steady_ret].
      apply steady_for_each. intros f. apply steady_sendImage. }
  destruct msg; try apply R. apply steady_sendText.
Qed.

Lemma steady_fuel (fuel : nat) (to msg : value) :
  steady (self_fuel fuel to msg).
Proof.
  revert msg. induction fuel as [| fuel IH]; intros msg.
  - intros w. exact I.
  - simpl. apply steady_body. exact IH.
Qed.

Lemma steady_sendMsgSmart (to msg : value) :
  steady (sendMsgSmart env to msg).
Proof. apply steady_fuel. Qed.

Lemma body_of_segments (self : value -> value -> M value) (to msg : value) :
  is_string msg = false ->
  sendMsgSmart_body env self to msg
  = bind (segments_loop env self to (as_segments msg) [] [])
         (fun st => finish env to (fst st) (snd st)).
Proof. destruct msg; try discriminate; reflexivity. Qed.

(** *** Enough fuel *)

Lemma halts_ret {A} (a : A) : halts (ret a).
Proof. intros w. discriminate. Qed.

Lemma halts_throw {A} (e : error) : halts (@throw world A e).
Proof. intros w. discriminate. Qed.

Lemma halts_bind {A B} (m : M A) (k : A -> M B) :
  halts m -> (forall a, halts (k a)) -> halts (bind m k).
Proof.
  intros Hm Hk w. unfold bind. specialize (Hm w).
  destruct (m w) as [a w1 | e w1 |]; [apply Hk | discriminate | congruence].
Qed.

Lemma halts_for_each {A B} (f : A -> M B) (l : list A) :
  (forall x, In x l -> halts (f x)) -> halts (for_each f l).
Proof.
  induction l as [| x l IH]; intros H; simpl.
  - apply halts_ret.
  - apply halts_bind; [apply H; now left |].
    intros _. apply IH. intros y Hy. apply H. now right.
Qed.

Lemma halts_sendText (to text : value) : halts (sendText env to text).
Proof. intros w. rewrite sendText_outcome. discriminate. Qed.

Lemma halts_sendImage (to file : value) : halts (sendImage env to file).
Proof.
  intros w. destruct (sendImage_returns to file w) as (v & evs & ->).
  discriminate.
Qed.

Lemma halts_segment_step (self : value -> value -> M value)
    (to seg : value) (tp it : list value) :
  (forall c, (depth c < depth seg)%nat -> halts (self to c)) ->
  halts (segment_step env self to seg tp it).
Proof.
  intros H. unfold segment_step.
  repeat match goal with
         | |- halts (if ?b then _ else _) => destruct b
         | |- halts (ret _) => apply halts_ret
         | |- halts (throw _) => apply halts_throw
         | |- halts (bind (lookup_friend _) _) =>
             apply halts_bind; [intros w; discriminate | intros ?]
         end.
  destruct (get seg "data") as [| | | | | | nodes |] eqn:E;
    try apply halts_ret.
  apply halts_bind; [| intros _; apply halts_ret].
  apply halts_for_each. intros node Hin.
  destruct (nullish node); [apply halts_throw |]. apply H.
  pose proof (depth_inner_message node).
  pose proof (depth_elem node nodes Hin).
  pose proof (depth_get_array seg "data" nodes E). lia.
Qed.

Lemma halts_segments_loop (self : value -> value -> M value)
    (to : value) (msg : list value) (n : nat) :
  Forall (fun seg => (depth seg <= n)%nat) msg ->
  (forall c, (depth c < n)%nat -> halts (self to c)) ->
  forall tp it, halts (segments_loop env self to msg tp it).
Proof.
  intros Hall H. induction Hall as [| seg msg Hseg _ IH]; intros tp it; simpl.
  - apply halts_ret.
  - apply halts_bind; [| intros st; apply IH].
    apply halts_segment_step. intros c Hc. apply H. lia.
Qed.

Lemma halts_body (self : value -> value -> M value) (to msg : value) :
  (forall c, (depth c < depth msg)%nat -> halts (self to c)) ->
  halts (sendMsgSmart_body env self to msg).
Proof.
  intros H.
  destruct (is_string msg) eqn:Es.
  - destruct msg; try discriminate. apply halts_sendText.
  - intros w. rewrite (body_of_segments self to msg Es). revert w.
    apply halts_bind.
    + apply (halts_segments_loop self to _ (depth msg));
        [apply depth_segments | exact H].
    + intros [tp it]. unfold finish. apply halts_bind.
      * destruct (negb _); [apply halts_sendText | apply halts_ret].
      * intros _. apply halts_bind; [| intros _; apply halts_ret].
        apply halts_for_each. intros f _. apply halts_sendImage.
Qed.

Lemma halts_fuel (fuel : nat) (to msg : value) :
  (depth msg < fuel)%nat -> halts (self_fuel fuel to msg).
Proof.
  revert msg. induction fuel as [| fuel IH]; intros msg H; [lia |].
  simpl. apply halts_body. intros c Hc. apply IH. lia.
Qed.

(** The fuel [sendMsgSmart] is given is enough for every message. *)
Lemma sendMsgSmart_halts (to msg : value) : halts (sendMsgSmart env to msg).
Proof. apply halts_fuel. lia. Qed.

(** *** The loop over the segments, taken apart *)

Lemma segment_step_decompose (self : value -> value -> M value)
    (to seg : value) (tp it : list value) (w : world) :
  well_formed seg ->
  segment_step env self to seg tp it w
  = bind (for_each (fun node => self to (inner_message node))
            (forwarded seg))
      (fun _ => ret ((tp ++ text_parts env (registry w) seg)%list,
                     (it ++ image_sources seg)%list)) w.
Proof.
  intros [Hn Hnodes].
  unfold segment_step, forwarded, text_parts, image_sources,
    mention, push in *.
  destruct (is_string seg) eqn:Es.
  { destruct seg; try discriminate. simpl. now rewrite app_nil_r. }
  rewrite Hn.
  destruct (is_str (get seg "type") "text") eqn:E1.
  { apply is_str_true in E1. rewrite E1. simpl. now rewrite app_nil_r. }
  destruct (is_str (get seg "type") "at") eqn:E2.
  { apply is_str_true in E2. rewrite E2. simpl. unfold bind, lookup_friend.
    simpl. now rewrite app_nil_r. }
  destruct (is_str (get seg "type") "image") eqn:E3.
  { apply is_str_true in E3. rewrite E3. simpl.
    destruct (truthy _); simpl; now rewrite ?app_nil_r. }
  destruct (is_str (get seg "type") "record" ||
            is_str (get seg "type") "video") eqn:E4.
  { assert (N : is_str (get seg "type") "node" = false).
    { apply orb_true_iff in E4. destruct E4 as [E | E];
        apply is_str_true in E; now rewrite E. }
    rewrite N. simpl. now rewrite app_nil_r. }
  destruct (is_str (get seg "type") "face") eqn:E5.
  { apply is_str_true in E5. rewrite E5. simpl. now rewrite app_nil_r. }
  destruct (is_str (get seg "type") "reply" ||
            is_str (get seg "type") "button") eqn:E6.
  { assert (N : is_str (get seg "type") "node" = false).
    { apply orb_true_iff in E6. destruct E6 as [E | E];
        apply is_str_true in E; now rewrite E. }
    rewrite N. simpl. now rewrite !app_nil_r. }
  destruct (is_str (get seg "type") "node") eqn:E7.
  - destruct (get seg "data") as [| | | | | | nodes |];
      try (simpl; now rewrite !app_nil_r).
    rewrite !app_nil_r. apply bind_ext; [| reflexivity].
    apply for_each_ext. intros node w' Hin.
    rewrite Forall_forall in Hnodes. now rewrite (Hnodes node Hin).
  - simpl. now rewrite app_nil_r.
Qed.

Lemma segments_loop_decompose (self : value -> value -> M value)
    (to : value) (segs : list value) :
  (forall c, steady (self to c)) ->
  Forall well_formed segs ->
  forall tp it w,
    segments_loop env self to segs tp it w
    = bind (for_each (fun node => self to (inner_message node))
              (flat_map forwarded segs))
        (fun _ =>
           ret ((tp ++ flat_map (text_parts env (registry w)) segs)%list,
                (it ++ flat_map image_sources segs)%list)) w.
Proof.
  intros Hself Hwf.
  induction Hwf as [| seg segs Hseg _ IH]; intros tp it w.
  - simpl. now rewrite !app_nil_r.
  - cbn [segments_loop flat_map].
    rewrite (bind_congr_l _ _ _ w (segment_step_decompose self to seg tp it w Hseg)).
    rewrite (bind_congr_l _ _ _ w (for_each_app _ _ _ w)).
    rewrite !bind_assoc. apply bind_ext_on. intros [] w1 E.
    assert (R : registry w1 = registry w).
    { pose proof (steady_for_each
                    (fun node => self to (inner_message node))
                    (forwarded seg)
                    (fun x => Hself (inner_message x)) w) as S.
      rewrite E in S. destruct S as [evs ->]. reflexivity. }
    unfold bind at 1, ret at 1. cbn [fst snd].
    rewrite IH, R, <- !app_assoc. reflexivity.
Qed.

(** A message that is not a plain string: first the messages of the
    forwarded nodes, in order, then the text and the images of the
    message itself. *)
Lemma sendMsgSmart_decompose (to msg : value) (w : world) :
  is_string msg = false ->
  Forall well_formed (as_segments msg) ->
  sendMsgSmart env to msg w
  = bind (for_each (sendMsgSmart env to)
            (map inner_message
               (flat_map forwarded (as_segments msg))))
      (fun _ => text_then_images env to (as_segments msg)) w.
Proof.
  intros Hs Hwf.
  rewrite sendMsgSmart_unfold, (body_of_segments _ _ _ Hs).
  rewrite (bind_congr_l _ _ _ w
             (segments_loop_decompose (sendMsgSmart env) to _
                (steady_sendMsgSmart to) Hwf [] [] w)).
  rewrite (bind_congr_l _ _ _ w (for_each_map _ _ _ w)).
  rewrite bind_assoc. apply bind_ext_on. intros [] w1 E.
  assert (R : registry w1 = registry w).
  { pose proof (steady_for_each
                  (fun node => sendMsgSmart env to (inner_message node))
                  (flat_map forwarded (as_segments msg))
                  (fun x => steady_sendMsgSmart to (inner_message x)) w) as S.
    rewrite E in S. destruct S as [evs ->]. reflexivity. }
  unfold bind at 1, ret at 1.
  unfold finish, text_then_images, text_payload.
  rewrite R. reflexivity.
Qed.

Lemma sendMsgSmart_string (to : value) (s : string) (w : world) :
  sendMsgSmart env to (VStr s) w = sendText env to (VStr s) w.
Proof. reflexivity. Qed.

(** *** The claims on the composer *)

Lemma or_truthy (a b : value) : truthy a = true -> or_ a b = a.
Proof. intros H. unfold or_. now rewrite H. Qed.

Lemma ret_bind {A B} (a : A) (k : A -> M B) (w : world) :
  bind (ret a) k w = k a w.
Proof. reflexivity. Qed.

Lemma no_forward_well_formed (segs : list value) :
  Forall (fun seg => nullish seg = false /\ forwarded seg = []) segs ->
  Forall well_formed segs /\ flat_map forwarded segs = [].
Proof.
  induction 1 as [| seg segs [Hn Hf] _ [IH1 IH2]]; [split; constructor |].
  split.
  - constructor; [| exact IH1]. split; [exact Hn |]. rewrite Hf. constructor.
  - simpl. now rewrite Hf, IH2.
Qed.

(** C1, as amended: a plain string is sent as it is, in one text send.  A
    message that is a segment or a sequence of segments, none of them a
    forward node with children, gives one text send, of the trimmed
    concatenation in order of what its segments add to the text, if that
    is not empty, and after it one image send for each image source, one
    at a time and in order.  The sequence text a, image X, text b, image Y
    gives the text ab, then X, then Y. *)
Theorem compose_text_then_images (to : value) (w : world) :
  (forall s, sendMsgSmart env to (VStr s) w = sendText env to (VStr s) w)
  /\ (forall msg,
        is_string msg = false ->
        Forall (fun seg => nullish seg = false /\ forwarded seg = [])
          (as_segments msg) ->
        sendMsgSmart env to msg w
        = text_then_images env to (as_segments msg) w)
  /\ (forall X Y,
        truthy X = true -> truthy Y = true ->
        sendMsgSmart env to
          (VArr [text_segment "a"; image_segment X;
                 text_segment "b"; image_segment Y]) w
        = (sendText env to (VStr "ab") ;;
           sendImage env to X ;;
           sendImage env to Y ;;
           ret VUndef) w).
Proof.
  assert (P : forall msg,
             is_string msg = false ->
             Forall (fun seg => nullish seg = false /\ forwarded seg = [])
               (as_segments msg) ->
             sendMsgSmart env to msg w
             = text_then_images env to (as_segments msg) w).
  { intros msg Hs Hall.
    destruct (no_forward_well_formed _ Hall) as [Hwf Hnone].
    rewrite (sendMsgSmart_decompose to msg w Hs Hwf), Hnone.
    reflexivity. }
  split; [intros s; apply sendMsgSmart_string |].
  split; [exact P |].
  intros X Y HX HY. rewrite P.
  - unfold text_then_images, text_payload, as_segments.
    cbn [flat_map text_parts image_sources text_segment image_segment
         is_string get assoc String.eqb Ascii.eqb Bool.eqb is_str oget
         nullish or_ app].
    rewrite !(or_truthy X), !(or_truthy Y), HX, HY by assumption.
    change (or_ (or_ (VStr "a") VUndef) (VStr "")) with (VStr "a").
    change (or_ (or_ (VStr "b") VUndef) (VStr "")) with (VStr "b").
    change (trim (join_values [VStr "a"; VStr "b"])) with "ab".
    cbn [String.eqb Ascii.eqb Bool.eqb negb for_each app].
    apply bind_ext; [reflexivity |]. intros _ w1.
    rewrite bind_assoc. apply bind_ext; [reflexivity |]. intros _ w2.
    rewrite bind_assoc. apply bind_ext; [reflexivity |]. intros _ w3.
    reflexivity.
  - reflexivity.
  - repeat constructor.
Qed.

(** C2: the child nodes of the forward nodes of a message are composed one
    after the other, each on its inner message, in the order in which they
    stand, before the text and the images of the message itself; a forward
    node wrapping [m1] and [m2] composes [m1], then [m2]; and the recursion
    comes to an end on every message. *)
Theorem forward_nodes_in_order (to : value) (w : world) :
  (forall msg,
     is_string msg = false ->
     Forall well_formed (as_segments msg) ->
     sendMsgSmart env to msg w
     = (for_each (fun node => sendMsgSmart env to (inner_message node))
          (flat_map forwarded (as_segments msg)) ;;
        text_then_images env to (as_segments msg)) w)
  /\ (forall m1 m2,
        truthy m1 = true -> truthy m2 = true ->
        sendMsgSmart env to (node_segment [child m1; child m2]) w
        = (sendMsgSmart env to m1 ;;
           sendMsgSmart env to m2 ;;
           ret VUndef) w)
  /\ (forall msg, sendMsgSmart env to msg w <> OutOfFuel).
Proof.
  assert (P : forall msg,
     is_string msg = false ->
     Forall well_formed (as_segments msg) ->
     sendMsgSmart env to msg w
     = (for_each (fun node => sendMsgSmart env to (inner_message node))
          (flat_map forwarded (as_segments msg)) ;;
        text_then_images env to (as_segments msg)) w).
  { intros msg Hs Hwf.
    rewrite (sendMsgSmart_decompose to msg w Hs Hwf).
    apply bind_congr_l. apply for_each_map. }
  split; [exact P |].
  split; [| intros msg; apply sendMsgSmart_halts].
  intros m1 m2 H1 H2. rewrite P.
  - assert (I1 : inner_message (child m1) = m1).
    { unfold inner_message, child, or_. simpl. now rewrite !H1. }
    assert (I2 : inner_message (child m2) = m2).
    { unfold inner_message, child, or_. simpl. now rewrite !H2. }
    change (flat_map forwarded (as_segments (node_segment [child m1; child m2])))
      with [child m1; child m2].
    cbn [for_each]. rewrite I1, I2.
    rewrite bind_assoc. apply bind_ext; [reflexivity |]. intros _ w1.
    rewrite bind_assoc. apply bind_ext; [reflexivity |]. intros _ w2.
    reflexivity.
  - reflexivity.
  - repeat constructor.
Qed.

Lemma for_each_sendImage_returns (to : value) (files : list value)
    (w : world) :
  exists evs, for_each (sendImage env to) files w = Ok tt (after w evs).
Proof.
  revert w. induction files as [| f files IH]; intros w.
  - exists []. simpl. now rewrite after_nil.
  - destruct (sendImage_returns to f w) as (v & evs & E).
    destruct (IH (after w evs)) as [evs' E'].
    exists (evs ++ evs')%list. simpl. unfold bind. rewrite E, E'.
    now rewrite after_after.
Qed.

Lemma resolve_string_given_up (f : string) (w : world) :
  unreadable_path env f w ->
  resolve_string env f w = Ok None (after w (given_up f)).
Proof.
  intros (_ & H1 & H2 & H3 & H4 & err & Hr).
  unfold resolve_string. rewrite H1, H2, H3, H4. cbn [orb].
  unfold try_catch, bind, readFile. rewrite Hr.
  unfold makeLog, emit, ret, after, given_up. cbn [registry trace].
  now rewrite <- app_assoc.
Qed.

Lemma sendImage_given_up (to : value) (f : string) (w : world) :
  unreadable_path env f w ->
  sendImage env to (VStr f) w = Ok VUndef (after w (given_up f)).
Proof.
  intros Hf. unfold sendImage.
  assert (E : resolve_image env (VStr f) w = Ok None (after w (given_up f))).
  { rewrite <- (resolve_string_given_up f w Hf). reflexivity. }
  rewrite (try_bind_ok _ _ _ _ _ _ E). reflexivity.
Qed.

(** C9: a text send and an image send always return to their caller.  A
    request that fails, and a response whose [sent] is falsy, leave a log
    line behind.  An image whose source cannot be read as a path is given
    up with a warning and no request, and the images that follow it are
    sent all the same. *)
Theorem send_primitives_never_throw (to : value) (w : world) :
  (forall text,
     let body := VObj [("to", to); ("text", text)] in
     let r := http_post env (trace w) send_url body in
     sendText env to text w
     = Ok (returned r)
          (after w (HttpPost send_url body :: response_log "文本" to r)))
  /\ (forall file, image_end to w (sendImage env to file w))
  /\ (forall files,
        exists evs, for_each (sendImage env to) files w = Ok tt (after w evs))
  /\ (forall f,
        unreadable_path env f w ->
        sendImage env to (VStr f) w = Ok VUndef (after w (given_up f))
        /\ (forall files,
              for_each (sendImage env to) (VStr f :: files) w
              = for_each (sendImage env to) files (after w (given_up f)))
        /\ (forall g,
              truthy g = true ->
              sendMsgSmart env to
                (VArr [image_segment (VStr f); image_segment g]) w
              = (sendImage env to g ;; ret VUndef) (after w (given_up f)))).
Proof.
  split; [intros text; apply sendText_outcome |].
  split; [intros file; apply sendImage_outcome |].
  split; [intros files; apply for_each_sendImage_returns |].
  intros f Hf. pose proof (sendImage_given_up to f w Hf) as G.
  split; [exact G |]. split.
  - intros files. simpl. unfold bind. now rewrite G.
  - intros g Hg.
    rewrite (sendMsgSmart_decompose to
               (VArr [image_segment (VStr f); image_segment g]) w eq_refl);
      [| repeat constructor].
    cbn [as_segments flat_map forwarded image_segment get assoc is_str
         String.eqb Ascii.eqb Bool.eqb app map for_each].
    rewrite ret_bind.
    unfold text_then_images, text_payload.
    cbn [flat_map text_parts image_sources image_segment is_string get assoc
         String.eqb Ascii.eqb Bool.eqb is_str oget nullish or_ app].
    assert (Tf : truthy (VStr f) = true).
    { destruct Hf as [Hne _]. simpl. apply String.eqb_neq in Hne.
      now rewrite Hne. }
    rewrite !(or_truthy (VStr f)), !(or_truthy g), Tf, Hg by assumption.
    cbn [app].
    change (trim (join_values [])) with "".
    cbn [String.eqb negb for_each]. rewrite ret_bind.
    rewrite bind_assoc. unfold bind at 1. rewrite G.
    rewrite bind_assoc. apply bind_ext; [reflexivity |]. intros _ w1.
    reflexivity.
Qed.

End ComposerFacts.

(** ** The inbound path *)

Section InboundFacts.

Import Connection Spec.

Variable env : Connection.environment.

Local Open Scope eff_scope.

Lemma typed_not_nullish (data : value) (t : string) :
  is_str (get data "type") t = true -> nullish data = false.
Proof. destruct data; simpl; try discriminate; reflexivity. Qed.

(** C5: a [db_message] frame whose self-authored flag is set is dropped at
    once: the handler returns with the state as it was, so no host event
    is emitted and the directory is not touched. *)
Theorem self_authored_discarded (data : value) (w : state) :
  is_str (get data "type") "db_message" = true ->
  truthy (get data "is_self") = true ->
  onMessage env data w = Ok tt w
  /\ (forall s raw,
        JSON_parse env raw = inr data -> step env (Incoming s raw) w = w).
Proof.
  intros Ht Hs.
  assert (E : onMessage env data w = Ok tt w).
  { unfold onMessage, bind, get_state.
    destruct (connected w); [| reflexivity]. cbn [negb].
    now rewrite (typed_not_nullish data _ Ht), Ht, Hs. }
  split; [exact E |].
  intros s raw Hp. cbn [step].
  destruct (is_listening s w); [| reflexivity].
  unfold run_handler, on_message, try_catch. now rewrite Hp, E.
Qed.

(** *** Classification by the marker *)

Lemma value_eqb_string (s : string) (k : value) :
  value_eqb (VStr s) k = true <-> k = VStr s.
Proof.
  destruct k; simpl; split; try discriminate.
  - intros H. apply String.eqb_eq in H. now subst.
  - intros H. injection H as ->. apply String.eqb_refl.
Qed.

Lemma map_set_keys (s : string) (v : value) (m : jsmap) (k : value) :
  In k (map_keys (map_set (VStr s) v m))
  <-> In k (map_keys m) \/ k = VStr s.
Proof.
  induction m as [| [k' v'] m IH].
  - simpl. split; [intros [H | []]; now right | intros [[] | H]; now left].
  - cbn [map_set]. destruct (value_eqb (VStr s) k') eqn:E.
    + apply value_eqb_string in E. subst k'. unfold map_keys. simpl.
      split; [intros H; now left | intros [H | H]; [exact H | left; now subst]].
    + unfold map_keys in *. cbn [map fst In]. rewrite IH. tauto.
Qed.

Lemma truthy_string (id : string) :
  truthy (VStr id) = true <-> id <> "".
Proof.
  simpl. destruct (String.eqb_spec id ""); simpl; split;
    congruence.
Qed.

Lemma includes_nonempty (id : string) :
  includes id marker = true -> id <> "".
Proof. intros H ->. discriminate. Qed.

Lemma add_contact_keys (c : value) (fl gl : jsmap) :
  entry c ->
  exists fl' gl',
    add_contact c (fl, gl) = inr (fl', gl')
    /\ (forall k,
          In k (map_keys gl')
          <-> In k (map_keys gl) \/
              exists id, contact_id c = VStr id /\ k = VStr id /\
                         includes id marker = true)
    /\ (forall k,
          In k (map_keys fl')
          <-> In k (map_keys fl) \/
              exists id, contact_id c = VStr id /\ k = VStr id /\
                         id <> "" /\ includes id marker = false).
Proof.
  intros [Hn Hid]. unfold add_contact. rewrite Hn.
  destruct Hid as [Hf | [id Hid]].
  - rewrite Hf. exists fl, gl. split; [reflexivity |].
    split; intros k; (split; [now left |]).
    + intros [H | (id & E & _ & H1)]; auto. exfalso. rewrite E in Hf.
      apply includes_nonempty, truthy_string in H1. congruence.
    + intros [H | (id & E & _ & H1 & _)]; auto. exfalso. rewrite E in Hf.
      apply truthy_string in H1. congruence.
  - rewrite Hid. cbn [includes_method].
    destruct (truthy (VStr id)) eqn:Ht.
    + apply truthy_string in Ht. fold marker.
      destruct (includes id marker) eqn:Hi.
      * eexists; eexists. split; [reflexivity |]. split; intros k.
        -- rewrite map_set_keys. split; intros [H | H]; auto.
           ++ right. now exists id.
           ++ destruct H as (id' & E & -> & _). injection E as ->. now right.
        -- split; [now left |]. intros [H | (id' & E & -> & _ & H)]; auto.
           injection E as ->. congruence.
      * eexists; eexists. split; [reflexivity |]. split; intros k.
        -- split; [now left |]. intros [H | (id' & E & -> & H)]; auto.
           injection E as ->. congruence.
        -- rewrite map_set_keys. split; intros [H | H]; auto.
           ++ right. now exists id.
           ++ destruct H as (id' & E & -> & _). injection E as ->. now right.
    + exists fl, gl. split; [reflexivity |].
      assert (Hempty : id = "").
      { destruct (String.eqb_spec id ""); [assumption |].
        apply truthy_string in n. congruence. }
      split; intros k; (split; [now left |]).
      * intros [H | (id' & E & _ & H1)]; auto. exfalso.
        injection E as <-. subst id. discriminate.
      * intros [H | (id' & E & _ & H1 & _)]; auto. exfalso.
        injection E as <-. congruence.
Qed.

Lemma add_contacts_keys (contacts : list value) :
  Forall entry contacts ->
  forall fl gl,
  exists fl' gl',
    add_contacts contacts (fl, gl) = inr (fl', gl')
    /\ (forall k,
          In k (map_keys gl')
          <-> In k (map_keys gl) \/
              exists c id, In c contacts /\ contact_id c = VStr id /\
                           k = VStr id /\ includes id marker = true)
    /\ (forall k,
          In k (map_keys fl')
          <-> In k (map_keys fl) \/
              exists c id, In c contacts /\ contact_id c = VStr id /\
                           k = VStr id /\ id <> "" /\
                           includes id marker = false).
Proof.
  induction 1 as [| c contacts Hc _ IH]; intros fl gl.
  - exists fl, gl. split; [reflexivity |].
    split; intros k; (split; [now left |]);
      intros [H | (c & id & [] & _)]; exact H.
  - destruct (add_contact_keys c fl gl Hc) as (fl1 & gl1 & E1 & G1 & F1).
    destruct (IH fl1 gl1) as (fl2 & gl2 & E2 & G2 & F2).
    exists fl2, gl2. cbn [add_contacts]. rewrite E1. split; [exact E2 |].
    split; intros k.
    + rewrite G2, G1. split.
      * intros [[H | (id & H)] | (c' & id & Hin & H)]; auto.
        -- right. exists c, id. split; [now left | exact H].
        -- right. exists c', id. split; [now right | exact H].
      * intros [H | (c' & id & [<- | Hin] & H)]; auto.
        -- left. right. now exists id.
        -- right. now exists c', id.
    + rewrite F2, F1. split.
      * intros [[H | (id & H)] | (c' & id & Hin & H)]; auto.
        -- right. exists c, id. split; [now left | exact H].
        -- right. exists c', id. split; [now right | exact H].
      * intros [H | (c' & id & [<- | Hin] & H)]; auto.
        -- left. right. now exists id.
        -- right. now exists c', id.
Qed.

Lemma emitted_app (tr1 tr2 : list (Z * event)) :
  emitted (tr1 ++ tr2) = (emitted tr1 ++ emitted tr2)%list.
Proof.
  induction tr1 as [| [t e] tr1 IH]; [reflexivity |].
  destruct e; simpl; now rewrite IH.
Qed.

Lemma with_registry_same (w : state) : with_registry (registry w) w = w.
Proof. now destruct w. Qed.

Lemma identifier_or (a b : value) :
  identifier a -> identifier b -> identifier (or_ a b).
Proof. intros Ha Hb. unfold or_. now destruct (truthy a). Qed.

Lemma update_directory_ok (data isGroup user_id group_id : value)
    (w : state) :
  identifier user_id ->
  exists r,
    update_directory data isGroup user_id group_id w
    = Ok tt (with_registry r w).
Proof.
  intros Hu. unfold update_directory, bind, get_state.
  destruct (registry w) as [b |] eqn:Er.
  - match goal with
    | |- context [match (if ?c then ?x else ?y) w with _ => _ end] =>
        assert (G : exists r1,
                   (if c then x else y) w = Ok tt (with_registry (Some r1) w))
    end.
    { destruct (_ && _).
      - unfold gl_set, bind, get_state. rewrite Er. eexists. reflexivity.
      - exists b. unfold ret. now rewrite <- Er, with_registry_same. }
    destruct G as [r1 G]. unfold M in G. rewrite G.
    destruct Hu as [Hf | [s ->]].
    + rewrite Hf. eexists. reflexivity.
    + destruct (truthy (VStr s)); [| eexists; reflexivity].
      cbn [has_marker includes_method].
      destruct (includes s "@chatroom"); cbn [negb];
        [eexists; reflexivity |].
      unfold fl_set, bind, get_state, ret. cbn [registry with_registry].
      eexists. reflexivity.
  - exists None. unfold ret. now rewrite <- Er, with_registry_same.
Qed.

Lemma is_group_identifier (chat : value) (w : state) :
  identifier chat ->
  exists g,
    is_group chat w = Ok g w /\ truthy g = contains_marker chat.
Proof.
  intros [Hf | [s ->]]; unfold is_group.
  - rewrite Hf. exists chat. split; [reflexivity |]. rewrite Hf.
    destruct chat; try reflexivity. simpl in *.
    destruct (String.eqb_spec s ""); [now subst | discriminate].
  - destruct (truthy (VStr s)) eqn:Ht.
    + exists (VBool (includes s marker)). split; reflexivity.
    + exists (VStr s). split; [reflexivity |]. rewrite Ht. simpl.
      destruct (String.eqb_spec s "") as [-> | n]; [reflexivity |].
      apply truthy_string in n. congruence.
Qed.

Lemma db_message_typed (data : value) (w : state) :
  identifier (get data "chat") ->
  identifier (get data "talker") ->
  exists e w',
    db_message env data w = Ok tt w'
    /\ emitted (trace w')
       = (emitted (trace w)
          ++ [(("message." ++ e_message_type e)%string, Message e)])%list
    /\ e_message_type e
       = (if contains_marker (get data "chat") then "group" else "private").
Proof.
  intros Hc Ht. unfold db_message.
  destruct (is_group_identifier (get data "chat") w Hc) as (g & Eg & Tg).
  unfold bind at 1. rewrite Eg.
  unfold bind at 1, get_state at 1.
  assert (Hu : identifier (or_ (get data "talker") (get data "chat"))).
  { now apply identifier_or. }
  destruct (update_directory_ok data g
              (or_ (get data "talker") (get data "chat"))
              (if truthy g then get data "chat" else VUndef) w Hu) as [r Er].
  unfold bind at 1. rewrite Er.
  unfold bind at 1, get_state at 1.
  rewrite Tg.
  destruct (contains_marker (get data "chat"));
    (eexists; eexists; split; [reflexivity |]);
    cbn [trace with_registry];
    rewrite <- app_assoc, emitted_app; cbn [emitted app];
    split; reflexivity.
Qed.

(** C6: the marker alone decides between group and friend.  The load of
    the contact list puts the identifiers that contain it in the group map
    and the other identifiers in the friend map, and skips the entries
    that have none; the event of a [db_message] frame is a group event
    exactly when the identifier of the chat contains it. *)
Theorem classified_by_marker :
  (forall contacts,
     Forall entry contacts ->
     exists fl gl,
       build_lists (VArr contacts) = inr (fl, gl)
       /\ (forall k,
             In k (map_keys gl)
             <-> exists c id, In c contacts /\ contact_id c = VStr id /\
                              k = VStr id /\ includes id marker = true)
       /\ (forall k,
             In k (map_keys fl)
             <-> exists c id, In c contacts /\ contact_id c = VStr id /\
                              k = VStr id /\ id <> "" /\
                              includes id marker = false))
  /\ (forall data w,
        connected w = true ->
        is_str (get data "type") "db_message" = true ->
        truthy (get data "is_self") = false ->
        identifier (get data "chat") ->
        identifier (get data "talker") ->
        exists e w',
          onMessage env data w = Ok tt w'
          /\ emitted (trace w')
             = (emitted (trace w)
                ++ [(("message." ++ e_message_type e)%string, Message e)])%list
          /\ e_message_type e
             = (if contains_marker (get data "chat")
                then "group" else "private")).
Proof.
  split.
  - intros contacts Hall.
    destruct (add_contacts_keys contacts Hall [] []) as (fl & gl & E & G & F).
    exists fl, gl. split; [exact E |]. split; intros k.
    + rewrite G. simpl. tauto.
    + rewrite F. simpl. tauto.
  - intros data w Hconn Ht Hs Hc Htalker.
    destruct (db_message_typed data w Hc Htalker) as (e & w' & E & H).
    exists e, w'. split; [| exact H].
    unfold onMessage, bind, get_state. rewrite Hconn. cbn [negb].
    now rewrite (typed_not_nullish data _ Ht), Ht, Hs.
Qed.

End InboundFacts.

(** ** The connection manager *)

Section ConnectionFacts.

Import Connection Spec.

Variable env : Connection.environment.

Local Open Scope eff_scope.

Ltac crunch :=
  unfold run_handler, run_callback, on_open, on_message, on_close, on_error,
    load, connectWs, initBot, initBot_status, fetch, makeLog, emit,
    setTimeout, set_connected, get_state, try_catch, bind, ret, throw;
  cbn [connected ws listening sockets registry uin timers pending now trace].

Lemma emitted_snoc_quiet (tr : list (Z * event)) (t : Z) (e : event) :
  (forall name data, e <> Emit name data) ->
  emitted (tr ++ [(t, e)]) = emitted tr.
Proof.
  intros H. rewrite emitted_app. destruct e; simpl;
    try apply app_nil_r. now destruct (H name data).
Qed.

Lemma Forall_remove_nth {A} (P : A -> Prop) (n : nat) (l : list A) :
  Forall P l -> Forall P (remove_nth n l).
Proof.
  intros H. revert n. induction H as [| x l Hx Hl IH]; intros n.
  - destruct n; constructor.
  - destruct n; simpl; [assumption |]. constructor; auto.
Qed.





(** *** Reconnection *)

Lemma attempts_app (tr1 tr2 : list (Z * event)) :
  attempts (tr1 ++ tr2) = (attempts tr1 ++ attempts tr2)%list.
Proof.
  induction tr1 as [| [t e] tr1 IH]; [reflexivity |].
  destruct e; simpl; now rewrite IH.
Qed.

Lemma reconnections_app (ts1 ts2 : list (Z * callback)) :
  reconnections (ts1 ++ ts2)
  = (reconnections ts1 + reconnections ts2)%nat.
Proof. unfold reconnections. now rewrite filter_app, length_app. Qed.

Lemma reconnections_one (t : Z) : reconnections [(t, ConnectWs)] = 1%nat.
Proof. reflexivity. Qed.

Lemma take_due_reconnections (d : Z) (ts rest : list (Z * callback))
    (cb : callback) :
  take_due d ts = Some (cb, rest) ->
  reconnections ts
  = (reconnections rest
     + match cb with ConnectWs => 1 | InitBot => 0 end)%nat.
Proof.
  revert rest. induction ts as [| [d' cb'] ts IH]; intros rest; simpl.
  - discriminate.
  - destruct (d' =? d).
    + intros H. injection H as -> ->. unfold reconnections. simpl.
      destruct cb; simpl; lia.
    + destruct (take_due d ts) as [[cb1 rest1] |]; [| discriminate].
      intros H. injection H as -> <-. specialize (IH rest1 eq_refl).
      unfold reconnections in *. simpl. destruct cb'; simpl; lia.
Qed.

Lemma listening_alone (s : nat) (w : state) :
  is_listening s w = true -> one_connection w ->
  listening w = [s] /\ reconnections (timers w) = O.
Proof.
  unfold is_listening, one_connection. intros Hs H.
  destruct (listening w) as [| s1 [| s2 l]]; simpl in *; try discriminate;
    try lia.
  rewrite orb_false_r in Hs. apply Nat.eqb_eq in Hs. subst. split; [auto | lia].
Qed.

Lemma calm_ret {A} (a : A) : calm (ret a).
Proof. intros w. now split. Qed.

Lemma calm_throw {A} (e : error) : calm (@throw state A e).
Proof. intros w. now split. Qed.

Lemma calm_bind {A B} (m : M A) (k : A -> M B) :
  calm m -> (forall a, calm (k a)) -> calm (bind m k).
Proof.
  intros Hm Hk w. specialize (Hm w). unfold bind.
  destruct (m w) as [a w1 | e w1 |]; [| exact Hm | exact I].
  specialize (Hk a w1). destruct Hm as [L1 R1].
  destruct (k a w1) as [b w2 | e w2 |]; [| | exact I];
    destruct Hk as [L2 R2]; split; congruence.
Qed.

Lemma calm_try_catch {A} (m : M A) (h : error -> M A) :
  calm m -> (forall e, calm (h e)) -> calm (try_catch m h).
Proof.
  intros Hm Hh w. specialize (Hm w). unfold try_catch.
  destruct (m w) as [a w1 | e w1 |]; [exact Hm | | exact I].
  specialize (Hh e w1). destruct Hm as [L1 R1].
  destruct (h e w1) as [b w2 | e2 w2 |]; [| | exact I];
    destruct Hh as [L2 R2]; split; congruence.
Qed.

Lemma calm_get_state : calm get_state.
Proof. intros w. now split. Qed.

Lemma calm_emit (e : event) : calm (emit e).
Proof. intros w. now split. Qed.

Lemma calm_makeLog (level : string) (message : value) (id : string) :
  calm (makeLog level message id).
Proof. apply calm_emit. Qed.

Lemma calm_set_connected (b : bool) : calm (set_connected b).
Proof. intros w. now split. Qed.

Lemma calm_set_registry (r : option bot) : calm (set_registry r).
Proof. intros w. now split. Qed.

Lemma calm_set_uin (u : list string) : calm (set_uin u).
Proof. intros w. now split. Qed.

Lemma calm_fetch (url : string) (k : awaiting) : calm (fetch url k).
Proof. intros w. now split. Qed.

Lemma calm_poll_again (delay : Z) : calm (setTimeout InitBot delay).
Proof.
  intros w. unfold setTimeout, same_connection. cbn [listening timers].
  split; [reflexivity |]. rewrite reconnections_app. cbn. lia.
Qed.

Ltac calm_step :=
  match goal with
  | |- calm (ret _) => apply calm_ret
  | |- calm (throw _) => apply calm_throw
  | |- calm get_state => apply calm_get_state
  | |- calm (emit _) => apply calm_emit
  | |- calm (makeLog _ _ _) => apply calm_makeLog
  | |- calm (set_connected _) => apply calm_set_connected
  | |- calm (set_registry _) => apply calm_set_registry
  | |- calm (set_uin _) => apply calm_set_uin
  | |- calm (fetch _ _) => apply calm_fetch
  | |- calm (setTimeout InitBot _) => apply calm_poll_again
  | |- calm (bind _ _) => apply calm_bind; [| intros ?]
  | |- calm (try_catch _ _) => apply calm_try_catch; [| intros ?]
  | |- calm (if ?b then _ else _) => destruct b
  | |- calm (match ?x with _ => _ end) => destruct x
  | |- calm (let _ := _ in _) => cbv zeta
  end.

Lemma calm_onMessage (data : value) : calm (onMessage env data).
Proof.
  unfold onMessage, db_message, listen_message, update_directory, is_group,
    has_marker, gl_set, fl_set.
  repeat calm_step.
Qed.

Lemma calm_on_message (raw : string) : calm (on_message env raw).
Proof.
  unfold on_message. apply calm_try_catch.
  - destruct (JSON_parse env raw); [apply calm_throw | apply calm_onMessage].
  - intros e. apply calm_makeLog.
Qed.

Lemma calm_initBot : calm (initBot env).
Proof. apply calm_fetch. Qed.

Lemma calm_initBot_status (r : error + value) : calm (initBot_status env r).
Proof. unfold initBot_status. repeat calm_step. Qed.

Lemma calm_initBot_contacts (status : value) (r : error + value) :
  calm (initBot_contacts status r).
Proof. unfold initBot_contacts. repeat calm_step. Qed.

Lemma calm_run_handler (m : M unit) (w w0 : state) :
  calm m -> same_connection w0 w -> one_connection w0 ->
  one_connection (run_handler m w).
Proof.
  intros Hm [L R] H. specialize (Hm w). unfold run_handler, one_connection in *.
  destruct (m w) as [a w1 | e w1 |];
    [destruct Hm as [-> ->] | destruct Hm as [-> ->] |]; congruence.
Qed.

Lemma step_one_connection (i : input) (w : state) :
  one_connection w -> one_connection (step env i w).
Proof.
  intros H.
  destruct i as [dt | | s | s raw | s | s err | n r]; cbn [step].
  - destruct (_ && _); auto.
  - destruct (min_due (timers w)) as [d |]; [| auto].
    destruct (take_due d (timers w)) as [[cb rest] |] eqn:Et; [| auto].
    apply take_due_reconnections in Et. unfold one_connection in *.
    destruct cb; crunch.
    + destruct (ws_construct env (trace w));
        cbn [connected ws listening sockets registry uin timers pending now
             trace];
        rewrite ?reconnections_app, ?length_app, ?reconnections_one;
        cbn [List.length]; lia.
    + lia.
  - destruct (is_listening s w); [| auto].
    apply (calm_run_handler _ w w); [| now split | exact H].
    unfold on_open. repeat calm_step. apply calm_initBot.
  - destruct (is_listening s w); [| auto].
    apply (calm_run_handler _ w w); [| now split | exact H].
    apply calm_on_message.
  - destruct (is_listening s w) eqn:Es; [| auto].
    destruct (listening_alone s w Es H) as [Hl Hr].
    unfold one_connection. crunch.
    rewrite Hl, reconnections_app, Hr, reconnections_one. simpl.
    now rewrite Nat.eqb_refl.
  - destruct (is_listening s w); [| auto].
    apply (calm_run_handler _ w w); [| now split | exact H].
    apply calm_makeLog.
  - destruct (nth_error (pending w) n) as [k |]; [| auto].
    apply (calm_run_handler _ _ w); [| now split | exact H].
    destruct k; [apply calm_initBot_status | apply calm_initBot_contacts].
Qed.

Lemma run_one_connection (inputs : list input) (w : state) :
  one_connection w -> one_connection (run env inputs w).
Proof.
  revert w. induction inputs as [| i inputs IH]; intros w H; [exact H |].
  cbn [run]. apply IH. now apply step_one_connection.
Qed.

Lemma loaded_one_connection : one_connection (loaded env).
Proof.
  unfold loaded, one_connection. crunch. unfold initial. cbn.
  destruct (ws_construct env _); reflexivity.
Qed.

Lemma spaced_head (t : Z) (dts : list Z) :
  spaced t dts = t :: tl (spaced t dts).
Proof. now destruct dts. Qed.

Lemma length_spaced (t : Z) (dts : list Z) :
  List.length (spaced t dts) = S (List.length dts).
Proof.
  revert t. induction dts as [| dt dts IH]; intros t; simpl; auto.
Qed.

(** One close of the only socket, and the reconnection that follows. *)
Lemma close_and_reconnect (k : nat) (dt : Z) (w : state) :
  (forall tr, ws_construct env tr = None) ->
  0 <= dt ->
  listening w = [k] -> sockets w = S k -> timers w = [] ->
  let w1 := run env [Elapse dt; Close k; Timeout] w in
  listening w1 = [S k] /\ sockets w1 = S (S k) /\ timers w1 = []
  /\ now w1 = now w + dt + RECONNECT_INTERVAL
  /\ attempts (trace w1) = (attempts (trace w) ++ [now w1])%list.
Proof.
  intros Hok Hdt Hl Hs Ht.
  destruct w as [c so l sk r u ts p n tr]. cbn in Hl, Hs, Ht. subst l sk ts.
  cbn [run step timers min_due now].
  destruct (Z.leb_spec 0 dt); [| lia]. cbn [andb].
  unfold is_listening.
  cbn [connected ws listening sockets registry uin timers pending now trace
       existsb filter].
  rewrite Nat.eqb_refl. cbn [orb negb].
  crunch. cbn [app min_due take_due]. rewrite Z.eqb_refl.
  crunch. rewrite Hok.
  cbn [connected ws listening sockets registry uin timers pending now trace
       app].
  assert (M : Z.max (n + dt) (n + dt + RECONNECT_INTERVAL)
              = n + dt + RECONNECT_INTERVAL).
  { unfold RECONNECT_INTERVAL. lia. }
  rewrite M. repeat split.
  rewrite !attempts_app. cbn [attempts app]. now rewrite app_nil_r.
Qed.

Lemma closes_and_reconnects (dts : list Z) :
  (forall tr, ws_construct env tr = None) ->
  Forall (fun dt => 0 <= dt) dts ->
  forall k w,
    listening w = [k] -> sockets w = S k -> timers w = [] ->
    let w' := run env (closes k dts) w in
    listening w' = [(k + List.length dts)%nat]
    /\ attempts (trace w')
       = (attempts (trace w) ++ tl (spaced (now w) dts))%list.
Proof.
  intros Hok Hall. induction Hall as [| dt dts Hdt _ IH]; intros k w Hl Hs Ht.
  - cbn. rewrite Nat.add_0_r, app_nil_r. auto.
  - cbn [closes].
    change (run env (Elapse dt :: Close k :: Timeout :: closes (S k) dts) w)
      with (run env (closes (S k) dts)
              (run env [Elapse dt; Close k; Timeout] w)).
    destruct (close_and_reconnect k dt w Hok Hdt Hl Hs Ht)
      as (Hl1 & Hs1 & Ht1 & Hn1 & Ha1).
    destruct (IH (S k) _ Hl1 Hs1 Ht1) as [Hl2 Ha2].
    split.
    + rewrite Hl2. f_equal. cbn [List.length]. lia.
    + rewrite Ha2, Ha1, <- app_assoc. cbn [spaced tl app].
      rewrite Hn1. now rewrite <- spaced_head.
Qed.

(** C3: the close of the socket, and a failure to construct one, each set
    one reconnection [RECONNECT_INTERVAL] later; there is always either one
    socket with its handlers on or one reconnection waiting, and never two
    sockets at once; [N] closes in a row, whenever they come, make [N + 1]
    attempts, each [RECONNECT_INTERVAL] after the close before it. *)
Theorem reconnects_after_every_close :
  (forall w s,
     is_listening s w = true -> one_connection w ->
     let w' := step env (Close s) w in
     timers w' = (timers w ++ [(now w + RECONNECT_INTERVAL, ConnectWs)])%list
     /\ listening w' = []
     /\ connected w' = false
     /\ attempts (trace w') = attempts (trace w))
  /\ (forall w d rest,
        min_due (timers w) = Some d ->
        take_due d (timers w) = Some (ConnectWs, rest) ->
        let w' := step env Timeout w in
        let t := Z.max (now w) d in
        attempts (trace w') = (attempts (trace w) ++ [t])%list
        /\ match ws_construct env (trace w) with
           | Some _ =>
               timers w' = (rest ++ [(t + RECONNECT_INTERVAL, ConnectWs)])%list
               /\ listening w' = listening w
           | None =>
               timers w' = rest
               /\ listening w' = (listening w ++ [sockets w])%list
           end)
  /\ (forall inputs, one_connection (run env inputs (loaded env)))
  /\ ((forall tr, ws_construct env tr = None) ->
      forall dts,
        Forall (fun dt => 0 <= dt) dts ->
        let w := run env (closes 0 dts) (loaded env) in
        attempts (trace w) = spaced 0 dts
        /\ List.length (attempts (trace w)) = S (List.length dts)
        /\ listening w = [List.length dts]).
Proof.
  split; [| split; [| split]].
  - intros w s Hs H. destruct (listening_alone s w Hs H) as [Hl _].
    cbn [step]. rewrite Hs. crunch. rewrite Hl. cbn [filter].
    rewrite Nat.eqb_refl. cbn [negb].
    rewrite attempts_app. cbn [attempts]. now rewrite app_nil_r.
  - intros w d rest Hd Ht. cbn [step]. rewrite Hd, Ht. crunch.
    destruct (ws_construct env (trace w));
      cbn [connected ws listening sockets registry uin timers pending now
           trace];
      rewrite !attempts_app; cbn [attempts app]; rewrite ?app_nil_r; auto.
  - intros inputs. apply run_one_connection, loaded_one_connection.
  - intros Hok dts Hall.
    assert (L : listening (loaded env) = [O] /\ sockets (loaded env) = 1%nat
                /\ timers (loaded env) = [] /\ now (loaded env) = 0
                /\ attempts (trace (loaded env)) = [0]).
    { unfold loaded. crunch. rewrite Hok. cbn. auto. }
    destruct L as (Hl & Hs & Ht & Hn & Ha).
    destruct (closes_and_reconnects dts Hok Hall O (loaded env) Hl Hs Ht)
      as [Hl' Ha'].
    cbv zeta. rewrite Ha', Ha, Hn. cbn [app].
    rewrite <- spaced_head. split; [reflexivity |].
    split; [apply length_spaced | exact Hl'].
Qed.

End ConnectionFacts.

(** ** Closed instances of the theorems *)


Lemma parse_single_text_segment_witness :
  Normalizer.parseMsgContent Instances.no_number
    (VObj [("type", VStr "Location")]) (VStr "hello")
  = Normalizer.single (VStr "hello")
  /\ Normalizer.parseMsgContent Instances.no_number VUndef (VStr "hello")
     = Normalizer.single (VStr "hello")
  /\ Normalizer.parseMsgContent Instances.no_number VUndef VUndef
     = Normalizer.single (VStr "").
Proof.
  split; [| split].
  - apply (proj1 (proj2 (parse_single_text_segment Instances.no_number
                           (VObj [("type", VStr "Location")]) (VStr "hello"))
                    (or_intror (or_intror eq_refl))) "hello" eq_refl).
  - apply (proj1 (proj2 (parse_single_text_segment Instances.no_number
                           VUndef (VStr "hello"))
                    (or_introl eq_refl)) "hello" eq_refl).
  - apply (proj2 (proj2 (parse_single_text_segment Instances.no_number VUndef VUndef)
                    (or_introl eq_refl)) eq_refl).
Defined.

Lemma falsy_text_falls_back_witness :
  Normalizer.parseMsgContent Instances.no_number
    (VObj [("type", VStr "Text"); ("data", VObj [("text", VStr "")])])
    (VStr "hello")
  = Normalizer.single (VStr "hello").
Proof.
  apply (proj1 (falsy_text_falls_back Instances.no_number
                  (VObj [("type", VStr "Text");
                         ("data", VObj [("text", VStr "")])])
                  (VStr "hello") (or_introl eq_refl) eq_refl)).
Defined.


Section ClosedInstances.

Import Instances Composer Connection Spec.

Local Open Scope eff_scope.

(** Against C1 as it stands: the plain string is sent with its spaces, and
    sent even when it is empty, where the claim has one trimmed payload
    sent if not empty; and a forwarded node is sent before the text that
    stands before it, where the claim has the text sent first. *)
Lemma plain_string_sent_untrimmed :
  events (sendMsgSmart env0 bob (VStr " a ")) w0
  <> events (text_then_images env0 bob (as_segments (VStr " a "))) w0
  /\ events (sendMsgSmart env0 bob (VStr "")) w0
     <> events (text_then_images env0 bob (as_segments (VStr ""))) w0
  /\ option_map (fun evs => hd_error (posts evs))
       (events (sendMsgSmart env0 bob
                  (VArr [text_segment "a"; node_segment [child (VStr "b")]]))
          w0)
     <> Some (Some (HttpPost (send_url env0)
                      (VObj [("to", bob); ("text", VStr "a")]))).
Proof.
  split; [| split]; intros H; vm_compute in H; discriminate H.
Qed.

Lemma compose_text_then_images_witness :
  sendMsgSmart env0 bob
    (VArr [text_segment "a"; image_segment (VStr "base64://AAAA");
           text_segment "b"; image_segment (VStr "pic.png")]) w0
  = (sendText env0 bob (VStr "ab") ;;
     sendImage env0 bob (VStr "base64://AAAA") ;;
     sendImage env0 bob (VStr "pic.png") ;;
     ret VUndef) w0
  /\ sendMsgSmart env0 bob (text_segment " hi ") w0
     = text_then_images env0 bob [text_segment " hi "] w0.
Proof.
  split.
  - apply (proj2 (proj2 (compose_text_then_images env0 bob w0))
             (VStr "base64://AAAA") (VStr "pic.png")); reflexivity.
  - apply (proj1 (proj2 (compose_text_then_images env0 bob w0))
             (text_segment " hi ")); [reflexivity |].
    constructor; [split; reflexivity | constructor].
Defined.

Lemma forward_nodes_in_order_witness :
  sendMsgSmart env0 bob
    (node_segment [child (VArr [text_segment "one"]); child (VStr "two")]) w0
  = (sendMsgSmart env0 bob (VArr [text_segment "one"]) ;;
     sendMsgSmart env0 bob (VStr "two") ;;
     ret VUndef) w0
  /\ sendMsgSmart env0 bob
       (VArr [text_segment "a"; node_segment [child (VStr "b")]]) w0
     = (for_each (fun node => sendMsgSmart env0 bob (inner_message node))
          (flat_map forwarded
             (as_segments
                (VArr [text_segment "a"; node_segment [child (VStr "b")]]))) ;;
        text_then_images env0 bob
          (as_segments
             (VArr [text_segment "a"; node_segment [child (VStr "b")]]))) w0.
Proof.
  split.
  - apply (proj1 (proj2 (forward_nodes_in_order env0 bob w0))
             (VArr [text_segment "one"]) (VStr "two")); reflexivity.
  - apply (proj1 (forward_nodes_in_order env0 bob w0)
             (VArr [text_segment "a"; node_segment [child (VStr "b")]]));
      [reflexivity |].
    constructor; [split; [reflexivity | constructor] |].
    constructor; [split; [reflexivity |] | constructor].
    constructor; [reflexivity | constructor].
Defined.

Lemma unreadable_pic : unreadable_path env0 "pic.png" w0.
Proof.
  split; [discriminate |]. repeat (split; [reflexivity |]).
  eexists. reflexivity.
Defined.

Lemma send_primitives_never_throw_witness :
  sendImage env0 bob (VStr "pic.png") w0
  = Ok VUndef (after w0 (given_up "pic.png"))
  /\ sendMsgSmart env0 bob
       (VArr [image_segment (VStr "pic.png");
              image_segment (VStr "base64://AAAA")]) w0
     = (sendImage env0 bob (VStr "base64://AAAA") ;; ret VUndef)
         (after w0 (given_up "pic.png")).
Proof.
  pose proof (proj2 (proj2 (proj2 (send_primitives_never_throw env0 bob w0)))
                "pic.png" unreadable_pic) as H.
  split.
  - exact (proj1 H).
  - apply (proj2 (proj2 H) (VStr "base64://AAAA")). reflexivity.
Defined.

Lemma self_authored_discarded_witness :
  onMessage cenv1 own_frame ready = Ok tt ready
  /\ step cenv1 (Incoming O "{}") ready = ready.
Proof.
  split.
  - apply (proj1 (self_authored_discarded cenv1 own_frame ready
                    eq_refl eq_refl)).
  - apply (proj2 (self_authored_discarded cenv1 own_frame ready
                    eq_refl eq_refl) O "{}" eq_refl).
Defined.

Lemma entries0 : Forall entry contacts0.
Proof.
  constructor; [split; [reflexivity | right; eexists; reflexivity] |].
  constructor; [split; [reflexivity | right; eexists; reflexivity] |].
  constructor; [split; [reflexivity | left; reflexivity] |].
  constructor.
Defined.

Lemma classified_by_marker_witness :
  (exists fl gl,
     build_lists (VArr contacts0) = inr (fl, gl)
     /\ (forall k,
           In k (map_keys gl)
           <-> exists c id, In c contacts0 /\ contact_id c = VStr id /\
                            k = VStr id /\ includes id marker = true)
     /\ (forall k,
           In k (map_keys fl)
           <-> exists c id, In c contacts0 /\ contact_id c = VStr id /\
                            k = VStr id /\ id <> "" /\
                            includes id marker = false))
  /\ (exists e w',
        onMessage cenv0 group_frame ready = Ok tt w'
        /\ emitted (Connection.trace w')
           = (emitted (Connection.trace ready)
              ++ [(("message." ++ e_message_type e)%string, Message e)])%list
        /\ e_message_type e = "group").
Proof.
  split.
  - apply (proj1 (classified_by_marker cenv0) contacts0 entries0).
  - apply (proj2 (classified_by_marker cenv0) group_frame ready);
      try reflexivity; right; eexists; reflexivity.
Defined.



Lemma reconnects_after_every_close_witness :
  (attempts (Connection.trace
               (run cenv0 (closes 0 [100; 0; 250]) (loaded cenv0)))
   = spaced 0 [100; 0; 250]
   /\ List.length
        (attempts (Connection.trace
                     (run cenv0 (closes 0 [100; 0; 250]) (loaded cenv0))))
      = 4%nat
   /\ listening (run cenv0 (closes 0 [100; 0; 250]) (loaded cenv0))
      = [3%nat])
  /\ (timers (step cenv0 (Close O) ready) = [(5000, ConnectWs)]
      /\ listening (step cenv0 (Close O) ready) = []
      /\ connected (step cenv0 (Close O) ready) = false
      /\ attempts (Connection.trace (step cenv0 (Close O) ready)) = [])
  /\ attempts (Connection.trace (step cenv0 Timeout closed)) = [5000].
Proof.
  split; [| split].
  - apply (proj2 (proj2 (proj2 (reconnects_after_every_close cenv0)))
             (fun _ => eq_refl) [100; 0; 250]).
    repeat constructor; lia.
  - apply (proj1 (reconnects_after_every_close cenv0) ready O
             eq_refl eq_refl).
  - apply (proj1 (proj2 (reconnects_after_every_close cenv0)) closed 5000 []
             eq_refl eq_refl).
Defined.

(** The runs above, evaluated. *)

Example text_a_image_text_b_image_requests :
  option_map posts
    (events (sendMsgSmart env0 bob
               (VArr [text_segment "a"; image_segment (VStr "base64://AAAA");
                      text_segment "b"; image_segment (VBuf [])])) w0)
  = Some
      [HttpPost "http://localhost:8899/send"
         (VObj [("to", bob); ("text", VStr "ab")]);
       HttpPost "http://localhost:8899/send_image"
         (VObj [("to", bob); ("file", VStr "AAAA");
                ("name", VStr "image.png")]);
       HttpPost "http://localhost:8899/send_image"
         (VObj [("to", bob); ("file", VStr "QUJD");
                ("name", VStr "image.png")])].
Proof. reflexivity. Qed.

Example plain_string_request :
  option_map posts (events (sendMsgSmart env0 bob (VStr " a ")) w0)
  = Some [HttpPost "http://localhost:8899/send"
            (VObj [("to", bob); ("text", VStr " a ")])].
Proof. reflexivity. Qed.

Example forwarded_before_text :
  option_map posts
    (events (sendMsgSmart env0 bob
               (VArr [text_segment "a"; node_segment [child (VStr "b")]])) w0)
  = Some [HttpPost "http://localhost:8899/send"
            (VObj [("to", bob); ("text", VStr "b")]);
          HttpPost "http://localhost:8899/send"
            (VObj [("to", bob); ("text", VStr "a")])].
Proof. reflexivity. Qed.

Example null_segment_throws :
  sendMsgSmart env0 bob (VArr [VNull]) w0
  = Throw (TypeError "Cannot read properties of undefined (reading 'type')")
      w0.
Proof. reflexivity. Qed.

Example three_closes_four_attempts :
  attempts (Connection.trace
              (run cenv0 (closes 0 [100; 0; 250]) (loaded cenv0)))
  = [0; 5100; 10100; 15350].
Proof. reflexivity. Qed.

Example group_frame_event :
  map fst
    (emitted (Connection.trace
                (run_handler (onMessage cenv0 group_frame) ready)))
  = ["message.group"]
  /\ map fst
       (emitted (Connection.trace
                   (run_handler (onMessage cenv0 friend_frame) ready)))
     = ["message.private"].
Proof. split; reflexivity. Qed.

End ClosedInstances.

(** * Further properties *)

(** ** The sources of an image *)

Section ImageSources.

Import Composer Spec Laws.

Variable env : Composer.environment.

Local Open Scope eff_scope.

Lemma sendImage_resolved (to file : value) (w : world) (pre : list event)
    (data name : string) :
  resolve_image env file w = Ok (Some (Some data, name)) (after w pre) ->
  sendImage env to file w
  = Ok (image_result env w pre data name to)
       (after w (image_request env w pre data name to)).
Proof.
  intros E. unfold sendImage. rewrite (try_bind_ok _ _ _ _ _ _ E).
  rewrite post_image_outcome, after_after. cbn [after trace].
  unfold image_result, image_request. now rewrite <- app_assoc.
Qed.

Lemma sendImage_thrown (to file : value) (w : world) (pre : list event)
    (e : error) :
  resolve_image env file w = Throw e (after w pre) ->
  sendImage env to file w = Ok VUndef (after w (pre ++ [image_error to e])).
Proof.
  intros E. unfold sendImage. rewrite (try_bind_throw _ _ _ _ _ _ E).
  rewrite log_then_ret, after_after. reflexivity.
Qed.

Lemma resolve_image_string (f : string) (w : world) :
  resolve_image env (VStr f) w = resolve_string env f w.
Proof. reflexivity. Qed.

(** X1: a buffer, and a string that starts with [base64://], are sent
    without any read or download: the data are the buffer encoded, or what
    follows the prefix as it stands, and the name is [image.png]. *)
Theorem sendImage_inline (to : value) (w : world) :
  (forall b,
     sendImage env to (VBuf b) w
     = Ok (image_result env w [] (base64 env b) "image.png" to)
          (after w (image_request env w [] (base64 env b) "image.png" to)))
  /\ (forall f,
        prefix "base64://" f = true ->
        sendImage env to (VStr f) w
        = Ok (image_result env w [] (slice_from 9 f) "image.png" to)
             (after w (image_request env w [] (slice_from 9 f) "image.png"
                         to))).
Proof.
  split.
  - intros b. apply sendImage_resolved. now rewrite after_nil.
  - intros f Hf. apply sendImage_resolved.
    rewrite resolve_image_string, after_nil.
    unfold resolve_string. now rewrite Hf.
Qed.

Lemma prefix_first (a b : ascii) (p s : string) :
  a <> b -> prefix (String a p) s = true -> prefix (String b p) s = false
  /\ forall q, prefix (String b q) s = false.
Proof.
  intros Hab H. destruct s as [| c s]; [discriminate |].
  simpl in H. destruct (ascii_dec a c) as [<- |]; [| discriminate].
  assert (forall q, prefix (String b q) (String a s) = false).
  { intros q. simpl. destruct (ascii_dec b a); [congruence | reflexivity]. }
  split; auto.
Qed.

Lemma file_prefix_only (f : string) :
  prefix "file://" f = true ->
  prefix "base64://" f = false /\ prefix "http://" f = false
  /\ prefix "https://" f = false.
Proof.
  intros H.
  destruct (prefix_first "f" "b" "ile://" f) as [_ Hb];
    [discriminate | exact H |].
  destruct (prefix_first "f" "h" "ile://" f) as [_ Hh];
    [discriminate | exact H |].
  repeat split; [apply Hb | apply Hh | apply Hh].
Qed.

(** X2: a string that starts with [file://] is read at the path that
    follows the prefix.  When the read succeeds the content is sent under
    the base name of the path; when it fails the error is logged and no
    request is made. *)
Theorem sendImage_file_url (to : value) (f : string) (w : world) :
  prefix "file://" f = true ->
  let path := slice_from 7 f in
  match read_file env (trace w) path with
  | inr buf =>
      sendImage env to (VStr f) w
      = Ok (image_result env w [ReadFile path] (base64 env buf)
              (basename env path) to)
           (after w (image_request env w [ReadFile path] (base64 env buf)
                       (basename env path) to))
  | inl err =>
      sendImage env to (VStr f) w
      = Ok VUndef (after w [ReadFile path; image_error to err])
  end.
Proof.
  intros Hf path. destruct (file_prefix_only f Hf) as (H1 & H2 & H3).
  assert (R : resolve_image env (VStr f) w
              = bind (readFile env path)
                  (fun buf => ret (Some (Some (base64 env buf),
                                         basename env path))) w).
  { rewrite resolve_image_string. unfold resolve_string.
    now rewrite H1, H2, H3, Hf. }
  unfold bind, readFile in R.
  destruct (read_file env (trace w) path) as [err | buf].
  - apply (sendImage_thrown to (VStr f) w [ReadFile path] err). exact R.
  - apply sendImage_resolved. exact R.
Qed.

Lemma http_prefix_only (f : string) :
  prefix "http://" f = true \/ prefix "https://" f = true ->
  prefix "base64://" f = false.
Proof.
  intros [H | H].
  - destruct (prefix_first "h" "b" "ttp://" f) as [_ Hb];
      [discriminate | exact H | apply Hb].
  - destruct (prefix_first "h" "b" "ttps://" f) as [_ Hb];
      [discriminate | exact H | apply Hb].
Qed.

(** X3: a string that starts with [http://] or [https://] is downloaded
    first.  A download that fails, or a string that is no URL, is logged as
    an error and nothing is sent; otherwise the body is sent under the name
    [image] with the extension of the path of the URL, or [image.png]. *)
Theorem sendImage_http_url (to : value) (f : string) (w : world) :
  prefix "http://" f = true \/ prefix "https://" f = true ->
  let pre := [download_log f; HttpGet f] in
  match http_get env (trace w ++ [download_log f]) f with
  | inl err =>
      sendImage env to (VStr f) w
      = Ok VUndef (after w (pre ++ [image_error to err]))
  | inr buf =>
      match url_pathname env f with
      | inl err =>
          sendImage env to (VStr f) w
          = Ok VUndef (after w (pre ++ [image_error to err]))
      | inr urlPath =>
          sendImage env to (VStr f) w
          = Ok (image_result env w pre (base64 env buf)
                  (download_name env urlPath) to)
               (after w (image_request env w pre (base64 env buf)
                           (download_name env urlPath) to))
      end
  end.
Proof.
  intros Hf pre. pose proof (http_prefix_only f Hf) as Hb.
  assert (Hh : prefix "http://" f || prefix "https://" f = true).
  { destruct Hf as [-> | ->]; [reflexivity | apply orb_true_r]. }
  assert (R : resolve_image env (VStr f) w
              = (makeLog "info" ("下载图片: " ++ substring 0 80 f ++ "...")
                   self_id ;;
                 buf <- download env f ;;
                 match url_pathname env f with
                 | inl e => throw e
                 | inr urlPath =>
                     ret (Some (Some (base64 env buf),
                                if (extname env urlPath =? "")%string
                                then "image.png"
                                else "image" ++ extname env urlPath))
                 end) w).
  { rewrite resolve_image_string. unfold resolve_string.
    now rewrite Hb, Hh. }
  unfold bind, makeLog, emit, download in R. cbn [registry trace] in R.
  fold (download_log f) in R.
  destruct (http_get env (trace w ++ [download_log f]) f) as [err | buf].
  - apply (sendImage_thrown to (VStr f) w pre err).
    rewrite R. unfold after, pre. cbn [registry trace].
    now rewrite <- app_assoc.
  - destruct (url_pathname env f) as [err | urlPath].
    + apply (sendImage_thrown to (VStr f) w pre err).
      rewrite R. unfold throw, after, pre. cbn [registry trace].
      now rewrite <- app_assoc.
    + apply sendImage_resolved.
      rewrite R. unfold ret, after, pre, download_name. cbn [registry trace].
      now rewrite <- app_assoc.
Qed.

(** X4: a source that is neither a string nor a buffer is logged; when it
    holds a buffer under [buffer], that buffer is sent under the name
    [image.png]; when it does not, the source is turned into a string and
    treated as that string would be. *)
Theorem sendImage_other (to file : value) (w : world) :
  other_source file ->
  (forall b,
     oget file "buffer" = VBuf b ->
     sendImage env to file w
     = Ok (image_result env w [image_kind file] (base64 env b) "image.png"
             to)
          (after w (image_request env w [image_kind file] (base64 env b)
                      "image.png" to)))
  /\ ((forall b, oget file "buffer" <> VBuf b) ->
      sendImage env to file w
      = sendImage env to (VStr (to_string file)) (after w [image_kind file])).
Proof.
  intros Ho. split.
  - intros b Hb. apply sendImage_resolved.
    unfold resolve_image, image_data.
    destruct file; try contradiction; rewrite Hb; reflexivity.
  - intros Hb.
    assert (R : resolve_image env file w
                = resolve_image env (VStr (to_string file))
                    (after w [image_kind file])).
    { rewrite resolve_image_string. unfold resolve_image, image_data.
      destruct file; try contradiction;
        (destruct (oget _ "buffer") as [| | | | | held | |] eqn:E;
         [| | | | | exfalso; apply (Hb held); reflexivity | |]);
        reflexivity. }
    unfold sendImage, try_catch, bind. now rewrite R.
Qed.

End ImageSources.

(** ** Messages and their segments *)

Section SegmentFacts.

Import Composer Spec Laws.

Variable env : Composer.environment.

Local Open Scope eff_scope.

Lemma typed_is_object (seg : value) (t : string) :
  get seg "type" = VStr t -> is_string seg = false /\ nullish seg = false.
Proof. destruct seg; simpl; try discriminate; auto. Qed.

Lemma silent_adds_nothing (seg : value) :
  silent seg = true ->
  nullish seg = false /\ forwarded seg = []
  /\ (forall reg, text_parts env reg seg = []) /\ image_sources seg = [].
Proof.
  unfold silent, forwarded, text_parts, image_sources, image_file.
  intros H. repeat (apply orb_true_iff in H; destruct H as [H | H]).
  - apply is_str_true in H. destruct (typed_is_object seg _ H) as [Hs Hn].
    rewrite Hs, H. simpl. auto.
  - apply is_str_true in H. destruct (typed_is_object seg _ H) as [Hs Hn].
    rewrite Hs, H. simpl. auto.
  - apply andb_true_iff in H. destruct H as [H Hf].
    apply is_str_true in H. destruct (typed_is_object seg _ H) as [Hs Hn].
    apply negb_true_iff in Hf. rewrite Hs, H. cbn [is_str String.eqb
      Ascii.eqb Bool.eqb]. rewrite Hf. auto.
  - apply andb_true_iff in H. destruct H as [H Hd].
    apply is_str_true in H. destruct (typed_is_object seg _ H) as [Hs Hn].
    rewrite Hs, H. cbn [is_str String.eqb Ascii.eqb Bool.eqb orb].
    destruct (get seg "data") as [| | | | | | [| n nodes] |];
      try discriminate; auto.
Qed.

Lemma flat_map_without {A} (f : value -> list A) (p : value -> bool)
    (l : list value) :
  (forall x, p x = true -> f x = []) ->
  flat_map f (filter (fun x => negb (p x)) l) = flat_map f l.
Proof.
  intros H. induction l as [| x l IH]; [reflexivity |].
  simpl. destruct (p x) eqn:E; simpl.
  - now rewrite (H x E), IH.
  - now rewrite IH.
Qed.

Lemma well_formed_without (p : value -> bool) (l : list value) :
  Forall well_formed l -> Forall well_formed (filter p l).
Proof.
  intros H. apply Forall_forall. intros x Hx.
  apply filter_In in Hx. rewrite Forall_forall in H. now apply H.
Qed.

(** X5: replies, buttons, images with no source and forward nodes with no
    child add nothing: a message sends the same with them and without
    them. *)
Theorem silent_segments_dropped (to : value) (segs : list value) (w : world) :
  Forall well_formed segs ->
  sendMsgSmart env to (VArr (filter (fun seg => negb (silent seg)) segs)) w
  = sendMsgSmart env to (VArr segs) w.
Proof.
  intros Hwf.
  rewrite (sendMsgSmart_decompose env to
             (VArr (filter (fun seg => negb (silent seg)) segs)) w eq_refl
             (well_formed_without _ segs Hwf)).
  rewrite (sendMsgSmart_decompose env to (VArr segs) w eq_refl Hwf).
  cbn [as_segments]. unfold text_then_images, text_payload.
  rewrite (flat_map_without forwarded silent segs)
    by (intros x Hx; apply silent_adds_nothing, Hx).
  rewrite (flat_map_without image_sources silent segs)
    by (intros x Hx; apply silent_adds_nothing, Hx).
  apply bind_ext; [reflexivity |]. intros _ w1.
  rewrite (flat_map_without (text_parts env (registry w1)) silent segs)
    by (intros x Hx; apply silent_adds_nothing, Hx).
  reflexivity.
Qed.

Lemma segments_loop_app (self : value -> value -> M value) (to : value)
    (l1 l2 : list value) :
  forall tp it w,
    segments_loop env self to (l1 ++ l2) tp it w
    = bind (segments_loop env self to l1 tp it)
        (fun st => segments_loop env self to l2 (fst st) (snd st)) w.
Proof.
  induction l1 as [| seg l1 IH]; intros tp it w.
  - reflexivity.
  - cbn [app segments_loop]. rewrite bind_assoc.
    apply bind_ext; [reflexivity |]. intros st w1. apply IH.
Qed.

(** X6: a message with an [undefined] or [null] segment throws, and when
    no forward node stands before that segment nothing at all is sent, not
    even the text and the images that stand before it. *)
Theorem null_segment_sends_nothing (to nul : value) (pre post : list value)
    (w : world) :
  nullish nul = true ->
  Forall (fun seg => nullish seg = false /\ forwarded seg = []) pre ->
  sendMsgSmart env to (VArr (pre ++ nul :: post)) w = Throw no_type w.
Proof.
  intros Hn Hpre.
  destruct (no_forward_well_formed pre Hpre) as [Hwf Hnone].
  rewrite sendMsgSmart_unfold.
  rewrite (body_of_segments env (sendMsgSmart env) to
             (VArr (pre ++ nul :: post)) eq_refl).
  cbn [as_segments]. unfold bind at 1.
  rewrite segments_loop_app. unfold bind at 1.
  rewrite (segments_loop_decompose env (sendMsgSmart env) to pre
             (steady_sendMsgSmart env to) Hwf [] [] w).
  rewrite Hnone. cbn [for_each]. rewrite ret_bind. unfold ret at 1.
  cbn [segments_loop fst snd]. unfold bind at 1, segment_step.
  destruct nul; try discriminate; reflexivity.
Qed.

Lemma parse_is_single (s2n : string -> option Z) (parsed raw : value) :
  Normalizer.parseMsgContent s2n parsed raw
  = Normalizer.single (Normalizer.display
                         (Normalizer.parseMsgContent s2n parsed raw)).
Proof.
  unfold Normalizer.parseMsgContent.
  repeat match goal with
         | |- context [if ?b then _ else _] => destruct b
         end; reflexivity.
Qed.

(** X7: the segments of a normalised frame can be sent back as they are:
    when the display is a string, they send that string, trimmed, in one
    text send, and nothing when it is blank. *)
Theorem normalised_segments_echo (s2n : string -> option Z)
    (to parsed raw : value) (d : string) (w : world) :
  Normalizer.display (Normalizer.parseMsgContent s2n parsed raw) = VStr d ->
  sendMsgSmart env to
    (VArr (Normalizer.segments (Normalizer.parseMsgContent s2n parsed raw))) w
  = ((if negb (trim d =? "")%string then sendText env to (VStr (trim d))
      else ret VUndef) ;;
     ret VUndef) w.
Proof.
  intros Hd. rewrite parse_is_single, Hd.
  cbn [Normalizer.segments Normalizer.single].
  rewrite (sendMsgSmart_decompose env to
             (VArr [Normalizer.text_seg (VStr d)]) w eq_refl);
    [| repeat constructor].
  cbn [as_segments flat_map forwarded Normalizer.text_seg get assoc is_str
       String.eqb Ascii.eqb Bool.eqb app map for_each].
  rewrite ret_bind.
  unfold text_then_images, text_payload.
  cbn [flat_map text_parts image_sources Normalizer.text_seg is_string get
       assoc String.eqb Ascii.eqb Bool.eqb is_str oget nullish app].
  assert (J : join_values [or_ (or_ (VStr d) VUndef) (VStr "")] = d).
  { destruct (String.eqb_spec d "") as [-> | n]; [reflexivity |].
    apply String.eqb_neq in n. unfold or_. cbn [truthy]. rewrite n.
    cbn [negb truthy]. rewrite n. reflexivity. }
  rewrite J. cbn [for_each].
  apply bind_ext; [reflexivity |]. intros _ w1. reflexivity.
Qed.

End SegmentFacts.

(** ** The maps of the directory *)

Section MapFacts.

Lemma depth_field (k : string) (x : value) (fs : list (string * value)) :
  In (k, x) fs -> (depth x < depth (VObj fs))%nat.
Proof.
  simpl. induction fs as [| [k' y] fs IH]; simpl; [contradiction |].
  intros [E | H]; [injection E as -> ->; lia |]. specialize (IH H). lia.
Qed.

Lemma value_eqb_array (l1 : list value) :
  (forall x, In x l1 -> forall y, value_eqb x y = true -> x = y) ->
  forall l2, value_eqb (VArr l1) (VArr l2) = true -> l1 = l2.
Proof.
  induction l1 as [| x l1 IH]; intros H [| y l2] E; try discriminate;
    [reflexivity |].
  cbn in E. apply andb_true_iff in E. destruct E as [E1 E2].
  f_equal; [apply H; [now left | exact E1] |].
  apply IH; [intros z Hz; apply H; now right | exact E2].
Qed.

Lemma value_eqb_object (l1 : list (string * value)) :
  (forall k x, In (k, x) l1 -> forall y, value_eqb x y = true -> x = y) ->
  forall l2, value_eqb (VObj l1) (VObj l2) = true -> l1 = l2.
Proof.
  induction l1 as [| [k x] l1 IH]; intros H [| [k' y] l2] E;
    try discriminate; [reflexivity |].
  cbn in E. apply andb_true_iff in E. destruct E as [E E2].
  apply andb_true_iff in E. destruct E as [E0 E1].
  apply String.eqb_eq in E0. subst k'.
  f_equal; [f_equal; apply (H k); [now left | exact E1] |].
  apply IH; [intros k1 z Hz; apply (H k1); now right | exact E2].
Qed.

Lemma value_eqb_sound_upto (n : nat) :
  forall a, (depth a < n)%nat -> forall b, value_eqb a b = true -> a = b.
Proof.
  induction n as [| n IH]; intros a Ha b E; [lia |].
  destruct a, b; try discriminate E; try reflexivity.
  - apply Bool.eqb_prop in E. now subst.
  - apply Z.eqb_eq in E. now subst.
  - apply String.eqb_eq in E. now subst.
  - cbn in E. apply String.eqb_eq in E. f_equal.
    rewrite <- (list_byte_of_string_of_list_byte bytes),
      <- (list_byte_of_string_of_list_byte bytes0). now rewrite E.
  - f_equal. apply value_eqb_array; [| exact E].
    intros x Hx. apply IH. pose proof (depth_elem x elems Hx). lia.
  - f_equal. apply value_eqb_object; [| exact E].
    intros k x Hx. apply IH. pose proof (depth_field k x fields Hx). lia.
Qed.

(** Two values the key test takes for the same are the same. *)
Lemma value_eqb_sound (a b : value) : value_eqb a b = true -> a = b.
Proof. apply (value_eqb_sound_upto (S (depth a))). lia. Qed.

Lemma value_eqb_to_string (a : value) (s : string) :
  value_eqb a (VStr s) = true -> a = VStr s.
Proof. apply value_eqb_sound. Qed.

Lemma map_get_set_same (s : string) (v : value) (m : jsmap) :
  map_get (VStr s) (map_set (VStr s) v m) = v.
Proof.
  induction m as [| [k' v'] m IH]; cbn [map_set map_get].
  - cbn. now rewrite String.eqb_refl.
  - destruct (value_eqb (VStr s) k') eqn:E; cbn [map_get]; rewrite E;
      [reflexivity | exact IH].
Qed.

Lemma map_get_set_other (k k' v : value) (m : jsmap) :
  k' <> k -> map_get k (map_set k' v m) = map_get k m.
Proof.
  intros Hk. induction m as [| [k0 v0] m IH]; cbn [map_set map_get].
  - destruct (value_eqb k k') eqn:E; [| reflexivity].
    apply value_eqb_sound in E. congruence.
  - destruct (value_eqb k' k0) eqn:E'; cbn [map_get].
    + apply value_eqb_sound in E'. subst k0.
      destruct (value_eqb k k') eqn:E; [| reflexivity].
      apply value_eqb_sound in E. congruence.
    + destruct (value_eqb k k0); [reflexivity | exact IH].
Qed.

Lemma map_set_string_keys (k v : value) (m : jsmap) :
  filter is_string (map_keys (map_set k v m))
  = filter is_string (map_keys m)
  \/ (exists s, k = VStr s /\ ~ In (VStr s) (map_keys m)
       /\ filter is_string (map_keys (map_set k v m))
          = (filter is_string (map_keys m) ++ [VStr s])%list).
Proof.
  induction m as [| [k0 v0] m IH]; cbn [map_set].
  - destruct k; try (left; reflexivity).
    right. exists s. split; [reflexivity |]. split; [intros [] | reflexivity].
  - destruct (value_eqb k k0) eqn:E; [left; reflexivity |].
    unfold map_keys in *. cbn [map fst filter].
    destruct IH as [IH | (s & -> & Hn & IH)].
    + left. now rewrite IH.
    + right. exists s. split; [reflexivity |]. split.
      * intros [H | H]; [| now apply Hn]. subst k0.
        cbn in E. rewrite String.eqb_refl in E. discriminate.
      * rewrite IH. now destruct (is_string k0).
Qed.

Lemma NoDup_map_set (k v : value) (m : jsmap) :
  NoDup (filter is_string (map_keys m)) ->
  NoDup (filter is_string (map_keys (map_set k v m))).
Proof.
  intros H. destruct (map_set_string_keys k v m) as [-> | (s & -> & Hn & ->)];
    [exact H |].
  apply NoDup_app; [exact H | repeat constructor; intros [] |].
  intros x Hx [<- | []]. apply filter_In in Hx. now apply Hn.
Qed.

Lemma keyed_map_set (field : string) (k v : value) (m : jsmap) :
  get v field = k ->
  Session.keyed field m -> Session.keyed field (map_set k v m).
Proof.
  intros Hv H. induction H as [| [k0 v0] m H0 Hm IH]; cbn [map_set].
  - repeat constructor. exact Hv.
  - destruct (value_eqb k k0) eqn:E.
    + apply value_eqb_sound in E. subst k0. constructor; [exact Hv | exact Hm].
    + constructor; [exact H0 | exact IH].
Qed.

Lemma keyed_values (field : string) (m : jsmap) :
  Session.keyed field m ->
  map (fun v => get v field) (map snd m) = map fst m.
Proof.
  induction 1 as [| [k v] m H _ IH]; [reflexivity |].
  cbn [map fst snd]. cbn in H. now rewrite H, IH.
Qed.

Lemma map_get_absent (k : value) (m : jsmap) :
  ~ In k (map_keys m) -> map_get k m = VUndef.
Proof.
  induction m as [| [k0 v0] m IH]; intros H; cbn [map_get]; [reflexivity |].
  destruct (value_eqb k k0) eqn:E.
  - apply value_eqb_sound in E. subst k0. exfalso. apply H. now left.
  - apply IH. intros Hin. apply H. now right.
Qed.

End MapFacts.

(** ** The session and its directory *)

Section SessionFacts.

Import Connection Spec Handles Session.

Variable env : Connection.environment.

Local Open Scope eff_scope.

Section Keeping.

Variable I : state -> Prop.

Hypothesis I_frame :
  forall w w1, registry w1 = registry w -> uin w1 = uin w -> I w -> I w1.

Lemma keeps_ret {A} (a : A) : keeps I (ret a).
Proof. intros w H. exact H. Qed.

Lemma keeps_throw {A} (e : error) : keeps I (@throw state A e).
Proof. intros w H. exact H. Qed.

Lemma keeps_bind {A B} (m : M A) (k : A -> M B) :
  keeps I m -> (forall a, keeps I (k a)) -> keeps I (bind m k).
Proof.
  intros Hm Hk w H. specialize (Hm w H). unfold bind.
  destruct (m w) as [a w1 | e w1 |]; [| exact Hm | exact Logic.I].
  apply (Hk a w1 Hm).
Qed.

Lemma keeps_try_catch {A} (m : M A) (h : error -> M A) :
  keeps I m -> (forall e, keeps I (h e)) -> keeps I (try_catch m h).
Proof.
  intros Hm Hh w H. specialize (Hm w H). unfold try_catch.
  destruct (m w) as [a w1 | e w1 |]; [exact Hm | | exact Logic.I].
  apply (Hh e w1 Hm).
Qed.

Lemma keeps_get_state : keeps I get_state.
Proof. intros w H. exact H. Qed.

Lemma keeps_emit (e : event) : keeps I (emit e).
Proof. intros w H. cbn. now apply (I_frame w). Qed.

Lemma keeps_makeLog (level : string) (message : value) (id : string) :
  keeps I (makeLog level message id).
Proof. apply keeps_emit. Qed.

Lemma keeps_setTimeout (cb : callback) (delay : Z) :
  keeps I (setTimeout cb delay).
Proof. intros w H. cbn. now apply (I_frame w). Qed.

Lemma keeps_set_connected (b : bool) : keeps I (set_connected b).
Proof. intros w H. cbn. now apply (I_frame w). Qed.

Lemma keeps_fetch (url : string) (k : awaiting) : keeps I (fetch url k).
Proof. intros w H. cbn. now apply (I_frame w). Qed.

Lemma keeps_connectWs : keeps I (connectWs env).
Proof.
  intros w H. unfold connectWs, bind, get_state, emit, makeLog, setTimeout.
  destruct (ws_construct env (trace w)); cbn; now apply (I_frame w).
Qed.

Lemma keeps_run_handler (m : M unit) (w : state) :
  keeps I m -> I w -> I (run_handler m w).
Proof.
  intros Hm H. specialize (Hm w H). unfold run_handler.
  now destruct (m w).
Qed.

End Keeping.

Lemma session_frame (w w1 : state) :
  registry w1 = registry w -> uin w1 = uin w -> session w -> session w1.
Proof. unfold session. now intros -> ->. Qed.

Lemma keeps_gl_set (k v : value) :
  get v "group_id" = k -> keeps session (gl_set k v).
Proof.
  intros Hv w H. unfold gl_set, bind, get_state.
  destruct (registry w) as [b |] eqn:Er; [| exact H].
  unfold session in *. rewrite Er in H. cbn.
  destruct H as [(F & G & NF & NG) U]. split; [| exact U].
  repeat split; cbn; auto using keyed_map_set, NoDup_map_set.
Qed.

Lemma keeps_fl_set (k v : value) :
  get v "user_id" = k -> keeps session (fl_set k v).
Proof.
  intros Hv w H. unfold fl_set, bind, get_state.
  destruct (registry w) as [b |] eqn:Er; [| exact H].
  unfold session in *. rewrite Er in H. cbn.
  destruct H as [(F & G & NF & NG) U]. split; [| exact U].
  repeat split; cbn; auto using keyed_map_set, NoDup_map_set.
Qed.

Ltac keeps_step :=
  match goal with
  | |- keeps _ (ret _) => apply keeps_ret
  | |- keeps _ (throw _) => apply keeps_throw
  | |- keeps _ get_state => apply keeps_get_state
  | |- keeps _ (emit _) => apply keeps_emit; exact session_frame
  | |- keeps _ (makeLog _ _ _) => apply keeps_makeLog; exact session_frame
  | |- keeps _ (set_connected _) =>
      apply keeps_set_connected; exact session_frame
  | |- keeps _ (setTimeout _ _) => apply keeps_setTimeout; exact session_frame
  | |- keeps _ (fetch _ _) => apply keeps_fetch; exact session_frame
  | |- keeps _ (gl_set _ _) => apply keeps_gl_set; reflexivity
  | |- keeps _ (fl_set _ _) => apply keeps_fl_set; reflexivity
  | |- keeps _ (bind _ _) => apply keeps_bind; [| intros ?]
  | |- keeps _ (try_catch _ _) => apply keeps_try_catch; [| intros ?]
  | |- keeps _ (if ?b then _ else _) => destruct b
  | |- keeps _ (match ?x with _ => _ end) => destruct x
  | |- keeps _ (let _ := _ in _) => cbv zeta
  end.

Lemma keeps_on_message (raw : string) : keeps session (on_message env raw).
Proof.
  unfold on_message, onMessage, db_message, listen_message, update_directory,
    is_group, has_marker.
  repeat keeps_step.
Qed.

Lemma keeps_initBot_status (r : error + value) :
  keeps session (initBot_status env r).
Proof. unfold initBot_status. repeat keeps_step. Qed.

Lemma add_contact_in_order (c : value) (fl gl fl' gl' : jsmap) :
  add_contact c (fl, gl) = inr (fl', gl') ->
  in_order fl gl -> in_order fl' gl'.
Proof.
  unfold add_contact. intros E (F & G & NF & NG).
  destruct (nullish c); [discriminate |].
  destruct (truthy (contact_id c)); [| injection E as <- <-; now repeat split].
  destruct (includes_method (contact_id c) "@chatroom") as [[] |];
    [| | discriminate]; injection E as <- <-;
    repeat split; auto using keyed_map_set, NoDup_map_set.
Qed.

Lemma add_contacts_in_order (contacts : list value) :
  forall fl gl fl' gl',
    add_contacts contacts (fl, gl) = inr (fl', gl') ->
    in_order fl gl -> in_order fl' gl'.
Proof.
  induction contacts as [| c contacts IH]; intros fl gl fl' gl' E H.
  - injection E as <- <-. exact H.
  - cbn [add_contacts] in E.
    destruct (add_contact c (fl, gl)) as [e | [fl1 gl1]] eqn:E1;
      [discriminate |].
    apply (IH fl1 gl1); [exact E |]. now apply (add_contact_in_order c fl gl).
Qed.

Lemma build_lists_in_order (contacts : value) (fl gl : jsmap) :
  build_lists contacts = inr (fl, gl) -> in_order fl gl.
Proof.
  unfold build_lists. destruct (iterate contacts) as [e | l]; [discriminate |].
  intros E. apply (add_contacts_in_order l [] []); [exact E |].
  repeat split; constructor.
Qed.

Lemma register_session (status contacts : value) (w : state) :
  session w ->
  match (match build_lists contacts with
         | inl e => throw e
         | inr (fl, gl) =>
             w <- get_state ;;
             set_registry
               (Some (mkBot fl gl (now w)
                        (or_ (get status "version") (VStr "0.4.0")))) ;;
             (if existsb (String.eqb self_id) (uin w) then ret tt
              else set_uin (uin w ++ [self_id])%list) ;;
             makeLog "mark"
               (VStr (adapter_name ++ " v" ++
                      to_string (get status "version") ++
                      " 已连接 (" ++ dec (Z.of_nat (List.length fl)) ++
                      "好友, " ++ dec (Z.of_nat (List.length gl)) ++ "群)"))
               self_id ;;
             emit (Emit ("connect." ++ self_id) (Connect self_id))
         end) w with
  | Ok _ w1 | Throw _ w1 => session w1
  | OutOfFuel => True
  end.
Proof.
  intros H. destruct (build_lists contacts) as [e | [fl gl]] eqn:Eb;
    [exact H |].
  apply build_lists_in_order in Eb.
  unfold bind, get_state, set_registry, set_uin, makeLog, emit, ret, session
    in *.
  cbn [connected ws listening sockets registry uin timers pending now trace].
  destruct (registry w) as [b |].
  - destruct H as [_ ->]. cbn [existsb].
    change (String.eqb self_id self_id) with true. cbn [orb].
    cbn [connected ws listening sockets registry uin timers pending now
         trace]. split; [exact Eb | reflexivity].
  - rewrite H. cbn [existsb app].
    cbn [connected ws listening sockets registry uin timers pending now
         trace]. split; [exact Eb | reflexivity].
Qed.

Lemma keeps_initBot_contacts (status : value) (r : error + value) :
  keeps session (initBot_contacts status r).
Proof.
  intros w H. unfold initBot_contacts. unfold bind at 1.
  destruct r as [e | data]; [| destruct (nullish data)].
  - unfold bind at 1, makeLog at 1, emit at 1, ret at 1.
    apply register_session. now apply (session_frame w).
  - unfold bind at 1, makeLog at 1, emit at 1, ret at 1.
    apply register_session. now apply (session_frame w).
  - unfold ret at 1. now apply register_session.
Qed.

Lemma step_session (i : input) (w : state) :
  session w -> session (step env i w).
Proof.
  intros H.
  destruct i as [dt | | s | s raw | s | s err | n r]; cbn [step].
  - destruct (_ && _); [| exact H]. now apply (session_frame w).
  - destruct (min_due (timers w)) as [d |]; [| exact H].
    destruct (take_due d (timers w)) as [[cb rest] |]; [| exact H].
    apply keeps_run_handler; [| now apply (session_frame w)].
    destruct cb; [apply keeps_connectWs | apply keeps_fetch];
      exact session_frame.
  - destruct (is_listening s w); [| exact H].
    apply keeps_run_handler; [| exact H].
    unfold on_open, initBot. repeat keeps_step.
  - destruct (is_listening s w); [| exact H].
    apply keeps_run_handler; [apply keeps_on_message | exact H].
  - destruct (is_listening s w); [| exact H].
    apply keeps_run_handler; [| now apply (session_frame w)].
    unfold on_close. repeat keeps_step.
  - destruct (is_listening s w); [| exact H].
    apply keeps_run_handler; [| exact H].
    unfold on_error. repeat keeps_step.
  - destruct (nth_error (pending w) n) as [k |]; [| exact H].
    apply keeps_run_handler; [| now apply (session_frame w)].
    destruct k; [apply keeps_initBot_status | apply keeps_initBot_contacts].
Qed.

Lemma run_session (inputs : list input) (w : state) :
  session w -> session (run env inputs w).
Proof.
  revert w. induction inputs as [| i inputs IH]; intros w H; [exact H |].
  cbn [run]. apply IH. now apply step_session.
Qed.

Lemma loaded_session : session (loaded env).
Proof.
  unfold loaded. apply keeps_run_handler; [| reflexivity].
  unfold load. apply keeps_bind; [apply keeps_makeLog | intros _;
    apply keeps_connectWs]; exact session_frame.
Qed.

(** X8: however the adapter is driven once it is loaded, the session and
    its directory stay in order.  Until the session is registered
    [Bot.uin], empty when the adapter is loaded, holds nothing; from then
    on it holds the identifier of the adapter exactly once, however often
    the adapter logs in again; every friend listed is filed under its own
    [user_id] and every group under its own [group_id], so that the lists
    of identifiers are the identifiers of the arrays, and no string is
    listed twice. *)
Theorem directory_in_order (inputs : list input) :
  let w := run env inputs (loaded env) in
  match registry w with
  | None => uin w = []
  | Some b =>
      uin w = [self_id]
      /\ map (fun v => get v "user_id") (getFriendArray b) = getFriendList b
      /\ map (fun v => get v "group_id") (getGroupArray b) = getGroupList b
      /\ NoDup (filter is_string (getFriendList b))
      /\ NoDup (filter is_string (getGroupList b))
  end.
Proof.
  intros w. pose proof (run_session inputs (loaded env) loaded_session) as H.
  fold w in H. unfold session in H.
  destruct (registry w) as [b |]; [| exact H].
  destruct H as [(F & G & NF & NG) U].
  split; [exact U |].
  split; [apply keyed_values, F |].
  split; [apply keyed_values, G |].
  split; [exact NF | exact NG].
Qed.

End SessionFacts.

(** ** The contacts, the handles and the mentions *)

Section HandleFacts.

Import Composer Spec Handles Session.

Variable env : Composer.environment.

Local Open Scope eff_scope.

Lemma add_contact_lookup (c : value) (fl gl fl' gl' : jsmap) (k : value) :
  Connection.add_contact c (fl, gl) = inr (fl', gl') ->
  Connection.contact_id c <> k ->
  map_get k fl' = map_get k fl /\ map_get k gl' = map_get k gl.
Proof.
  unfold Connection.add_contact. intros E Hk.
  destruct (nullish c); [discriminate |].
  destruct (truthy (Connection.contact_id c));
    [| injection E as <- <-; auto].
  destruct (includes_method (Connection.contact_id c) "@chatroom")
    as [[] |]; [| | discriminate];
    injection E as <- <-; split; auto using map_get_set_other.
Qed.

Lemma add_contacts_lookup (k : value) (post : list value) :
  Forall (fun c => Connection.contact_id c <> k) post ->
  forall fl gl fl' gl',
    Connection.add_contacts post (fl, gl) = inr (fl', gl') ->
    map_get k fl' = map_get k fl /\ map_get k gl' = map_get k gl.
Proof.
  induction 1 as [| c post Hc _ IH]; intros fl gl fl' gl' E.
  - injection E as <- <-. auto.
  - cbn [Connection.add_contacts] in E.
    destruct (Connection.add_contact c (fl, gl)) as [e | [fl1 gl1]] eqn:E1;
      [discriminate |].
    destruct (add_contact_lookup c fl gl fl1 gl1 k E1 Hc) as [F1 G1].
    destruct (IH fl1 gl1 fl' gl' E) as [F2 G2]. split; congruence.
Qed.

Lemma add_contacts_app (pre post : list value) (lists : jsmap * jsmap) :
  Connection.add_contacts (pre ++ post) lists
  = match Connection.add_contacts pre lists with
    | inl e => inl e
    | inr lists' => Connection.add_contacts post lists'
    end.
Proof.
  revert lists. induction pre as [| c pre IH]; intros lists; [reflexivity |].
  cbn [app Connection.add_contacts].
  destruct (Connection.add_contact c lists); [reflexivity | apply IH].
Qed.

Lemma add_contact_here (c : value) (id : string) (fl gl : jsmap) :
  Connection.contact_id c = VStr id -> id <> "" ->
  Connection.add_contact c (fl, gl)
  = inr (if includes id marker
         then (fl, map_set (VStr id) (contact_group c) gl)
         else (map_set (VStr id) (contact_info c) fl, gl)).
Proof.
  intros Hc Hid. unfold Connection.add_contact, contact_group, contact_info.
  assert (Hn : nullish c = false).
  { destruct c; try reflexivity; discriminate Hc. }
  rewrite Hn, Hc. apply truthy_string in Hid. rewrite Hid.
  cbn [includes_method]. fold marker.
  now destruct (includes id marker).
Qed.

Lemma last_contact_wins (pre post : list value) (c : value) (id : string)
    (fl gl : jsmap) :
  Connection.build_lists (VArr (pre ++ c :: post)) = inr (fl, gl) ->
  Connection.contact_id c = VStr id -> id <> "" ->
  Forall (fun c' => Connection.contact_id c' <> VStr id) post ->
  if includes id marker
  then map_get (VStr id) gl = contact_group c
  else map_get (VStr id) fl = contact_info c.
Proof.
  unfold Connection.build_lists. cbn [Connection.iterate].
  intros E Hc Hid Hpost. rewrite add_contacts_app in E.
  destruct (Connection.add_contacts pre ([], [])) as [e | [fl1 gl1]];
    [discriminate |].
  cbn [Connection.add_contacts] in E.
  rewrite (add_contact_here c id fl1 gl1 Hc Hid) in E.
  destruct (includes id marker);
    destruct (add_contacts_lookup (VStr id) post Hpost _ _ _ _ E) as [F G].
  - rewrite G. apply map_get_set_same.
  - rewrite F. apply map_get_set_same.
Qed.

Lemma contact_name_by_id (c : value) (id : string) :
  Connection.contact_id c = VStr id -> id <> "" ->
  or_ (or_ (get c "display_name") (get c "username")) (VStr id)
  = contact_name c.
Proof.
  intros Hc Hid. rewrite <- Hc. apply truthy_string in Hid.
  rewrite <- Hc in Hid. revert Hid. clear Hc.
  unfold Connection.contact_id, contact_name, or_.
  generalize (get c "display_name") (get c "username") (get c "wxid").
  intros d u x.
  destruct (truthy d) eqn:D; rewrite ?D; [reflexivity |].
  destruct (truthy u) eqn:U; rewrite ?U; [reflexivity |].
  destruct (truthy x) eqn:X; rewrite ?X; [reflexivity |].
  rewrite D. discriminate.
Qed.

(** X9: once the contacts are loaded, a contact is addressed by its name:
    the handle [pickFriend] makes for the identifier of a friend carries the
    record of the last contact with that identifier, and what is sent
    through it goes to the display name of that contact, else to its
    username, else to its [wxid]; and so for [pickGroup] and a group. *)
Theorem contact_addressed_by_name (pre post : list value) (c : value)
    (id : string) (fl gl : jsmap) (t : Z) (v : value) (w : world) :
  Connection.build_lists (VArr (pre ++ c :: post)) = inr (fl, gl) ->
  Connection.contact_id c = VStr id -> id <> "" ->
  Forall (fun c' => Connection.contact_id c' <> VStr id) post ->
  registry w = Some (mkBot fl gl t v) ->
  (includes id marker = false ->
   exists h,
     pickFriend (VStr id) w = Ok h w
     /\ getInfo h = contact_info c
     /\ (forall msg,
           friend_sendMsg env h msg w
           = (makeLog "info" "发送好友消息" (arrow_id (contact_name c)) ;;
              sendMsgSmart env (contact_name c) msg) w)
     /\ (forall file,
           friend_sendFile env h file w
           = sendImage env (contact_name c) file w))
  /\ (includes id marker = true ->
      exists h,
        pickGroup (VStr id) w = Ok h w
        /\ getInfo h = contact_group c
        /\ (forall msg,
              group_sendMsg env h msg w
              = (makeLog "info" "发送群消息" (arrow_id (contact_name c)) ;;
                 sendMsgSmart env (contact_name c) msg) w)
        /\ (forall file,
              group_sendFile env h file w
              = sendImage env (contact_name c) file w)).
Proof.
  intros E Hc Hid Hpost Hr.
  pose proof (last_contact_wins pre post c id fl gl E Hc Hid Hpost) as L.
  pose proof (contact_name_by_id c id Hc Hid) as N.
  split; intros Hm; rewrite Hm in L.
  - exists (mkHandle (VStr id) (contact_info c)).
    assert (P : pickFriend (VStr id) w
                = Ok (mkHandle (VStr id) (contact_info c)) w).
    { unfold pickFriend, friend_info. rewrite Hr. cbn [Host.fl]. now rewrite L. }
    assert (T : friend_to (mkHandle (VStr id) (contact_info c))
                = contact_name c).
    { unfold friend_to. cbn [getInfo handle_id]. exact N. }
    split; [exact P |]. split; [reflexivity |].
    split; [intros msg | intros file];
      unfold friend_sendMsg, friend_sendFile; now rewrite T.
  - exists (mkHandle (VStr id) (contact_group c)).
    assert (P : pickGroup (VStr id) w
                = Ok (mkHandle (VStr id) (contact_group c)) w).
    { unfold pickGroup, group_info. rewrite Hr. cbn [Host.gl]. now rewrite L. }
    assert (T : group_to (mkHandle (VStr id) (contact_group c))
                = contact_name c).
    { unfold group_to. cbn [getInfo handle_id]. exact N. }
    split; [exact P |]. split; [reflexivity |].
    split; [intros msg | intros file];
      unfold group_sendMsg, group_sendFile; now rewrite T.
Qed.

Lemma or_again (d u i : value) :
  or_ (or_ (or_ d u) u) i = or_ (or_ d u) i.
Proof.
  unfold or_.
  destruct (truthy d) eqn:D; rewrite ?D; [reflexivity |].
  destruct (truthy u) eqn:U; rewrite ?U; reflexivity.
Qed.

(** X10: a mention of a friend of the contact list is written with the
    name of that friend: a message that is this one mention sends [@], the
    display name, else the username, else the [wxid], and the separator,
    trimmed like any text. *)
Theorem mention_by_name (pre post : list value) (c : value)
    (id : string) (fl gl : jsmap) (t : Z) (v : value) (to : value)
    (w : world) :
  Connection.build_lists (VArr (pre ++ c :: post)) = inr (fl, gl) ->
  Connection.contact_id c = VStr id -> id <> "" ->
  includes id marker = false ->
  Forall (fun c' => Connection.contact_id c' <> VStr id) post ->
  registry w = Some (mkBot fl gl t v) ->
  let text :=
    trim ("@" ++ to_string (contact_name c) ++ four_per_em_space) in
  sendMsgSmart env to (VArr [at_segment id]) w
  = ((if negb (text =? "")%string then sendText env to (VStr text)
      else ret VUndef) ;;
     ret VUndef) w.
Proof.
  intros E Hc Hid Hm Hpost Hr text.
  pose proof (last_contact_wins pre post c id fl gl E Hc Hid Hpost) as L.
  rewrite Hm in L.
  pose proof (contact_name_by_id c id Hc Hid) as N.
  rewrite sendMsgSmart_unfold.
  unfold sendMsgSmart_body. cbn [segments_loop].
  unfold segment_step, at_segment.
  cbn [is_string nullish get assoc is_str String.eqb Ascii.eqb Bool.eqb].
  assert (U : or_ (or_ (VStr id) (oget VUndef "qq")) (VStr "") = VStr id).
  { apply truthy_string in Hid. unfold or_ at 2. rewrite Hid.
    unfold or_. now rewrite Hid. }
  rewrite U. unfold bind at 1. unfold bind at 1. unfold bind at 1.
  unfold lookup_friend. rewrite Hr. cbn [Host.fl]. rewrite L.
  unfold ret at 1. unfold ret at 1. cbn [fst snd].
  assert (Nm : or_ (or_ (oget (contact_info c) "nickname")
                        (oget (contact_info c) "user_name")) (VStr id)
               = contact_name c).
  { rewrite <- N. unfold contact_info.
    cbn [oget nullish get assoc String.eqb Ascii.eqb Bool.eqb].
    apply or_again. }
  rewrite Nm. unfold finish, push. cbn [app for_each].
  unfold join_values. cbn [map nullish to_string join].
  fold text. apply bind_ext; [reflexivity |]. intros _ w1. reflexivity.
Qed.

(** X11: an identifier the directory does not have is its own recipient:
    whether no session is registered or the session does not list it, what
    is sent through the handle of a friend, or of a group, goes to the
    identifier the handle was asked for. *)
Theorem unknown_identifier_is_recipient (id : value) (w : world) :
  (match registry w with
   | Some b => ~ In id (getFriendList b)
   | None => True
   end ->
   exists h,
     pickFriend id w = Ok h w
     /\ (forall msg,
           friend_sendMsg env h msg w
           = (makeLog "info" "发送好友消息" (arrow_id id) ;;
              sendMsgSmart env id msg) w)
     /\ (forall file,
           friend_sendFile env h file w = sendImage env id file w))
  /\ (match registry w with
      | Some b => ~ In id (getGroupList b)
      | None => True
      end ->
      exists h,
        pickGroup id w = Ok h w
        /\ (forall msg,
              group_sendMsg env h msg w
              = (makeLog "info" "发送群消息" (arrow_id id) ;;
                 sendMsgSmart env id msg) w)
        /\ (forall file,
              group_sendFile env h file w = sendImage env id file w)).
Proof.
  split; intros H.
  - exists (mkHandle id (VObj [("user_id", id); ("nickname", id)])).
    split.
    + unfold pickFriend, friend_info. destruct (registry w) as [b |];
        [| reflexivity].
      now rewrite (map_get_absent id (fl b) H).
    + assert (T : friend_to
                    (mkHandle id (VObj [("user_id", id); ("nickname", id)]))
                  = id).
      { unfold friend_to, or_. cbn. now destruct (truthy id). }
      split; [intros msg | intros file];
        unfold friend_sendMsg, friend_sendFile; now rewrite T.
  - exists (mkHandle id (VObj [("group_id", id); ("group_name", id)])).
    split.
    + unfold pickGroup, group_info. destruct (registry w) as [b |];
        [| reflexivity].
      now rewrite (map_get_absent id (gl b) H).
    + assert (T : group_to
                    (mkHandle id (VObj [("group_id", id); ("group_name", id)]))
                  = id).
      { unfold group_to, or_. cbn. now destruct (truthy id). }
      split; [intros msg | intros file];
        unfold group_sendMsg, group_sendFile; now rewrite T.
Qed.

End HandleFacts.

(** ** The frames and the directory *)

Section FrameFacts.

Import Connection Spec Handles Session.

Variable env : Connection.environment.

Local Open Scope eff_scope.

Lemma marker_truthy (v : value) : contains_marker v = true -> truthy v = true.
Proof.
  destruct v; try discriminate. cbn [contains_marker]. intros H.
  apply truthy_string. now apply includes_nonempty.
Qed.

Lemma update_directory_recorded (data g : value) (w : state) (b : bot) :
  identifier (get data "chat") ->
  identifier (get data "talker") ->
  truthy g = contains_marker (get data "chat") ->
  registry w = Some b ->
  update_directory data g (frame_user data)
    (if truthy g then get data "chat" else VUndef) w
  = Ok tt (with_registry (Some (recorded data b)) w).
Proof.
  intros Hc Ht Hg Er.
  assert (Hu : identifier (frame_user data)) by now apply identifier_or.
  destruct w as [c so l sk r u ts p n tr]. cbn in Er. subst r.
  destruct b as [f0 g0 t0 v0].
  unfold update_directory, recorded, bind, get_state.
  cbn [registry]. rewrite Hg.
  destruct (contains_marker (get data "chat")) eqn:Ec.
  - rewrite (marker_truthy _ Ec). cbn [andb].
    fold (frame_group data).
    destruct (truthy (get data "chat_display")).
    + unfold gl_set, bind, get_state, set_registry. cbn [registry Host.fl
        Host.gl start_time_ms version connected ws listening sockets uin
        timers pending now trace].
      destruct Hu as [Hf | [s Hs]].
      * rewrite Hf. reflexivity.
      * fold (frame_friend data). rewrite Hs.
        destruct (truthy (VStr s)); [| reflexivity].
        cbn [has_marker includes_method contains_marker andb].
        fold marker. destruct (includes s marker); [reflexivity |].
        cbn [negb]. unfold fl_set, bind, get_state, set_registry. reflexivity.
    + unfold ret at 1.
      destruct Hu as [Hf | [s Hs]].
      * rewrite Hf. reflexivity.
      * fold (frame_friend data). rewrite Hs.
        destruct (truthy (VStr s)); [| reflexivity].
        cbn [has_marker includes_method contains_marker andb].
        fold marker. destruct (includes s marker); [reflexivity |].
        cbn [negb]. unfold fl_set, bind, get_state, set_registry. reflexivity.
  - cbn [andb]. unfold ret at 1.
    destruct Hu as [Hf | [s Hs]].
    * rewrite Hf. reflexivity.
    * fold (frame_friend data). rewrite Hs.
      destruct (truthy (VStr s)); [| reflexivity].
      cbn [has_marker includes_method contains_marker andb].
      fold marker. destruct (includes s marker); [reflexivity |].
      cbn [negb]. unfold fl_set, bind, get_state, set_registry. reflexivity.
Qed.

Lemma db_message_event (data : value) (w : state) :
  identifier (get data "chat") ->
  identifier (get data "talker") ->
  exists e evs,
    db_message env data w
    = Ok tt (mkState (connected w) (ws w) (listening w) (sockets w)
               (option_map (recorded data) (registry w)) (uin w) (timers w)
               (pending w) (now w) (trace w ++ evs)%list)
    /\ emitted evs = [(("message." ++ e_message_type e)%string, Message e)]
    /\ e_bot e = (match registry w with Some _ => true | None => false end)
    /\ e_user_id e = frame_user data
    /\ e_message_type e
       = (if contains_marker (get data "chat") then "group" else "private")
    /\ e_reply_to e
       = (if contains_marker (get data "chat") then get data "chat_display"
          else or_ (get data "talker_display") (get data "talker"))
    /\ e_message e
       = Normalizer.segments
           (Normalizer.parseMsgContent (StringToNumber env)
              (get data "parsed") (get data "content"))
    /\ e_raw_message e
       = Normalizer.display
           (Normalizer.parseMsgContent (StringToNumber env)
              (get data "parsed") (get data "content"))
    /\ e_time e = or_ (get data "create_time") (VNum (now w / 1000))
    /\ e_message_id e
       = "mimicwx_" ++ to_string (or_ (get data "local_id") (VNum (now w))).
Proof.
  intros Hc Ht. unfold db_message.
  destruct (is_group_identifier (get data "chat") w Hc) as (g & Eg & Tg).
  unfold bind at 1. rewrite Eg.
  unfold bind at 1, get_state at 1.
  assert (U : update_directory data g
                (or_ (get data "talker") (get data "chat"))
                (if truthy g then get data "chat" else VUndef) w
              = Ok tt (with_registry
                         (option_map (recorded data) (registry w)) w)).
  { destruct (registry w) as [b |] eqn:Er.
    - now apply update_directory_recorded.
    - unfold update_directory, bind, get_state. rewrite Er.
      unfold ret. cbn [option_map]. now rewrite <- Er, with_registry_same. }
  unfold bind at 1. rewrite U.
  unfold bind at 1, get_state at 1.
  rewrite Tg.
  destruct (contains_marker (get data "chat"));
    unfold bind, makeLog, emit, with_registry;
    cbn [connected ws listening sockets registry uin timers pending now
         trace];
    rewrite <- app_assoc;
    (eexists (mkEnvelope _ _ _ _ _ _ _ _ _ _ _ _ _); eexists;
     split; [reflexivity |]);
    cbn [emitted app e_bot e_user_id e_message_type e_reply_to e_message
         e_raw_message e_time e_message_id];
    (split; [reflexivity |]); repeat split.
Qed.

Lemma or_absorb (a b : value) : or_ (or_ a b) b = or_ a b.
Proof.
  unfold or_. destruct (truthy a) eqn:A; rewrite ?A; [reflexivity |].
  destruct (truthy b) eqn:B; rewrite ?B; reflexivity.
Qed.

Lemma onMessage_foreign (data : value) (w : state) :
  connected w = true -> foreign_frame data ->
  onMessage env data w = db_message env data w.
Proof.
  intros Hconn [Ht Hs]. unfold onMessage, bind, get_state.
  rewrite Hconn. cbn [negb].
  now rewrite (typed_not_nullish data _ Ht), Ht, Hs.
Qed.

Lemma recorded_elsewhere (data : value) (b : bot) :
  (forall k, k <> frame_user data ->
     map_get k (fl (recorded data b)) = map_get k (fl b))
  /\ (forall k, k <> get data "chat" ->
        map_get k (gl (recorded data b)) = map_get k (gl b)).
Proof.
  unfold recorded. cbn [fl gl]. split; intros k Hk.
  - destruct (_ && _); [| reflexivity]. apply map_get_set_other. congruence.
  - destruct (_ && _); [| reflexivity]. apply map_get_set_other. congruence.
Qed.

(** X12: a frame tells the directory how to answer it.  After a frame of a
    group that carries the display name of the group, the handle
    [pickGroup] makes for the group sends where the [reply] of the event
    sends, to that display name; after a frame of a one-to-one chat, the
    handle [pickFriend] makes for the talker sends where the [reply] of the
    event sends, to the display name of the talker or else to the talker.
    No other entry of the directory is changed. *)
Theorem reply_and_handle_agree (data : value) (w : state) (b : bot)
    (tr : list Composer.event) :
  connected w = true -> registry w = Some b -> foreign_frame data ->
  identifier (get data "chat") -> identifier (get data "talker") ->
  exists e w',
    onMessage env data w = Ok tt w'
    /\ emitted (trace w')
       = (emitted (trace w)
          ++ [(("message." ++ e_message_type e)%string, Message e)])%list
    /\ registry w' = Some (recorded data b)
    /\ (contains_marker (get data "chat") = true ->
        truthy (get data "chat_display") = true ->
        exists h,
          pickGroup (get data "chat") (host_view w' tr)
          = Ok h (host_view w' tr)
          /\ group_to h = e_reply_to e
          /\ e_reply_to e = get data "chat_display")
    /\ (contains_marker (get data "chat") = false ->
        truthy (get data "talker") = true ->
        contains_marker (get data "talker") = false ->
        exists h,
          pickFriend (get data "talker") (host_view w' tr)
          = Ok h (host_view w' tr)
          /\ friend_to h = e_reply_to e
          /\ e_reply_to e
             = or_ (get data "talker_display") (get data "talker"))
    /\ (forall k, k <> frame_user data ->
          map_get k (fl (recorded data b)) = map_get k (fl b))
    /\ (forall k, k <> get data "chat" ->
          map_get k (gl (recorded data b)) = map_get k (gl b)).
Proof.
  intros Hconn Er Hf Hc Ht.
  destruct (db_message_event data w Hc Ht)
    as (e & evs & E & Hev & _ & _ & _ & Hreply & _).
  eexists e, _. rewrite (onMessage_foreign data w Hconn Hf).
  split; [exact E |]. cbn [trace registry]. rewrite Er. cbn [option_map].
  split; [now rewrite emitted_app, Hev |].
  split; [reflexivity |].
  destruct (recorded_elsewhere data b) as [F G].
  split; [| split; [| split; [exact F | exact G]]].
  - intros Hm Hd. rewrite Hm in Hreply.
    exists (mkHandle (get data "chat") (frame_group data)).
    assert (L : map_get (get data "chat") (gl (recorded data b))
                = frame_group data).
    { unfold recorded. cbn [gl]. rewrite Hm, Hd. cbn [andb].
      destruct (get data "chat"); try discriminate Hm.
      apply map_get_set_same. }
    split; [| split; [| exact Hreply]].
    + unfold pickGroup, group_info, host_view.
      cbn [Composer.registry registry]. now rewrite L.
    + rewrite Hreply. unfold group_to, frame_group, or_.
      cbn [getInfo handle_id get assoc String.eqb Ascii.eqb Bool.eqb].
      now rewrite Hd.
  - intros Hm Htr Hmt. rewrite Hm in Hreply.
    assert (U : frame_user data = get data "talker").
    { unfold frame_user, or_. now rewrite Htr. }
    exists (mkHandle (get data "talker") (frame_friend data)).
    assert (L : map_get (get data "talker") (fl (recorded data b))
                = frame_friend data).
    { unfold recorded. cbn [fl]. rewrite U, Htr, Hmt. cbn [andb negb].
      destruct (get data "talker"); try discriminate Htr;
        try (destruct Ht as [Ht | [s Ht]]; [cbn in Ht, Htr; congruence |
                                           discriminate Ht]).
      apply map_get_set_same. }
    split; [| split; [| exact Hreply]].
    + unfold pickFriend, friend_info, host_view.
      cbn [Composer.registry registry]. now rewrite L.
    + rewrite Hreply. unfold friend_to, frame_friend.
      cbn [getInfo handle_id get assoc String.eqb Ascii.eqb Bool.eqb].
      rewrite U. apply or_absorb.
Qed.

Lemma only_directory_refl (w : state) : only_directory w w.
Proof.
  repeat (split; [reflexivity |]). exists []. now rewrite app_nil_r.
Qed.

Lemma only_directory_trans (w w1 w2 : state) :
  only_directory w w1 -> only_directory w1 w2 -> only_directory w w2.
Proof.
  intros (C1 & S1 & L1 & K1 & U1 & T1 & P1 & N1 & evs1 & E1)
         (C2 & S2 & L2 & K2 & U2 & T2 & P2 & N2 & evs2 & E2).
  repeat (split; [congruence |]). exists (evs1 ++ evs2)%list.
  now rewrite E2, E1, app_assoc.
Qed.

Lemma inbound_ret {A} (a : A) : inbound (ret a).
Proof. intros w. apply only_directory_refl. Qed.

Lemma inbound_throw {A} (e : error) : inbound (@throw state A e).
Proof. intros w. apply only_directory_refl. Qed.

Lemma inbound_get_state : inbound get_state.
Proof. intros w. apply only_directory_refl. Qed.

Lemma inbound_bind {A B} (m : M A) (k : A -> M B) :
  inbound m -> (forall a, inbound (k a)) -> inbound (bind m k).
Proof.
  intros Hm Hk w. specialize (Hm w). unfold bind.
  destruct (m w) as [a w1 | e w1 |]; [| exact Hm | exact Hm].
  specialize (Hk a w1).
  destruct (k a w1) as [x w2 | e w2 |]; [| | exact Hk];
    now apply (only_directory_trans w w1 w2).
Qed.

Lemma inbound_emit (e : event) : inbound (emit e).
Proof.
  intros w. cbn. repeat (split; [reflexivity |]). now exists [(now w, e)].
Qed.

Lemma inbound_makeLog (level : string) (message : value) (id : string) :
  inbound (makeLog level message id).
Proof. apply inbound_emit. Qed.

Lemma inbound_set_registry (r : option bot) : inbound (set_registry r).
Proof.
  intros w. cbn. repeat (split; [reflexivity |]). exists [].
  now rewrite app_nil_r.
Qed.

Ltac inbound_step :=
  match goal with
  | |- inbound (ret _) => apply inbound_ret
  | |- inbound (throw _) => apply inbound_throw
  | |- inbound get_state => apply inbound_get_state
  | |- inbound (emit _) => apply inbound_emit
  | |- inbound (makeLog _ _ _) => apply inbound_makeLog
  | |- inbound (set_registry _) => apply inbound_set_registry
  | |- inbound (bind _ _) => apply inbound_bind; [| intros ?]
  | |- inbound (if ?b then _ else _) => destruct b
  | |- inbound (match ?x with _ => _ end) => destruct x
  | |- inbound (let _ := _ in _) => cbv zeta
  end.

Lemma inbound_onMessage (data : value) : inbound (onMessage env data).
Proof.
  unfold onMessage, db_message, listen_message, update_directory, is_group,
    has_marker, gl_set, fl_set.
  repeat inbound_step.
Qed.

(** X13: the handler of the frames never lets an exception out and never
    touches the connection: whatever the frame, it returns, and the
    connected flag, the sockets, the timers, the requests in flight and
    [Bot.uin] are as they were; only the directory can have changed and
    events been added.  A frame that cannot be parsed leaves one error line
    and nothing else; while the adapter is not connected a frame that can
    be parsed leaves nothing at all. *)
Theorem frame_handler_contained (raw : string) (w : state) :
  (exists w', on_message env raw w = Ok tt w' /\ only_directory w w')
  /\ (forall err,
        JSON_parse env raw = inl err ->
        on_message env raw w = Ok tt (logged (frame_error raw err) w))
  /\ (forall data,
        JSON_parse env raw = inr data -> connected w = false ->
        on_message env raw w = Ok tt w).
Proof.
  split; [| split].
  - unfold on_message, try_catch.
    set (m := match JSON_parse env raw with
              | inl e => throw e
              | inr data => onMessage env data
              end).
    assert (H : inbound m).
    { subst m. destruct (JSON_parse env raw);
        [apply inbound_throw | apply inbound_onMessage]. }
    specialize (H w).
    destruct (m w) as [[] w1 | e w1 |]; [| | contradiction].
    + exists w1. now split.
    + eexists. split; [reflexivity |].
      apply (only_directory_trans w w1); [exact H |].
      apply (inbound_makeLog "error" _ "MimicWX" w1).
  - intros err E. unfold on_message, try_catch. rewrite E. reflexivity.
  - intros data E Hc. unfold on_message, try_catch. rewrite E.
    unfold onMessage, bind, get_state. now rewrite Hc.
Qed.

Ltac crunch :=
  unfold run_handler, run_callback, on_open, on_message, on_close, on_error,
    load, connectWs, initBot, initBot_status, fetch, makeLog, emit,
    setTimeout, set_connected, get_state, try_catch, bind, ret, throw;
  cbn [connected ws listening sockets registry uin timers pending now trace].

Lemma step_offline (w0 : state) (i : input) (w : state) :
  match i with Response _ r => not_authenticated r | _ => True end ->
  offline w0 w -> offline w0 (step env i w).
Proof.
  intros Hi (Hc & Hp & He & Hr). unfold offline.
  destruct i as [dt | | s | s raw | s | s err | n r]; cbn [step].
  - destruct (_ && _); cbn; auto.
  - destruct (min_due (timers w)) as [d |]; [| auto].
    destruct (take_due d (timers w)) as [[[] rest] |]; [| | auto].
    + crunch. destruct (ws_construct env (trace w)); cbn;
        rewrite ?emitted_snoc_quiet by discriminate; auto.
    + crunch. rewrite emitted_snoc_quiet by discriminate.
      repeat split; auto. apply Forall_app. split; auto.
  - destruct (is_listening s w); [| auto]. crunch.
    rewrite !emitted_snoc_quiet by discriminate.
    repeat split; auto. apply Forall_app. split; auto.
  - destruct (is_listening s w); [| auto]. crunch.
    destruct (JSON_parse env raw) as [e | data]; cbn.
    + rewrite emitted_snoc_quiet by discriminate. auto.
    + unfold onMessage, bind, get_state. rewrite Hc. cbn. auto.
  - destruct (is_listening s w); [| auto]. crunch.
    rewrite emitted_snoc_quiet by discriminate. auto.
  - destruct (is_listening s w); [| auto]. crunch.
    rewrite emitted_snoc_quiet by discriminate. auto.
  - destruct (nth_error (pending w) n) as [k |] eqn:En; [| auto].
    assert (k = StatusResponse) as ->.
    { rewrite Forall_forall in Hp. apply Hp. eapply nth_error_In, En. }
    pose proof (Forall_remove_nth _ n _ Hp) as Hp'.
    destruct r as [e | status]; crunch.
    + rewrite emitted_snoc_quiet by discriminate. auto.
    + destruct (nullish status); cbn; [auto |].
      cbn in Hi. rewrite Hi. cbn.
      rewrite emitted_snoc_quiet by discriminate. auto.
Qed.

Lemma run_offline (w0 : state) (inputs : list input) (w : state) :
  never_authenticated inputs -> offline w0 w ->
  offline w0 (run env inputs w).
Proof.
  intros H. revert w. induction H as [| i inputs Hi _ IH]; intros w Hw.
  - exact Hw.
  - cbn [run]. apply IH. now apply step_offline.
Qed.

(** X14: once the socket has closed the host hears nothing until the
    adapter has logged in again: whatever comes next, frames included, as
    long as no status poll reports the authenticated state no host event is
    emitted; and the session stays registered as it was, with its
    directory. *)
Theorem silent_until_next_login (w : state) (s : nat) (inputs : list input) :
  is_listening s w = true ->
  Forall (fun k => k = StatusResponse) (pending w) ->
  never_authenticated inputs ->
  let w' := run env inputs (step env (Close s) w) in
  connected w' = false
  /\ emitted (trace w') = emitted (trace w)
  /\ registry w' = registry w.
Proof.
  intros Hs Hp Hin.
  assert (H : offline w (step env (Close s) w)).
  { cbn [step]. rewrite Hs. unfold offline. crunch.
    rewrite emitted_snoc_quiet by discriminate. auto. }
  destruct (run_offline w inputs _ Hin H) as (Hc & _ & He & Hr). auto.
Qed.

(** X15: frames are delivered as soon as the status poll has reported the
    authenticated state, before the contacts have arrived.  The event is
    emitted while the request for the contacts is still in flight; at the
    first login it carries no session object and the talker is not
    recorded, nothing being registered yet. *)
Theorem delivered_before_contacts (w : state) (n s : nat)
    (status data : value) (raw : string) :
  nth_error (pending w) n = Some StatusResponse ->
  is_str (get status "status") "已登录" = true ->
  is_listening s w = true ->
  JSON_parse env raw = inr data ->
  foreign_frame data ->
  identifier (get data "chat") -> identifier (get data "talker") ->
  let w' := run env [Response n (inr status); Incoming s raw] w in
  exists e,
    emitted (trace w')
    = (emitted (trace w)
       ++ [(("message." ++ e_message_type e)%string, Message e)])%list
    /\ e_bot e = (match registry w with Some _ => true | None => false end)
    /\ registry w' = option_map (recorded data) (registry w)
    /\ pending w'
       = (remove_nth n (pending w) ++ [ContactsResponse status])%list.
Proof.
  intros Hn Hst Hs Hp Hf Hc Ht.
  assert (Hnn : nullish status = false).
  { destruct status; simpl in *; try discriminate; reflexivity. }
  assert (E1 : step env (Response n (inr status)) w
               = mkState true (ws w) (listening w) (sockets w) (registry w)
                   (uin w) (timers w)
                   (remove_nth n (pending w) ++ [ContactsResponse status])
                   (now w)
                   (trace w ++ [(now w, Fetch (MIMICWX_URL env ++
                                                "/contacts"))])).
  { cbn [step]. rewrite Hn. crunch. now rewrite Hnn, Hst. }
  cbn [run]. rewrite E1. cbn [step]. unfold is_listening in *.
  cbn [connected ws listening sockets registry uin timers pending now trace].
  rewrite Hs. unfold run_handler, on_message, try_catch. rewrite Hp.
  rewrite onMessage_foreign; [| reflexivity | exact Hf].
  match goal with
  | |- context [db_message env data ?w1] =>
      destruct (db_message_event data w1 Hc Ht)
        as (e & evs & E & Hev & Hbot & _)
  end.
  rewrite E. exists e.
  cbn [connected ws listening sockets registry uin timers pending now trace]
    in *.
  split; [| split; [exact Hbot | split; reflexivity]].
  rewrite !emitted_app, Hev. cbn [emitted app]. now rewrite app_nil_r.
Qed.


(** X17: of the frames that are not [db_message] frames, only the
    [listen_message] frames reach the host.  Such a frame is always
    delivered as a private message, whoever wrote it: the user is its
    sender or else its window, the message its content as one text
    segment, and the reply goes to the window; the directory is not
    touched.  A frame of any other type, a send confirmation among them,
    emits no host event and changes nothing in the directory. *)
Theorem only_messages_reach_host (data : value) (w : state) :
  connected w = true -> nullish data = false ->
  (is_str (get data "type") "listen_message" = true ->
   exists e w',
     onMessage env data w = Ok tt w'
     /\ emitted (trace w')
        = (emitted (trace w) ++ [("message.private", Message e)])%list
     /\ registry w' = registry w
     /\ e_user_id e = or_ (get data "sender") (get data "from")
     /\ e_message e = [Normalizer.text_seg (get data "content")]
     /\ e_reply_to e = get data "from")
  /\ (is_str (get data "type") "db_message" = false ->
      is_str (get data "type") "listen_message" = false ->
      exists w',
        onMessage env data w = Ok tt w'
        /\ emitted (trace w') = emitted (trace w)
        /\ registry w' = registry w).
Proof.
  intros Hc Hn. split.
  - intros Ht.
    assert (Hd : is_str (get data "type") "db_message" = false).
    { destruct (get data "type"); try discriminate Ht. cbn in Ht |- *.
      apply String.eqb_eq in Ht. now subst. }
    unfold onMessage, bind, get_state. rewrite Hc, Hn, Hd, Ht. cbn [negb].
    unfold listen_message, bind, get_state, makeLog, emit.
    cbn [connected ws listening sockets registry uin timers pending now
         trace].
    eexists (mkEnvelope _ _ _ _ _ _ _ _ _ _ _ _ _), _.
    split; [reflexivity |].
    cbn [connected ws listening sockets registry uin timers pending now
         trace].
    rewrite <- app_assoc, emitted_app. cbn [emitted app].
    split; [reflexivity |]. repeat split.
  - intros Hd Hl. unfold onMessage, bind, get_state.
    rewrite Hc, Hn, Hd, Hl. cbn [negb].
    destruct (is_str (get data "type") "sent").
    + eexists. split; [reflexivity |]. unfold makeLog, emit.
      cbn [connected ws listening sockets registry uin timers pending now
           trace].
      rewrite emitted_snoc_quiet by discriminate. auto.
    + eexists. split; [reflexivity |]. auto.
Qed.


End FrameFacts.

(** ** Closed instances of the further properties *)

Section FurtherInstances.

Import Instances Samples Session Handles.

Local Open Scope eff_scope.

Lemma sendImage_inline_witness :
  Composer.sendImage env0 bob (VStr "base64://AAAA") w0
  = Ok (Laws.image_result env0 w0 [] "AAAA" "image.png" bob)
       (Spec.after w0 (Laws.image_request env0 w0 [] "AAAA" "image.png" bob)).
Proof.
  apply (proj2 (sendImage_inline env0 bob w0) "base64://AAAA" eq_refl).
Defined.

Lemma sendImage_file_url_witness :
  Composer.sendImage env0 bob (VStr "file:///tmp/a.png") w0
  = Ok VUndef
       (Spec.after w0 [Composer.ReadFile "/tmp/a.png";
                       Laws.image_error bob (IOError "ENOENT")]).
Proof.
  apply (sendImage_file_url env0 bob "file:///tmp/a.png" w0 eq_refl).
Defined.

Lemma sendImage_http_url_witness :
  Composer.sendImage env0 bob (VStr "https://host/a.png") w0
  = Ok (Laws.image_result env0 w0
          [Laws.download_log "https://host/a.png";
           Composer.HttpGet "https://host/a.png"]
          "QUJD" "image.png" bob)
       (Spec.after w0
          (Laws.image_request env0 w0
             [Laws.download_log "https://host/a.png";
              Composer.HttpGet "https://host/a.png"]
             "QUJD" "image.png" bob)).
Proof.
  apply (sendImage_http_url env0 bob "https://host/a.png" w0
           (or_intror eq_refl)).
Defined.

Lemma sendImage_other_witness :
  Composer.sendImage env0 bob (VObj [("buffer", VBuf [])]) w0
  = Ok (Laws.image_result env0 w0
          [Laws.image_kind (VObj [("buffer", VBuf [])])] "QUJD" "image.png"
          bob)
       (Spec.after w0
          (Laws.image_request env0 w0
             [Laws.image_kind (VObj [("buffer", VBuf [])])] "QUJD"
             "image.png" bob))
  /\ Composer.sendImage env0 bob (VNum 5) w0
     = Composer.sendImage env0 bob (VStr "5")
         (Spec.after w0 [Laws.image_kind (VNum 5)]).
Proof.
  split.
  - apply (proj1 (sendImage_other env0 bob (VObj [("buffer", VBuf [])]) w0 I)
             [] eq_refl).
  - apply (proj2 (sendImage_other env0 bob (VNum 5) w0 I)).
    intros b H. discriminate H.
Defined.

Lemma silent_segments_dropped_witness :
  Composer.sendMsgSmart env0 bob (VArr [Spec.text_segment "a"]) w0
  = Composer.sendMsgSmart env0 bob
      (VArr [VObj [("type", VStr "reply"); ("id", VStr "1")];
             Spec.text_segment "a";
             VObj [("type", VStr "image")]]) w0.
Proof.
  apply (silent_segments_dropped env0 bob
           [VObj [("type", VStr "reply"); ("id", VStr "1")];
            Spec.text_segment "a";
            VObj [("type", VStr "image")]] w0).
  repeat (constructor; [split; [reflexivity | constructor] |]).
  constructor.
Defined.

Lemma null_segment_sends_nothing_witness :
  Composer.sendMsgSmart env0 bob
    (VArr [Spec.text_segment "a"; VNull; Spec.text_segment "b"]) w0
  = Throw Laws.no_type w0.
Proof.
  apply (null_segment_sends_nothing env0 bob VNull [Spec.text_segment "a"]
           [Spec.text_segment "b"] w0 eq_refl).
  constructor; [split; reflexivity | constructor].
Defined.

Lemma normalised_segments_echo_witness :
  Composer.sendMsgSmart env0 bob
    (VArr (Normalizer.segments
             (Normalizer.parseMsgContent no_number VUndef (VStr " hello "))))
    w0
  = ((if negb (trim " hello " =? "")%string
      then Composer.sendText env0 bob (VStr (trim " hello "))
      else ret VUndef) ;;
     ret VUndef) w0.
Proof.
  apply (normalised_segments_echo env0 no_number bob VUndef (VStr " hello ")
           " hello " w0 eq_refl).
Defined.

Lemma contacts0_directory :
  Connection.build_lists (VArr ([] ++ alice :: tl contacts0))
  = inr (fl directory0, gl directory0).
Proof. reflexivity. Defined.

Lemma nobody_else_alice :
  Forall (fun c => Connection.contact_id c <> VStr "alice") (tl contacts0).
Proof. repeat constructor; discriminate. Defined.

Lemma contact_addressed_by_name_witness :
  exists h,
    pickFriend (VStr "alice") w1 = Ok h w1
    /\ getInfo h = contact_info alice
    /\ (forall msg,
          friend_sendMsg env0 h msg w1
          = (Composer.makeLog "info" "发送好友消息"
               (Composer.arrow_id (contact_name alice)) ;;
             Composer.sendMsgSmart env0 (contact_name alice) msg) w1)
    /\ (forall file,
          friend_sendFile env0 h file w1
          = Composer.sendImage env0 (contact_name alice) file w1).
Proof.
  apply (proj1 (contact_addressed_by_name env0 [] (tl contacts0) alice
                  "alice" (fl directory0) (gl directory0) 0 (VStr "0.4.0")
                  w1 contacts0_directory eq_refl
                  (fun H => eq_ind "alice"%string
                              (fun s => match s with
                                        | EmptyString => False
                                        | String _ _ => True
                                        end) I "" H)
                  nobody_else_alice eq_refl) eq_refl).
Defined.

Lemma mention_by_name_witness :
  Composer.sendMsgSmart env0 bob (VArr [at_segment "alice"]) w1
  = ((if negb (trim ("@" ++ to_string (contact_name alice)
                     ++ Composer.four_per_em_space) =? "")%string
      then Composer.sendText env0 bob
             (VStr (trim ("@" ++ to_string (contact_name alice)
                          ++ Composer.four_per_em_space)))
      else ret VUndef) ;;
     ret VUndef) w1.
Proof.
  apply (mention_by_name env0 [] (tl contacts0) alice "alice"
           (fl directory0) (gl directory0) 0 (VStr "0.4.0") bob w1
           contacts0_directory eq_refl).
  - discriminate.
  - reflexivity.
  - exact nobody_else_alice.
  - reflexivity.
Defined.

Lemma unknown_identifier_is_recipient_witness :
  (exists h,
     pickFriend (VStr "carol") w1 = Ok h w1
     /\ (forall msg,
           friend_sendMsg env0 h msg w1
           = (Composer.makeLog "info" "发送好友消息"
                (Composer.arrow_id (VStr "carol")) ;;
              Composer.sendMsgSmart env0 (VStr "carol") msg) w1)
     /\ (forall file,
           friend_sendFile env0 h file w1
           = Composer.sendImage env0 (VStr "carol") file w1))
  /\ (exists h,
        pickGroup (VStr "9@chatroom") w0 = Ok h w0
        /\ (forall msg,
              group_sendMsg env0 h msg w0
              = (Composer.makeLog "info" "发送群消息"
                   (Composer.arrow_id (VStr "9@chatroom")) ;;
                 Composer.sendMsgSmart env0 (VStr "9@chatroom") msg) w0)
        /\ (forall file,
              group_sendFile env0 h file w0
              = Composer.sendImage env0 (VStr "9@chatroom") file w0)).
Proof.
  split.
  - apply (proj1 (unknown_identifier_is_recipient env0 (VStr "carol") w1)).
    simpl. intros [H | []]. discriminate H.
  - apply (proj2 (unknown_identifier_is_recipient env0 (VStr "9@chatroom")
                    w0) I).
Defined.

Lemma reply_and_handle_agree_witness :
  (exists e w',
     Connection.onMessage cenv0 named_group_frame ready = Ok tt w'
     /\ Connection.e_reply_to e = VStr "Family"
     /\ exists h,
          pickGroup (VStr "123@chatroom") (host_view w' [])
          = Ok h (host_view w' [])
          /\ group_to h = VStr "Family")
  /\ (exists e w',
        Connection.onMessage cenv0 named_friend_frame ready = Ok tt w'
        /\ Connection.e_reply_to e = VStr "Alice"
        /\ exists h,
             pickFriend (VStr "alice") (host_view w' [])
             = Ok h (host_view w' [])
             /\ friend_to h = VStr "Alice").
Proof.
  split.
  - destruct (reply_and_handle_agree cenv0 named_group_frame ready
                empty_directory [] eq_refl eq_refl (conj eq_refl eq_refl)
                (or_intror (ex_intro _ _ eq_refl))
                (or_intror (ex_intro _ _ eq_refl)))
      as (e & w' & E & _ & _ & G & _).
    destruct (G eq_refl eq_refl) as (h & P & T & R).
    exists e, w'. split; [exact E |]. split; [exact R |].
    exists h. split; [exact P |]. now rewrite T.
  - destruct (reply_and_handle_agree cenv0 named_friend_frame ready
                empty_directory [] eq_refl eq_refl (conj eq_refl eq_refl)
                (or_intror (ex_intro _ _ eq_refl))
                (or_intror (ex_intro _ _ eq_refl)))
      as (e & w' & E & _ & _ & _ & F & _).
    destruct (F eq_refl eq_refl eq_refl) as (h & P & T & R).
    exists e, w'. split; [exact E |]. split; [exact R |].
    exists h. split; [exact P |]. now rewrite T.
Defined.

Lemma frame_handler_contained_witness :
  Connection.on_message cenv0 "{" ready
  = Ok tt (logged (frame_error "{" (TypeError "Unexpected token")) ready)
  /\ Connection.on_message cenv1 "{}" polling = Ok tt polling.
Proof.
  split.
  - apply (proj1 (proj2 (frame_handler_contained cenv0 "{" ready))
             (TypeError "Unexpected token") eq_refl).
  - apply (proj2 (proj2 (frame_handler_contained cenv1 "{}" polling))
             own_frame eq_refl eq_refl).
Defined.

Lemma after_close_never_authenticated :
  Spec.never_authenticated after_close.
Proof. repeat constructor. Defined.

Lemma silent_until_next_login_witness :
  Connection.connected
    (Connection.run cenv2 after_close
       (Connection.step cenv2 (Connection.Close O) ready)) = false
  /\ Spec.emitted
       (Connection.trace
          (Connection.run cenv2 after_close
             (Connection.step cenv2 (Connection.Close O) ready)))
     = Spec.emitted (Connection.trace ready)
  /\ Connection.registry
       (Connection.run cenv2 after_close
          (Connection.step cenv2 (Connection.Close O) ready))
     = Connection.registry ready.
Proof.
  apply (silent_until_next_login cenv2 ready O after_close eq_refl
           (Forall_nil _) after_close_never_authenticated).
Defined.

Lemma delivered_before_contacts_witness :
  exists e,
    Spec.emitted
      (Connection.trace
         (Connection.run cenv2
            [Connection.Response O (inr logged_in);
             Connection.Incoming O "{}"] polling))
    = [(("message." ++ Connection.e_message_type e)%string,
        Connection.Message e)]
    /\ Connection.e_bot e = false.
Proof.
  destruct (delivered_before_contacts cenv2 polling O O logged_in
              friend_frame "{}" eq_refl eq_refl eq_refl eq_refl
              (conj eq_refl eq_refl)
              (or_intror (ex_intro _ _ eq_refl))
              (or_intror (ex_intro _ _ eq_refl)))
    as (e & E & B & _).
  exists e. split; [exact E | exact B].
Defined.


Lemma only_messages_reach_host_witness :
  (exists e w',
     Connection.onMessage cenv0 listen_frame ready = Ok tt w'
     /\ Connection.e_reply_to e = VStr "Family"
     /\ Connection.e_user_id e = VStr "alice")
  /\ (exists w',
        Connection.onMessage cenv0 sent_frame ready = Ok tt w'
        /\ Spec.emitted (Connection.trace w') = []).
Proof.
  split.
  - destruct (proj1 (only_messages_reach_host cenv0 listen_frame ready
                       eq_refl eq_refl) eq_refl)
      as (e & w' & E & _ & _ & U & _ & R).
    exists e, w'. split; [exact E |]. split; [exact R | exact U].
  - destruct (proj2 (only_messages_reach_host cenv0 sent_frame ready
                       eq_refl eq_refl) eq_refl eq_refl)
      as (w' & E & H & _).
    exists w'. split; [exact E | exact H].
Defined.


End FurtherInstances.
